(** * Pointillism G-code generator: a shallow embedding and its properties

    The development follows [pointillism_gcode_generator.py]; the two
    test programs, [calibration_swatch.py] and [paint_mixing_grid.py],
    come after it, each in a module of its own.  Python
    integers are modelled by [Z] and grid indices by [nat].  Python floats
    are modelled twice.  In Part I they are exact rationals [Q], the
    rounding of binary floating point being left out: that model carries
    the properties that do not depend on rounding (the structure of the
    stream, heights and feeds that are constants) and those stated for
    exact arithmetic.  In Part III (module [Binary64]) they are the
    binary64 numbers themselves, for the properties that depend on
    rounding: where the dithering turns a cell on, where a re-dip falls,
    when the grid size cannot be computed.
    Exceptions are values of an error monad.  The dictionary whose
    iteration order matters ([PALETTE_RGB]) is an association list, the
    others are finite maps.  The text lines of the emitted program are
    kept as structured values, one constructor per line format. *)

From Stdlib Require Import ZArith QArith Qround Qabs Qminmax Lia Lqa List Bool.
From Stdlib Require Floats.
From stdpp Require Import base option list gmap sorting.
Import ListNotations.

(** * Part I: the program *)

(** ** Exceptions *)

Inductive error : Type :=
  | KeyError | IndexError | ZeroDivisionError | OverflowError | ValueError.

Inductive result (A : Type) : Type :=
  | Ok (a : A)
  | Err (e : error).
Arguments Ok {A} a.
Arguments Err {A} e.

#[global] Instance result_ret : MRet result := fun A a => Ok a.
#[global] Instance result_bind : MBind result := fun A B f m =>
  match m with
  | Ok a => f a
  | Err e => Err e
  end.

(** [d[k]] on a dictionary and [l[i]] on a list, for indices [i >= 0]. *)
Definition dict_get `{Countable K} {V} (d : gmap K V) (k : K) : result V :=
  match d !! k with
  | Some v => Ok v
  | None => Err KeyError
  end.

Definition getitem {A} (l : list A) (i : nat) : result A :=
  match l !! i with
  | Some a => Ok a
  | None => Err IndexError
  end.

(** Float division: dividing by zero raises. *)
Definition py_div (a b : Q) : result Q :=
  if Qeq_bool b 0 then Err ZeroDivisionError else Ok (a / b)%Q.

(** [round] on a float: to the nearest integer, halves to the even one. *)
Definition py_round (q : Q) : Z :=
  let f := Qfloor q in
  match (q - inject_Z f ?= 1 # 2)%Q with
  | Lt => f
  | Gt => (f + 1)%Z
  | Eq => if Z.even f then f else (f + 1)%Z
  end.

(** ** Constants *)

Inductive color : Type :=
  | black | blue | red | green | yellow | white | magenta | cyan.

#[global] Instance color_eq_dec : EqDecision color.
Proof. solve_decision. Defined.

Definition color_code (c : color) : nat :=
  match c with
  | black => 0 | blue => 1 | red => 2 | green => 3
  | yellow => 4 | white => 5 | magenta => 6 | cyan => 7
  end.

Definition color_of_code (n : nat) : color :=
  match n with
  | 0 => black | 1 => blue | 2 => red | 3 => green
  | 4 => yellow | 5 => white | 6 => magenta | _ => cyan
  end.

#[global] Instance color_countable : Countable color.
Proof.
  apply (inj_countable' color_code color_of_code). by intros [].
Defined.

Definition STATION_X0 : Q := 0.
Definition STATION_Y0 : Q := 400.
Definition STATION_DX : Q := 100.
Definition STATION_DY : Q := 0.

Definition DIP_OFFSET_X : Q := 0.
Definition DIP_OFFSET_Y : Q := 0.
Definition DIP_OFFSET_Z : Q := -3.

Definition BLOT_OFFSET_X : Q := 0.
Definition BLOT_OFFSET_Y : Q := 60.
Definition BLOT_OFFSET_Z : Q := -2.

Definition Z_PICK : Q := -5.
Definition Z_SAFE : Q := 15.
Definition Z_TRAVEL : Q := 10.
Definition Z_PREPAINT : Q := 2.
Definition Z_PAINT : Q := -1.

Definition FEED_TRAVEL : Z := 2500.
Definition FEED_Z : Z := 600.
Definition DAB_DWELL_S : Q := 0.05.
Definition RE_DIP_EVERY_N_DOTS : nat := 120.
Definition RE_DIP_AFTER_TRAVEL_MM : Q := 180.
Definition CLEAN_AT_END : bool := true.

Definition TIME_SCALE : Q := 1000.

Definition WHITE_THRESHOLD : Z := 240.

Inductive palette_name : Type := rgb6 | cmyk.

Definition COLOR_ORDER_RGB6 : list color := [black; blue; red; green; yellow; white].
Definition COLOR_ORDER_CMYK : list color := [yellow; magenta; cyan; black].

Definition PALETTES (p : palette_name) : list color :=
  match p with
  | rgb6 => COLOR_ORDER_RGB6
  | cmyk => COLOR_ORDER_CMYK
  end.

Definition rgb : Type := (Z * Z * Z)%type.

(** The reference table, in the insertion order of the dictionary literal. *)
Definition PALETTE_RGB : list (color * rgb) :=
  [ (red,    (220, 20, 60)%Z);
    (green,  (34, 139, 34)%Z);
    (blue,   (30, 144, 255)%Z);
    (yellow, (255, 215, 0)%Z);
    (black,  (0, 0, 0)%Z);
    (white,  (255, 255, 255)%Z) ].

(** ** Stations *)

Module Station.
Record t : Type := mk {
  name : color;
  x : Q; y : Q;
  z_pick : Q; z_safe : Q;
  dip_x : Q; dip_y : Q; dip_z : Q;
  blot_x : Q; blot_y : Q; blot_z : Q;
  dip_dwell_s : Q; blot_dwell_s : Q
}.
End Station.

(** [enumerate(colors)] *)
Definition enumerate {A} (l : list A) : list (nat * A) :=
  combine (seq 0 (length l)) l.

Definition make_stations (p : palette_name) : gmap color Station.t :=
  let colors := PALETTES p in
  fold_left
    (fun stations '(i, color) =>
       let x := (STATION_X0 + inject_Z (Z.of_nat i) * STATION_DX)%Q in
       let y := (STATION_Y0 + inject_Z (Z.of_nat i) * STATION_DY)%Q in
       <[color :=
           {| Station.name := color;
              Station.x := x; Station.y := y;
              Station.z_pick := Z_PICK; Station.z_safe := Z_SAFE;
              Station.dip_x := (x + DIP_OFFSET_X)%Q;
              Station.dip_y := (y + DIP_OFFSET_Y)%Q;
              Station.dip_z := DIP_OFFSET_Z;
              Station.blot_x := (x + BLOT_OFFSET_X)%Q;
              Station.blot_y := (y + BLOT_OFFSET_Y)%Q;
              Station.blot_z := BLOT_OFFSET_Z;
              Station.dip_dwell_s := 1; Station.blot_dwell_s := 0.5 |}]> stations)
    (enumerate colors) ∅.

(** ** Colour conversion and dithering *)

Definition dist2 (p q : rgb) : Z :=
  let '(r, g, b) := p in
  let '(R, G, B) := q in
  ((r - R) ^ 2 + (g - G) ^ 2 + (b - B) ^ 2)%Z.

(** One iteration of [for name,(R,G,B) in PALETTE_RGB.items()]. *)
Definition nearest_step (p : rgb) (st : option color * Z) (item : color * rgb)
  : option color * Z :=
  let '(best, best_d2) := st in
  let '(name, ref) := item in
  let d2 := dist2 p ref in
  if (d2 <? best_d2)%Z then (Some name, d2) else (best, best_d2).

Definition nearest_in (items : list (color * rgb)) (p : rgb) : option color :=
  fst (fold_left (nearest_step p) items (None, 10 ^ 18)%Z).

Definition nearest_palette_color (p : rgb) : option color :=
  nearest_in PALETTE_RGB p.

Definition cmyk_t : Type := (Q * Q * Q * Q)%type.

Definition rgb_to_cmyk (p : rgb) : result cmyk_t :=
  let '(r, g, b) := p in
  let R := (inject_Z r / 255)%Q in
  let G := (inject_Z g / 255)%Q in
  let B := (inject_Z b / 255)%Q in
  let K := (1 - Qmax (Qmax R G) B)%Q in
  if Qle_bool 1 K then Ok (0, 0, 0, 1)%Q
  else
    C ← py_div (1 - R - K) (1 - K);
    M ← py_div (1 - G - K) (1 - K);
    Y ← py_div (1 - B - K) (1 - K);
    Ok (C, M, Y, K).

(** A plane is a list of rows; [cell a y x] is [a[y][x]] once the shape of
    [a] is known to contain the index, [add_at] is [a[y][x] += v] and
    [set_at] is [a[y][x] = v]. *)
Definition cell {A} (d : A) (a : list (list A)) (y x : nat) : A :=
  default d (row ← a !! y; row !! x).

Definition add_at (a : list (list Q)) (y x : nat) (v : Q) : list (list Q) :=
  alter (alter (fun c => c + v)%Q x) y a.

Definition set_at {A} (a : list (list A)) (y x : nat) (v : A) : list (list A) :=
  alter (fun row => <[x := v]> row) y a.

(** [[[img_chan[y][x] for x in range(w)] for y in range(h)]] *)
Definition copy_plane (img_chan : list (list Q)) (w h : nat) : result (list (list Q)) :=
  mapM (fun y => mapM (fun x => row ← getitem img_chan y; getitem row x) (seq 0 w))
       (seq 0 h).

(** The body of the two nested loops, at row [y] and column [x]. *)
Definition fs_cell (w h : nat) (y : nat) (s : list (list Q) * list (list Z)) (x : nat)
  : list (list Q) * list (list Z) :=
  let '(arr, out) := s in
  let old := cell 0%Q arr y x in
  let new := if Qle_bool 0.5 old then 1%Z else 0%Z in
  let out := set_at out y x new in
  let err := (old - inject_Z new)%Q in
  let arr := if x + 1 <? w then add_at arr y (x + 1) (err * 7 / 16) else arr in
  let arr := if (y + 1 <? h) && (0 <? x) then add_at arr (y + 1) (x - 1) (err * 3 / 16) else arr in
  let arr := if y + 1 <? h then add_at arr (y + 1) x (err * 5 / 16) else arr in
  let arr := if (y + 1 <? h) && (x + 1 <? w) then add_at arr (y + 1) (x + 1) (err * 1 / 16) else arr in
  (arr, out).

Definition fs_row (w h : nat) (s : list (list Q) * list (list Z)) (y : nat) :=
  fold_left (fs_cell w h y) (seq 0 w) s.

Definition floyd_steinberg_dither_channel (img_chan : list (list Q)) (w h : nat)
  : result (list (list Z)) :=
  arr ← copy_plane img_chan w h;
  let out := replicate h (replicate w 0%Z) in
  Ok (snd (fold_left (fs_row w h) (seq 0 h) (arr, out))).

Definition serpentine_indices (w h : nat) : list (nat * nat) :=
  fold_left
    (fun order j =>
       let row := map (fun i => (i, j)) (seq 0 w) in
       let row := if j mod 2 =? 1 then rev row else row in
       order ++ row)
    (seq 0 h) [].

(** ** G-code lines *)

Inductive remark : Type :=
  | Title                                        (* (Pointillism painting) *)
  | GridInfo (cols rows : nat) (pitch : Q)       (* (Grid CxR, pitch P mm) *)
  | ColorHeader (c : color) (n : nat)            (* (=== c n dots ===) *)
  | Pickup (c : color)                           (* (Pickup c) *)
  | Return (c : color)                           (* (Return c) *)
  | Dip (c : color).                             (* (Dip c) *)

(** A motion line carries the words that are present in its text, each
    with the number that the source formats (three decimals for a
    coordinate): numbers that differ may print alike. *)
Inductive line : Type :=
  | Comment (r : remark)
  | G21 | G90 | G94 | M2
  | G0 (x y z : option Q) (f : option Z)
  | G1 (x y z : option Q) (f : option Z)
  | G4 (p : Q).

Record Args : Type := {
  width_mm : Q;
  height_mm : Q;
  dot_pitch_mm : Q;
  origin_x : Q;
  origin_y : Q;
  margin_mm : Q;
  palette : palette_name
}.

Definition move_xy (x y : Q) : list line := [G0 (Some x) (Some y) None (Some FEED_TRAVEL)].
Definition move_z (z : Q) : list line := [G1 None None (Some z) (Some FEED_Z)].
Definition dwell (s : Q) : list line := [G4 (s * TIME_SCALE)%Q].

(** The lines of [pickup_brush], [return_brush] and [dip_brush] once the
    station has been looked up. *)
Definition pickup_lines (color : color) (st : Station.t) : list line :=
  Comment (Pickup color) ::
  move_xy (Station.x st) (Station.y st) ++ move_z (Station.z_safe st) ++
  move_z (Station.z_pick st) ++ dwell 0.3 ++ move_z (Station.z_safe st).

Definition return_lines (color : color) (st : Station.t) : list line :=
  Comment (Return color) ::
  move_xy (Station.x st) (Station.y st) ++ move_z (Station.z_safe st) ++
  move_z (Station.z_pick st) ++ dwell 0.3 ++ move_z (Station.z_safe st).

Definition dip_lines (color : color) (st : Station.t) : list line :=
  Comment (Dip color) ::
  (move_xy (Station.dip_x st) (Station.dip_y st) ++ move_z (Station.z_safe st) ++
   move_z (Station.dip_z st) ++ dwell (Station.dip_dwell_s st) ++
   move_z (Station.z_safe st)) ++
  (move_xy (Station.blot_x st) (Station.blot_y st) ++ move_z (Station.z_safe st) ++
   move_z (Station.blot_z st) ++ dwell (Station.blot_dwell_s st) ++
   move_z (Station.z_safe st)).

Definition pickup_brush (stations : gmap color Station.t) (color : color) : result (list line) :=
  st ← dict_get stations color; Ok (pickup_lines color st).

Definition return_brush (stations : gmap color Station.t) (color : color) : result (list line) :=
  st ← dict_get stations color; Ok (return_lines color st).

Definition dip_brush (stations : gmap color Station.t) (color : color) : result (list line) :=
  st ← dict_get stations color; Ok (dip_lines color st).

Definition paint_dot (x y dwell_time : Q) : list line :=
  move_xy x y ++ move_z Z_PREPAINT ++ move_z Z_PAINT ++ dwell dwell_time ++
  move_z Z_TRAVEL.

Definition xy_of_pixel (args : Args) (px py : nat) : Q * Q :=
  let origin_x := (origin_x args + margin_mm args)%Q in
  let origin_y := (origin_y args + margin_mm args)%Q in
  ((origin_x + inject_Z (Z.of_nat px) * dot_pitch_mm args)%Q,
   (origin_y + inject_Z (Z.of_nat py) * dot_pitch_mm args)%Q).

(** The variables of the loop over [serp], with the lines it has appended. *)
Record dab_state : Type := {
  lines : list line;
  dots_since : nat;
  travel_since : Q;
  last : option (Q * Q)
}.

Section Emitter.
(** [math.hypot] is the runtime's; the two re-dip thresholds are the
    module constants [RE_DIP_EVERY_N_DOTS] and [RE_DIP_AFTER_TRAVEL_MM],
    which [main] passes. *)
Variable hypot : Q -> Q -> Q.
Variable every_n_dots : nat.
Variable after_travel_mm : Q.

(** What one dab does to the loop variables, at the position [pos] in mm;
    [dip] are the lines of [dip_brush(color)]. *)
Definition dab_at (dip : list line) (s : dab_state) (pos : Q * Q) : dab_state :=
  let '(x_mm, y_mm) := pos in
  let travel :=
    match last s with
    | Some l => (travel_since s + hypot (x_mm - fst l) (y_mm - snd l))%Q
    | None => travel_since s
    end in
  let redip :=
    (every_n_dots <=? dots_since s) ||
    (negb (Qle_bool after_travel_mm 0) && Qle_bool after_travel_mm travel) in
  let lines := if redip then lines s ++ dip else lines s in
  let dots := if redip then O else dots_since s in
  let travel := if redip then 0%Q else travel in
  {| lines := lines ++ paint_dot x_mm y_mm DAB_DWELL_S;
     dots_since := S dots;
     travel_since := travel;
     last := Some (x_mm, y_mm) |}.

(** One iteration of [for (px,py) in serp]. *)
Definition dab_step (args : Args) (pts : list (nat * nat)) (dip : list line)
    (s : dab_state) (p : nat * nat) : dab_state :=
  if bool_decide (p ∈ pts) then dab_at dip s (xy_of_pixel args (fst p) (snd p))
  else s.

Definition dab_init : dab_state :=
  {| lines := []; dots_since := O; travel_since := 0%Q; last := None |}.

(** One iteration of [for color in color_order]: the lines it appends. *)
Definition color_pass (color_points : gmap color (list (nat * nat)))
    (stations : gmap color Station.t) (args : Args) (serp : list (nat * nat))
    (color : color) : result (list line) :=
  pts ← dict_get color_points color;
  match pts with
  | [] => Ok []
  | _ :: _ =>
      pickup ← pickup_brush stations color;
      dip ← dip_brush stations color;
      let s := fold_left (dab_step args pts dip) serp dab_init in
      clean ← (if CLEAN_AT_END then
                 st ← dict_get stations color;
                 Ok (move_xy (Station.blot_x st) (Station.blot_y st) ++
                     move_z (Station.z_safe st) ++ move_z (Station.blot_z st) ++
                     dwell 0.3 ++ move_z (Station.z_safe st))
               else Ok []);
      ret ← return_brush stations color;
      Ok (Comment (ColorHeader color (length pts)) ::
          pickup ++ dip ++ lines s ++ clean ++ ret)
  end.

Definition gen_gcode (color_points : gmap color (list (nat * nat)))
    (color_order : list color) (grid_cols grid_rows : nat)
    (stations : gmap color Station.t) (args : Args) : result (list line) :=
  let serp := serpentine_indices grid_cols grid_rows in
  passes ← mapM (color_pass color_points stations args serp) color_order;
  Ok ([Comment Title; Comment (GridInfo grid_cols grid_rows (dot_pitch_mm args));
       G21; G90; G94; G0 None None (Some Z_TRAVEL) None] ++
      concat passes ++
      [G0 None None (Some Z_TRAVEL) None; G0 (Some 0%Q) (Some 0%Q) None None; M2]).
End Emitter.

(** ** Main *)

(** The cells of [for y in range(rows): for x in range(cols)], as [(x, y)]. *)
Definition row_major (cols rows : nat) : list (nat * nat) :=
  y ← seq 0 rows; x ← seq 0 cols; [(x, y)].

(** A loop whose body may raise. *)
Definition for_each {A S} (l : list A) (s : S) (body : S -> A -> result S) : result S :=
  fold_left (fun r a => s ← r; body s a) l (Ok s).

(** [max(1, int(round(usable / pitch)))] *)
Definition grid_size (usable pitch : Q) : result nat :=
  q ← py_div usable pitch; Ok (Z.to_nat (Z.max 1 (py_round q))).

(** The background test of the rgb6 branch. *)
Definition is_background (p : rgb) : bool :=
  let '(r, g, b) := p in
  (WHITE_THRESHOLD <=? r)%Z && (WHITE_THRESHOLD <=? g)%Z && (WHITE_THRESHOLD <=? b)%Z.

(** What the rgb6 branch decides for one pixel: [None] is [continue],
    [Some col] is the key used in [color_points[col]]. *)
Definition classify_pixel (p : rgb) : option (option color) :=
  if is_background p then None else Some (nearest_palette_color p).

Definition rgb6_points (getpixel : nat -> nat -> rgb) (grid_cols grid_rows : nat)
  : result (gmap color (list (nat * nat))) :=
  let color_points := fold_left (fun cp c => <[c := []]> cp) (map fst PALETTE_RGB) ∅ in
  for_each (row_major grid_cols grid_rows) color_points
    (fun cp '(x, y) =>
       match classify_pixel (getpixel x y) with
       | None => Ok cp
       | Some None => Err KeyError
       | Some (Some col) => pts ← dict_get cp col; Ok (<[col := pts ++ [(x, y)]]> cp)
       end).

(** The cells where a dithered plane holds 1, in row-major order. *)
Definition ones_of (d : list (list Z)) (grid_cols grid_rows : nat) : list (nat * nat) :=
  filter (fun p => cell 0%Z d (snd p) (fst p) = 1%Z) (row_major grid_cols grid_rows).

Definition cmyk_points (getpixel : nat -> nat -> rgb) (grid_cols grid_rows : nat)
  : result (gmap color (list (nat * nat))) :=
  inks ← mapM (fun y => mapM (fun x => rgb_to_cmyk (getpixel x y)) (seq 0 grid_cols))
              (seq 0 grid_rows);
  let Cchan := map (map (fun k : cmyk_t => k.1.1.1)) inks in
  let Mchan := map (map (fun k : cmyk_t => k.1.1.2)) inks in
  let Ychan := map (map (fun k : cmyk_t => k.1.2)) inks in
  let Kchan := map (map (fun k : cmyk_t => k.2)) inks in
  Cd ← floyd_steinberg_dither_channel Cchan grid_cols grid_rows;
  Md ← floyd_steinberg_dither_channel Mchan grid_cols grid_rows;
  Yd ← floyd_steinberg_dither_channel Ychan grid_cols grid_rows;
  Kd ← floyd_steinberg_dither_channel Kchan grid_cols grid_rows;
  Ok (<[black := ones_of Kd grid_cols grid_rows]>
      (<[yellow := ones_of Yd grid_cols grid_rows]>
       (<[magenta := ones_of Md grid_cols grid_rows]>
        (<[cyan := ones_of Cd grid_cols grid_rows]> ∅)))).

(** [main], after argument parsing and up to the write of the output file:
    [resize cols rows] is the resized image, read with [getpixel]. *)
Definition main (hypot : Q -> Q -> Q) (args : Args)
    (resize : nat -> nat -> nat -> nat -> rgb) : result (list line) :=
  let usable_w := Qmax 0 (width_mm args - 2 * margin_mm args) in
  let usable_h := Qmax 0 (height_mm args - 2 * margin_mm args) in
  grid_cols ← grid_size usable_w (dot_pitch_mm args);
  grid_rows ← grid_size usable_h (dot_pitch_mm args);
  let im_resized := resize grid_cols grid_rows in
  let stations := make_stations (palette args) in
  match palette args with
  | rgb6 =>
      color_points ← rgb6_points im_resized grid_cols grid_rows;
      gen_gcode hypot RE_DIP_EVERY_N_DOTS RE_DIP_AFTER_TRAVEL_MM
        color_points COLOR_ORDER_RGB6 grid_cols grid_rows stations args
  | cmyk =>
      color_points ← cmyk_points im_resized grid_cols grid_rows;
      gen_gcode hypot RE_DIP_EVERY_N_DOTS RE_DIP_AFTER_TRAVEL_MM
        color_points COLOR_ORDER_CMYK grid_cols grid_rows stations args
  end.

(** An executable stand-in for [math.hypot], exact on multiples of 2^-20. *)
Definition hypot_fix (dx dy : Q) : Q :=
  Z.sqrt (Qfloor ((dx * dx + dy * dy) * inject_Z (4 ^ 20))) # 2 ^ 20.


(** ** The dithering pass on a store of list objects

    Python lists are objects that several names may share.  Here a plane is
    a list of references to its rows, the rows live in a store, and the pass
    is written with the reads, writes and allocations of the source, so that
    what it does to the rows it was given can be stated.  The pass never
    writes to a list of rows itself, so these are plain lists of references.
    The numbers of the output rows are stored as rationals.  A computation
    returns a value or raises, and in both cases leaves a store. *)

Definition St (A : Type) : Type :=
  gmap nat (list Q) -> result A * gmap nat (list Q).

#[global] Instance St_ret : MRet St := fun A a σ => (Ok a, σ).
#[global] Instance St_bind : MBind St := fun A B f m σ =>
  match m σ with
  | (Ok a, σ') => f a σ'
  | (Err e, σ') => (Err e, σ')
  end.


(** A new list object. *)
Definition new_list (row : list Q) : St nat := fun σ =>
  let l := fresh (dom σ) in (Ok l, <[l := row]> σ).

(** [a[y]] on a list of rows. *)
Definition row_at (a : list nat) (y : nat) : St nat := fun σ =>
  match a !! y with
  | Some l => (Ok l, σ)
  | None => (Err IndexError, σ)
  end.

(** [row[i]] and [row[i] = v] on the row object [l]. *)
Definition load (l i : nat) : St Q := fun σ =>
  match σ !! l ≫= (fun row => row !! i) with
  | Some v => (Ok v, σ)
  | None => (Err IndexError, σ)
  end.

Definition store (l i : nat) (v : Q) : St unit := fun σ =>
  match σ !! l with
  | Some row =>
      if decide (i < length row) then (Ok tt, <[l := <[i := v]> row]> σ)
      else (Err IndexError, σ)
  | None => (Err IndexError, σ)
  end.

(** [a[y][x] += v] *)
Definition incr (a : list nat) (y x : nat) (v : Q) : St unit :=
  l ← row_at a y; old ← load l x; store l x (old + v)%Q.

(** [for i in l: body(i)] *)
Definition for_ {A} (l : list A) (body : A -> St unit) : St unit :=
  fold_right (fun a rest => body a;; rest) (mret tt) l.

Definition when (b : bool) (m : St unit) : St unit := if b then m else mret tt.

Definition fs_cell_st (w h : nat) (arr out : list nat) (y x : nat) : St unit :=
  ra ← row_at arr y;
  old ← load ra x;
  let new := if Qle_bool 0.5 old then 1%Z else 0%Z in
  ro ← row_at out y;
  store ro x (inject_Z new);;
  let err := (old - inject_Z new)%Q in
  when (x + 1 <? w) (incr arr y (x + 1) (err * 7 / 16));;
  when ((y + 1 <? h) && (0 <? x)) (incr arr (y + 1) (x - 1) (err * 3 / 16));;
  when (y + 1 <? h) (incr arr (y + 1) x (err * 5 / 16));;
  when ((y + 1 <? h) && (x + 1 <? w)) (incr arr (y + 1) (x + 1) (err * 1 / 16)).

Definition floyd_steinberg_dither_channel_st (img_chan : list nat) (w h : nat)
  : St (list nat) :=
  arr ← mapM (fun y =>
                row ← mapM (fun x => r ← row_at img_chan y; load r x) (seq 0 w);
                new_list row)
             (seq 0 h);
  out ← mapM (fun _ => new_list (replicate w 0%Q)) (seq 0 h);
  for_ (seq 0 h) (fun y => for_ (seq 0 w) (fun x => fs_cell_st w h arr out y x));;
  mret out.

(** * Part I, continued: the two test programs

    [calibration_swatch.py] and [paint_mixing_grid.py] are scripts of
    their own, with their own constants and their own copy of
    [make_stations].  Both write the three set-up words on one line.  The
    stations are the same record as above.  A line keeps its numbers, not
    the number of digits they are written with. *)

(** ** The lines of the test programs, with the comments [R] of each *)

Module Gcode.
Inductive line (R : Type) : Type :=
  | Comment (r : R)
  | Setup                                        (* G21 G90 G94 *)
  | M2
  | G0 (x y z : option Q) (f : option Z)
  | G1 (x y z : option Q) (f : option Z)
  | G4 (p : Q).
Arguments Comment {R} r.
Arguments Setup {R}.
Arguments M2 {R}.
Arguments G0 {R} x y z f.
Arguments G1 {R} x y z f.
Arguments G4 {R} p.
End Gcode.

(** ** [calibration_swatch.py] *)

Module Swatch.
Import Gcode.

Definition STATION_X0 : Q := 0.
Definition STATION_Y0 : Q := 400.
Definition STATION_DX : Q := 100.
Definition STATION_DY : Q := 0.

Definition DIP_OFFSET_X : Q := 0.
Definition DIP_OFFSET_Y : Q := 0.
Definition DIP_OFFSET_Z : Q := -3.

Definition BLOT_OFFSET_X : Q := 60.
Definition BLOT_OFFSET_Y : Q := 0.
Definition BLOT_OFFSET_Z : Q := -2.

Definition Z_PICK : Q := -5.
Definition Z_SAFE : Q := 15.
Definition Z_TRAVEL : Q := 10.
Definition Z_PREPAINT : Q := 2.
Definition Z_PAINT : Q := -1.

Definition FEED_TRAVEL : Z := 2000.
Definition FEED_Z : Z := 600.

Definition TIME_SCALE : Q := 1000.

Definition DAB_DWELL_BASE : Q := 0.05.
Definition DAB_DWELL_STEP : Q := 0.05.

Definition DOTS_PER_COLOR : nat := 5.

Definition COLOR_ORDER_RGB6 : list color := [black; blue; red; green; yellow; white].
Definition COLOR_ORDER_CMYK : list color := [yellow; magenta; cyan; black].

Definition PALETTES (p : palette_name) : list color :=
  match p with
  | rgb6 => COLOR_ORDER_RGB6
  | cmyk => COLOR_ORDER_CMYK
  end.

Definition make_stations (p : palette_name) : gmap color Station.t :=
  let colors := PALETTES p in
  fold_left
    (fun stations '(i, color) =>
       let x := (STATION_X0 + inject_Z (Z.of_nat i) * STATION_DX)%Q in
       let y := (STATION_Y0 + inject_Z (Z.of_nat i) * STATION_DY)%Q in
       <[color :=
           {| Station.name := color;
              Station.x := x; Station.y := y;
              Station.z_pick := Z_PICK; Station.z_safe := Z_SAFE;
              Station.dip_x := (x + DIP_OFFSET_X)%Q;
              Station.dip_y := (y + DIP_OFFSET_Y)%Q;
              Station.dip_z := DIP_OFFSET_Z;
              Station.blot_x := (x + BLOT_OFFSET_X)%Q;
              Station.blot_y := (y + BLOT_OFFSET_Y)%Q;
              Station.blot_z := BLOT_OFFSET_Z;
              Station.dip_dwell_s := 1; Station.blot_dwell_s := 0.5 |}]> stations)
    (enumerate colors) ∅.

Inductive remark : Type :=
  | Title (p : palette_name)                     (* (Calibration swatch for p) *)
  | Pickup (c : color)                           (* (Pickup c) *)
  | Return (c : color)                           (* (Return c) *)
  | Dip (c : color)                              (* (Dip c) *)
  | DotInfo (c : color) (dot : nat) (dwell_time : Q).
                                                 (* (Color c, dot n, dwell t s) *)

Record Args : Type := {
  palette : palette_name;
  origin_x : Q;
  origin_y : Q;
  dot_pitch_mm : Q
}.

Definition move_xy (x y : Q) : list (line remark) :=
  [G0 (Some x) (Some y) None (Some FEED_TRAVEL)].
Definition move_z (z : Q) : list (line remark) := [G1 None None (Some z) (Some FEED_Z)].
Definition dwell (s : Q) : list (line remark) := [G4 (s * TIME_SCALE)%Q].

Definition pickup_brush (stations : gmap color Station.t) (color : color)
  : result (list (line remark)) :=
  st ← dict_get stations color;
  Ok (Comment (Pickup color) ::
      move_xy (Station.x st) (Station.y st) ++ move_z (Station.z_safe st) ++
      move_z (Station.z_pick st) ++ dwell 0.3 ++ move_z (Station.z_safe st)).

Definition return_brush (stations : gmap color Station.t) (color : color)
  : result (list (line remark)) :=
  st ← dict_get stations color;
  Ok (Comment (Return color) ::
      move_xy (Station.x st) (Station.y st) ++ move_z (Station.z_safe st) ++
      move_z (Station.z_pick st) ++ dwell 0.3 ++ move_z (Station.z_safe st)).

Definition dip_brush (stations : gmap color Station.t) (color : color)
  : result (list (line remark)) :=
  st ← dict_get stations color;
  Ok (Comment (Dip color) ::
      (move_xy (Station.dip_x st) (Station.dip_y st) ++ move_z (Station.z_safe st) ++
       move_z (Station.dip_z st) ++ dwell (Station.dip_dwell_s st) ++
       move_z (Station.z_safe st)) ++
      (move_xy (Station.blot_x st) (Station.blot_y st) ++ move_z (Station.z_safe st) ++
       move_z (Station.blot_z st) ++ dwell (Station.blot_dwell_s st) ++
       move_z (Station.z_safe st))).

Definition paint_dot (x y dwell_time : Q) : list (line remark) :=
  move_xy x y ++ move_z Z_PREPAINT ++ move_z Z_PAINT ++ dwell dwell_time ++
  move_z Z_TRAVEL.

(** One iteration of [for j in range(DOTS_PER_COLOR)], for the colour
    [color] of index [ci]. *)
Definition swatch_dot (args : Args) (ci : nat) (color : color) (j : nat)
  : list (line remark) :=
  let x := (origin_x args + inject_Z (Z.of_nat ci) * dot_pitch_mm args)%Q in
  let y := (origin_y args + inject_Z (Z.of_nat j) * dot_pitch_mm args)%Q in
  let dwell_time := (DAB_DWELL_BASE + inject_Z (Z.of_nat j) * DAB_DWELL_STEP)%Q in
  Comment (DotInfo color (j + 1) dwell_time) :: paint_dot x y dwell_time.

(** One iteration of [for ci, color in enumerate(colors)]. *)
Definition swatch_color (args : Args) (stations : gmap color Station.t)
    (item : nat * color) : result (list (line remark)) :=
  let '(ci, color) := item in
  pickup ← pickup_brush stations color;
  dip ← dip_brush stations color;
  let dots := flat_map (swatch_dot args ci color) (seq 0 DOTS_PER_COLOR) in
  ret ← return_brush stations color;
  Ok (pickup ++ dip ++ dots ++ ret).

(** [main], after argument parsing and up to the write of the output file. *)
Definition main (args : Args) : result (list (line remark)) :=
  let stations := make_stations (palette args) in
  let colors := PALETTES (palette args) in
  body ← mapM (swatch_color args stations) (enumerate colors);
  Ok ([Comment (Title (palette args)); Setup; G0 None None (Some Z_TRAVEL) None] ++
      concat body ++
      [G0 None None (Some Z_TRAVEL) None; G0 (Some 0%Q) (Some 0%Q) None None; M2]).
End Swatch.

(** ** [paint_mixing_grid.py] *)

Module Mixing.
Import Gcode.

Definition STATION_X0 : Q := 400.
Definition STATION_Y0 : Q := 40.
Definition STATION_DX : Q := 0.
Definition STATION_DY : Q := 40.

Definition DIP_OFFSET_X : Q := 0.
Definition DIP_OFFSET_Y : Q := 0.
Definition DIP_OFFSET_Z : Q := -3.
Definition BLOT_OFFSET_X : Q := 60.
Definition BLOT_OFFSET_Y : Q := 0.
Definition BLOT_OFFSET_Z : Q := -2.

Definition Z_PICK : Q := -5.
Definition Z_SAFE : Q := 15.
Definition Z_TRAVEL : Q := 10.
Definition Z_PREPAINT : Q := 2.

Definition FEED_TRAVEL : Z := 2000.
Definition FEED_Z : Z := 600.

Definition TIME_SCALE : Q := 1000.

Definition VERTEX_RADIUS : Q := 8.
Definition TRIANGLE_OFFSETS : list (Q * Q) :=
  [ (0, - VERTEX_RADIUS)%Q;
    (- VERTEX_RADIUS * 0.866, VERTEX_RADIUS / 2)%Q;
    (VERTEX_RADIUS * 0.866, VERTEX_RADIUS / 2)%Q ].
Definition CENTER_OFFSET : Q * Q := (0, 0)%Q.

(** The (zmin, zmax) of each colour. *)
Definition z_table : Type := gmap color (Q * Q).

Definition Z_RANGES_RGB : z_table :=
  <[white := (-0.5, -2)%Q]> (<[blue := (-0.5, -2)%Q]>
    (<[yellow := (-0.5, -2)%Q]> (<[red := (-0.5, -2)%Q]> ∅))).
Definition Z_RANGES_CMYK : z_table :=
  <[black := (-0.5, -2)%Q]> (<[yellow := (-0.5, -2)%Q]>
    (<[magenta := (-0.5, -2)%Q]> (<[cyan := (-0.5, -2)%Q]> ∅))).

Definition COLOR_ORDER_RGB6 : list color := [red; yellow; blue; white].
Definition COLOR_ORDER_CMYK : list color := [cyan; magenta; yellow; black].

Definition PALETTES (p : palette_name) : list color :=
  match p with
  | rgb6 => COLOR_ORDER_RGB6
  | cmyk => COLOR_ORDER_CMYK
  end.

Definition make_stations (p : palette_name) : gmap color Station.t :=
  let colors := PALETTES p in
  fold_left
    (fun stations '(i, color) =>
       let x := (STATION_X0 + inject_Z (Z.of_nat i) * STATION_DX)%Q in
       let y := (STATION_Y0 + inject_Z (Z.of_nat i) * STATION_DY)%Q in
       <[color :=
           {| Station.name := color;
              Station.x := x; Station.y := y;
              Station.z_pick := Z_PICK; Station.z_safe := Z_SAFE;
              Station.dip_x := (x + DIP_OFFSET_X)%Q;
              Station.dip_y := (y + DIP_OFFSET_Y)%Q;
              Station.dip_z := DIP_OFFSET_Z;
              Station.blot_x := (x + BLOT_OFFSET_X)%Q;
              Station.blot_y := (y + BLOT_OFFSET_Y)%Q;
              Station.blot_z := BLOT_OFFSET_Z;
              Station.dip_dwell_s := 1; Station.blot_dwell_s := 0.5 |}]> stations)
    (enumerate colors) ∅.

Definition lerp (a b t : Q) : Q := (a + (b - a) * t)%Q.

(** [None] is the [None] of the source: no dot for a value that is not
    positive.  The range of the colour is looked up after that test. *)
Definition value_to_z (color : color) (value : Q) (z_ranges : z_table)
  : result (option Q) :=
  if Qle_bool value 0 then Ok None
  else
    '(zmin, zmax) ← dict_get z_ranges color;
    Ok (Some (lerp zmin zmax value)).

Inductive remark : Type :=
  | Title (p : palette_name)                     (* (Paint mixing grid for p) *)
  | Cluster (row col : nat)                      (* (Cluster row r col c) *)
  | Pickup (c : color)                           (* (Pickup c) *)
  | Return (c : color)                           (* (Return c) *)
  | Dip (c : color)                              (* (Dip c) *)
  | DotInfo (c : color) (value z : Q).           (* ( c value=v z=z ) *)

Record Args : Type := {
  palette : palette_name;
  origin_x : Q;
  origin_y : Q;
  dot_pitch_mm : Q;
  grid_cols : Z;
  grid_rows : Z
}.

Definition move_xy (x y : Q) : list (line remark) :=
  [G0 (Some x) (Some y) None (Some FEED_TRAVEL)].
Definition move_z (z : Q) : list (line remark) := [G1 None None (Some z) (Some FEED_Z)].
Definition dwell (s : Q) : list (line remark) := [G4 (s * TIME_SCALE)%Q].

Definition pickup_brush (st : Station.t) : list (line remark) :=
  Comment (Pickup (Station.name st)) ::
  move_xy (Station.x st) (Station.y st) ++ move_z (Station.z_safe st) ++
  move_z (Station.z_pick st) ++ dwell 0.3 ++ move_z (Station.z_safe st).

Definition return_brush (st : Station.t) : list (line remark) :=
  Comment (Return (Station.name st)) ::
  move_xy (Station.x st) (Station.y st) ++ move_z (Station.z_safe st) ++
  move_z (Station.z_pick st) ++ dwell 0.3 ++ move_z (Station.z_safe st).

Definition dip_brush (st : Station.t) : list (line remark) :=
  Comment (Dip (Station.name st)) ::
  (move_xy (Station.dip_x st) (Station.dip_y st) ++ move_z (Station.z_safe st) ++
   move_z (Station.dip_z st) ++ dwell (Station.dip_dwell_s st) ++
   move_z (Station.z_safe st)) ++
  (move_xy (Station.blot_x st) (Station.blot_y st) ++ move_z (Station.z_safe st) ++
   move_z (Station.blot_z st) ++ dwell (Station.blot_dwell_s st) ++
   move_z (Station.z_safe st)).

Definition paint_dot (x y z : Q) : list (line remark) :=
  move_xy x y ++ move_z Z_PREPAINT ++ move_z z ++ dwell 0.1 ++ move_z Z_TRAVEL.

(** [range(n)] for an integer [n]: empty when [n] is not positive. *)
Definition range (n : Z) : list nat := seq 0 (Z.to_nat n).

(** [i/(n-1) if n>1 else 0] *)
Definition sweep (i : nat) (n : Z) : result Q :=
  if (1 <? n)%Z then py_div (inject_Z (Z.of_nat i)) (inject_Z (n - 1)) else Ok 0%Q.

(** The dot of one colour of a cluster at [(x, y)]: nothing when
    [value_to_z] gives [None]. *)
Definition mix_dot (stations : gmap color Station.t) (values : gmap color Q)
    (z_ranges : z_table) (color : color) (x y : Q)
  : result (list (line remark)) :=
  st ← dict_get stations color;
  val ← dict_get values color;
  z ← value_to_z color val z_ranges;
  match z with
  | None => Ok []
  | Some z =>
      Ok (pickup_brush st ++ dip_brush st ++
          [Comment (DotInfo color val z)] ++ paint_dot x y z ++ return_brush st)
  end.

(** The body of the two nested loops, at [row] and [col]. *)
Definition cluster (args : Args) (stations : gmap color Station.t) (colors : list color)
    (z_ranges : z_table) (row col : nat) : result (list (line remark)) :=
  let base_x := (origin_x args + inject_Z (Z.of_nat col) * dot_pitch_mm args)%Q in
  let base_y := (origin_y args + inject_Z (Z.of_nat row) * dot_pitch_mm args)%Q in
  t_x ← sweep col (grid_cols args);
  t_y ← sweep row (grid_rows args);
  let values : gmap color Q :=
    match palette args with
    | rgb6 => <[white := 1%Q]> (<[blue := 0.5%Q]> (<[yellow := t_y]> (<[red := t_x]> ∅)))
    | cmyk => <[black := 0%Q]> (<[yellow := 0.5%Q]> (<[magenta := t_y]> (<[cyan := t_x]> ∅)))
    end in
  vertices ← mapM (fun '(color, offset) =>
                     mix_dot stations values z_ranges color
                       (base_x + fst offset)%Q (base_y + snd offset)%Q)
                  (zip (take 3 colors) TRIANGLE_OFFSETS);
  center_color ← getitem colors 3;
  center ← mix_dot stations values z_ranges center_color
              (base_x + fst CENTER_OFFSET)%Q (base_y + snd CENTER_OFFSET)%Q;
  Ok (Comment (Cluster row col) :: concat vertices ++ center).

(** [main], after argument parsing and up to the write of the output file. *)
Definition main (args : Args) : result (list (line remark)) :=
  let stations := make_stations (palette args) in
  let colors := PALETTES (palette args) in
  let z_ranges :=
    match palette args with
    | rgb6 => Z_RANGES_RGB
    | cmyk => Z_RANGES_CMYK
    end in
  clusters ← mapM (fun '(row, col) => cluster args stations colors z_ranges row col)
                  (row ← range (grid_rows args); col ← range (grid_cols args);
                   [(row, col)]);
  Ok ([Comment (Title (palette args)); Setup; G0 None None (Some Z_TRAVEL) None] ++
      concat clusters ++
      [G0 None None (Some Z_TRAVEL) None; G0 (Some 0%Q) (Some 0%Q) None None; M2]).
End Mixing.

(** * Part II: specification vocabulary *)

(** ** Classification *)

Definition in_range (p : rgb) : Prop :=
  let '(r, g, b) := p in
  (0 <= r <= 255 /\ 0 <= g <= 255 /\ 0 <= b <= 255)%Z.

(** Position of the first occurrence of a colour in a list of names
    (the length of the list if there is none). *)
Fixpoint index_of (c : color) (l : list color) : nat :=
  match l with
  | [] => O
  | c0 :: l' => if decide (c0 = c) then O else S (index_of c l')
  end.

(** [c] is a reference colour nearest to [p], and no reference colour at the
    same distance comes before it in [order]. *)
Definition nearest_first_in (order : list color) (p : rgb) (c : color) : Prop :=
  exists ref, In (c, ref) PALETTE_RGB /\
    forall c' ref', In (c', ref') PALETTE_RGB ->
      (dist2 p ref <= dist2 p ref')%Z /\
      (dist2 p ref' = dist2 p ref -> index_of c order <= index_of c' order).

(** Loop invariant of the scan in [nearest_palette_color]: the running best
    is the first minimum of the items seen so far. *)
Definition scan_inv (p : rgb) (seen : list (color * rgb)) (st : option color * Z) : Prop :=
  match fst st with
  | None => seen = [] /\ snd st = (10 ^ 18)%Z
  | Some c =>
      exists pre ref post, seen = pre ++ (c, ref) :: post /\
        snd st = dist2 p ref /\
        (forall it, In it pre -> (dist2 p ref < dist2 p (snd it))%Z) /\
        (forall it, In it post -> (dist2 p ref <= dist2 p (snd it))%Z)
  end.

(** ** Serpentine traversal *)

(** The cells of row [j], in the order in which the traversal visits them. *)
Definition serp_row (w j : nat) : list (nat * nat) :=
  let row := map (fun i => (i, j)) (seq 0 w) in
  if j mod 2 =? 1 then rev row else row.

(** The cell visited at step [k] of row [j]. *)
Definition serp_cell (w j k : nat) : nat * nat :=
  (if Nat.even j then k else w - 1 - k, j).

(** ** Reading the instruction stream *)

(** A word is present in the text of a line. *)
Definition present {A} (word : option A) : bool :=
  match word with
  | Some _ => true
  | None => false
  end.

(** The Z word of a line, if it has one. *)
Definition z_word (l : line) : option Q :=
  match l with
  | G0 _ _ z _ | G1 _ _ z _ => z
  | _ => None
  end.

(** A line that moves in X or Y. *)
Definition is_xy_move (l : line) : bool :=
  match l with
  | G0 x y _ _ | G1 x y _ _ => present x || present y
  | _ => false
  end.

(** A line is a pure X/Y move, a pure Z move, or no move at all. *)
Definition pure_move (l : line) : bool :=
  negb (is_xy_move l && present (z_word l)).

(** The tracked height after a line: [None] until the first Z move. *)
Definition track_z (z : option Q) (l : line) : option Q :=
  match z_word l with
  | Some z' => Some z'
  | None => z
  end.

Definition end_z (z : option Q) (ls : list line) : option Q :=
  fold_left track_z ls z.

(** The tracked height is known and acceptable for a horizontal move. *)
Definition clear_at (ok : Q -> bool) (z : option Q) : bool :=
  match z with
  | Some zc => ok zc
  | None => false
  end.

(** Scanning the stream from tracked height [z]: every X/Y move finds the
    tool at a height that is [ok]. *)
Fixpoint safe_stream (ok : Q -> bool) (z : option Q) (ls : list line) : bool :=
  match ls with
  | [] => true
  | l :: ls' =>
      (if is_xy_move l then clear_at ok z else true) &&
      safe_stream ok (track_z z l) ls'
  end.

(** The two readings of a clear height: at the safe height or at the travel
    height, and at or above a clearance. *)
Definition safe_or_travel (z : Q) : bool := Qeq_bool z Z_SAFE || Qeq_bool z Z_TRAVEL.

Definition at_or_above (clearance : Q) (z : Q) : bool := Qle_bool clearance z.

(** A block of lines that can follow any clear height: it is safe from
    there, leaves the tool clear, and is made of pure moves. *)
Definition safe_block (ok : Q -> bool) (ls : list line) : Prop :=
  (forall z, clear_at ok z = true ->
     safe_stream ok z ls = true /\ clear_at ok (end_z z ls) = true) /\
  Forall (fun l => pure_move l = true) ls.

(** The colour a comment line is about, if any. *)
Definition remark_color (l : line) : option color :=
  match l with
  | Comment (ColorHeader c _) | Comment (Pickup c) | Comment (Return c)
  | Comment (Dip c) => Some c
  | _ => None
  end.

(** The lines of a colour pass, none of which is the program title, a
    set-up word or the end marker. *)
Definition station_line (l : line) : bool :=
  match l with
  | Comment Title | Comment (GridInfo _ _ _) | G21 | G90 | G94 | M2 => false
  | _ => true
  end.

(** The program around the colour passes. *)
Definition preamble (grid_cols grid_rows : nat) (args : Args) : list line :=
  [Comment Title; Comment (GridInfo grid_cols grid_rows (dot_pitch_mm args));
   G21; G90; G94; G0 None None (Some Z_TRAVEL) None].

Definition postamble : list line :=
  [G0 None None (Some Z_TRAVEL) None; G0 (Some 0%Q) (Some 0%Q) None None; M2].

(** The lines of the end-of-pass cleaning, once the station is looked up. *)
Definition clean_lines (st : Station.t) : list line :=
  move_xy (Station.blot_x st) (Station.blot_y st) ++
  move_z (Station.z_safe st) ++ move_z (Station.blot_z st) ++
  dwell 0.3 ++ move_z (Station.z_safe st).

(** ** Sample inputs *)

Definition sample_args (pal : palette_name) (width height pitch : Q) : Args :=
  {| width_mm := width; height_mm := height; dot_pitch_mm := pitch;
     origin_x := 0; origin_y := 0; margin_mm := 0; palette := pal |}.

(** A resized image that is black on the diagonal and white elsewhere. *)
Definition diagonal_image (cols rows x y : nat) : rgb :=
  if x =? y then (0, 0, 0)%Z else (255, 255, 255)%Z.

(** Colour points where black has one dab and blue has none. *)
Definition sample_points : gmap color (list (nat * nat)) :=
  <[blue := []]> (<[black := [(0, 0)]]> ∅).



(** A store with the two rows of a 2 x 2 plane at 3/4, and the plane. *)
Definition sample_store : gmap nat (list Q) :=
  <[1 := [0.75; 0.75]%Q]> (<[0 := [0.75; 0.75]%Q]> ∅).

Definition sample_plane : list nat := [0; 1].

(** ** Planes *)

(** A plane with at least [h] rows of at least [w] cells. *)
Definition covers (a : list (list Q)) (w h : nat) : Prop :=
  forall y, y < h -> exists row, a !! y = Some row /\ w <= length row.

(** A plane of exactly [h] rows of [w] cells. *)
Definition shaped {A} (w h : nat) (a : list (list A)) : Prop :=
  length a = h /\ Forall (fun row => length row = w) a.

(** ** Error diffusion, as a reference on the integer lattice *)

(** A grid position [(x, y)] and a plane of values over all positions. *)
Definition point : Type := (Z * Z)%type.
Definition field : Type := point -> Q.

Definition in_grid (w h : nat) (c : point) : bool :=
  (0 <=? fst c)%Z && (fst c <? Z.of_nat w)%Z && (0 <=? snd c)%Z && (snd c <? Z.of_nat h)%Z.

(** The neighbours that receive the quantisation error, as offsets, with
    their weights: right, next row left, next row same column, next row
    right. *)
Definition kernel : list (point * Q) :=
  [ ((1, 0)%Z, 7 # 16); ((-1, 1)%Z, 3 # 16); ((0, 1)%Z, 5 # 16); ((1, 1)%Z, 1 # 16) ].

Definition shift (c off : point) : point :=
  (fst c + fst off, snd c + snd off)%Z.

Definition deposit (v : field) (n : point) (q : Q) : field :=
  fun c => if decide (c = n) then (v c + q)%Q else v c.

(** Distribute [err] from [c] to its neighbours inside the grid. *)
Definition diffuse (w h : nat) (v : field) (c : point) (err : Q) : field :=
  fold_left
    (fun v '(off, weight) =>
       if in_grid w h (shift c off) then deposit v (shift c off) (err * weight) else v)
    kernel v.

Definition threshold (q : Q) : Z := if Qle_bool (1 # 2) q then 1%Z else 0%Z.

Record ref_state : Type := {
  values : field;
  output : point -> Z
}.

(** One cell: threshold the current value, diffuse the error. *)
Definition ref_cell (w h : nat) (s : ref_state) (c : point) : ref_state :=
  let b := threshold (values s c) in
  {| values := diffuse w h (values s) c (values s c - inject_Z b);
     output := fun c' => if decide (c' = c) then b else output s c' |}.

(** The cells of a row and of the grid, in row-major order. *)
Definition ref_row (w : nat) (y : nat) : list point :=
  map (fun x => (Z.of_nat x, Z.of_nat y)) (seq 0 w).

Definition ref_cells (w h : nat) : list point :=
  flat_map (ref_row w) (seq 0 h).

Definition ref_init (v : field) : ref_state :=
  {| values := v; output := fun _ => 0%Z |}.

Definition error_diffusion (w h : nat) (v : field) : point -> Z :=
  output (fold_left (ref_cell w h) (ref_cells w h) (ref_init v)).

(** The plane held by a list of rows. *)
Definition field_of (a : list (list Q)) : field :=
  fun c => cell 0%Q a (Z.to_nat (snd c)) (Z.to_nat (fst c)).

(** The code state [(arr, out)] and the reference state agree on the grid. *)
Definition fs_sim (w h : nat) (st : list (list Q) * list (list Z)) (s : ref_state) : Prop :=
  shaped w h (fst st) /\ shaped w h (snd st) /\
  forall x y, x < w -> y < h ->
    (cell 0%Q (fst st) y x == values s (Z.of_nat x, Z.of_nat y))%Q /\
    cell 0%Z (snd st) y x = output s (Z.of_nat x, Z.of_nat y).

(** The values held by the rows agree with a field on the grid. *)
Definition agrees (w h : nat) (a : list (list Q)) (v : field) : Prop :=
  forall x y, x < w -> y < h -> (cell 0%Q a y x == v (Z.of_nat x, Z.of_nat y))%Q.

(** ** Re-dip schedule *)

(** The dabs of one colour in the order of the traversal, in mm. *)
Definition dab_positions (args : Args) (pts serp : list (nat * nat)) : list (Q * Q) :=
  map (fun p => xy_of_pixel args (fst p) (snd p)) (filter (fun p => p ∈ pts) serp).

(** The distance travelled to reach dab [i] from the dab before it; the
    first dab has none. *)
Definition leg (hypot : Q -> Q -> Q) (ps : list (Q * Q)) (i : nat) : Q :=
  match i with
  | O => 0%Q
  | S j =>
      match ps !! j, ps !! i with
      | Some a, Some b => hypot (fst b - fst a)%Q (snd b - snd a)%Q
      | _, _ => 0%Q
      end
  end.

(** [flags] says before which dabs a re-dip is inserted.  The index of the
    last dab below [i] that has a re-dip before it; 0 when there is none,
    the pass starting with a dip. *)
Fixpoint last_redip (flags : list bool) (i : nat) : nat :=
  match i with
  | O => O
  | S j => if nth j flags false then j else last_redip flags j
  end.

(** Dabs made since the last re-dip, on arriving at dab [i]. *)
Definition dabs_since_redip (flags : list bool) (i : nat) : nat :=
  i - last_redip flags i.

Definition Qsum (l : list Q) : Q := fold_right Qplus 0%Q l.

(** Travel summed over the legs after the last re-dip up to dab [i]. *)
Definition travel_since_redip (hypot : Q -> Q -> Q) (ps : list (Q * Q))
    (flags : list bool) (i : nat) : Q :=
  Qsum (map (leg hypot ps) (seq (S (last_redip flags i)) (i - last_redip flags i))).

(** A re-dip is due before dab [i]: the count threshold is reached, or the
    travel threshold is positive and reached. *)
Definition redip_due (hypot : Q -> Q -> Q) (n_dots : nat) (travel_mm : Q)
    (ps : list (Q * Q)) (flags : list bool) (i : nat) : bool :=
  (n_dots <=? dabs_since_redip flags i) ||
  (negb (Qle_bool travel_mm 0) && Qle_bool travel_mm (travel_since_redip hypot ps flags i)).

(** The schedule of the first [n] dabs, each decided from the earlier ones. *)
Fixpoint redip_schedule (hypot : Q -> Q -> Q) (n_dots : nat) (travel_mm : Q)
    (ps : list (Q * Q)) (n : nat) : list bool :=
  match n with
  | O => []
  | S k =>
      let flags := redip_schedule hypot n_dots travel_mm ps k in
      flags ++ [redip_due hypot n_dots travel_mm ps flags k]
  end.

(** The lines of one dab, with the dip block before it when a re-dip is due. *)
Definition dab_lines (dip : list line) (flag : bool) (pos : Q * Q) : list line :=
  (if flag then dip else []) ++ paint_dot (fst pos) (snd pos) DAB_DWELL_S.

(** The loop variables after the first [k] dabs of [ps], for the schedule
    [flags] of these dabs. *)
Definition dab_state_after (hypot : Q -> Q -> Q) (dip : list line) (ps : list (Q * Q))
    (flags : list bool) (k : nat) (s : dab_state) : Prop :=
  lines s = concat (zip_with (dab_lines dip) flags (take k ps)) /\
  dots_since s = dabs_since_redip flags k /\
  (travel_since s ==
   Qsum (map (leg hypot ps) (seq (S (last_redip flags k)) (k - 1 - last_redip flags k))))%Q /\
  last s = match k with O => None | S j => ps !! j end.

(** ** Coverage of a dithered plane *)

Definition Fsum (f : point -> Q) (l : list point) : Q := Qsum (map f l).

(** The weight that the cell [c] sends to the position [n]. *)
Definition weight_to (c n : point) : Q :=
  Qsum (map (fun '(off, weight) => if decide (shift c off = n) then weight else 0%Q)
            kernel).


(** Row-major order on positions. *)
Definition before (a b : point) : Prop :=
  (snd a < snd b \/ (snd a = snd b /\ fst a < fst b))%Z.






(** ** Effects on the store *)

(** From any store that extends [σ0], the computation [m] leads to a store
    that still extends [σ0] (every list object of [σ0] is there with the
    same elements), whether it returns or raises, and a value it returns
    satisfies [post]. *)
Definition keeps {A} (σ0 : gmap nat (list Q)) (m : St A) (post : A -> Prop) : Prop :=
  forall σ r σ', σ0 ⊆ σ -> m σ = (r, σ') ->
    σ0 ⊆ σ' /\ forall a, r = Ok a -> post a.

(** A list object that is not in the store [σ0]. *)
Definition new_in (σ0 : gmap nat (list Q)) (l : nat) : Prop := σ0 !! l = None.

(** The rows referred to by [ls] hold [rows] in the store. *)
Definition holds (σ : gmap nat (list Q)) (ls : list nat) (rows : list (list Q)) : Prop :=
  Forall2 (fun l row => σ !! l = Some row) ls rows.

(** The store holds the state [(arr, out)] of the pass on lists of rows, in
    row objects that are all distinct. *)
Definition st_sim (w h : nat) (σ : gmap nat (list Q)) (arr out : list nat)
    (st : list (list Q) * list (list Z)) : Prop :=
  holds σ arr (fst st) /\ holds σ out (map (map inject_Z) (snd st)) /\
  NoDup (arr ++ out) /\ shaped w h (fst st) /\ shaped w h (snd st).

(** ** Reading the dabs of a stream *)

(** The dabs of a stream, in order: a dab is an X/Y move that is directly
    followed by the descent to the pre-paint height. *)
Fixpoint dab_moves (ls : list line) : list (Q * Q) :=
  match ls with
  | [] => []
  | l :: rest =>
      match l, rest with
      | G0 (Some x) (Some y) _ _, G1 _ _ (Some z) _ :: _ =>
          if Qeq_bool z Z_PREPAINT then (x, y) :: dab_moves rest else dab_moves rest
      | _, _ => dab_moves rest
      end
  end.

(** A block of lines whose dabs are [ds], whatever follows the block. *)
Definition dab_block (ls : list line) (ds : list (Q * Q)) : Prop :=
  forall rest, dab_moves (ls ++ rest) = ds ++ dab_moves rest.

(** The points of a colour, none when the colour has no key. *)
Definition points_of (color_points : gmap color (list (nat * nat))) (c : color)
  : list (nat * nat) :=
  default [] (color_points !! c).

(** ** What the two branches of [main] paint *)

(** The fraction of one ink at each pixel of the resized image. *)
Definition ink_plane (getpixel : nat -> nat -> rgb) (k : cmyk_t -> Q) : field :=
  fun c =>
    match rgb_to_cmyk (getpixel (Z.to_nat (fst c)) (Z.to_nat (snd c))) with
    | Ok v => k v
    | Err _ => 0%Q
    end.

(** The cell [p] is on in the reference dithering of the ink [k]. *)
Definition dithered (getpixel : nat -> nat -> rgb) (cols rows : nat) (k : cmyk_t -> Q)
    (p : nat * nat) : bool :=
  (error_diffusion cols rows (ink_plane getpixel k) (Z.of_nat (fst p), Z.of_nat (snd p))
   =? 1)%Z.

(** The pixel [p] gets a dab of the colour [c]. *)
Definition painted (pal : palette_name) (getpixel : nat -> nat -> rgb) (cols rows : nat)
    (c : color) (p : nat * nat) : bool :=
  match pal with
  | rgb6 => bool_decide (classify_pixel (getpixel (fst p) (snd p)) = Some (Some c))
  | cmyk =>
      match c with
      | cyan => dithered getpixel cols rows (fun k => k.1.1.1) p
      | magenta => dithered getpixel cols rows (fun k => k.1.1.2) p
      | yellow => dithered getpixel cols rows (fun k => k.1.2) p
      | black => dithered getpixel cols rows (fun k => k.2) p
      | _ => false
      end
  end.

(** The dabs of a run, from the resized image: colour by colour in the
    paint order, and within a colour along the serpentine traversal. *)
Definition dabs_of_image (args : Args) (getpixel : nat -> nat -> rgb) (cols rows : nat)
  : list (Q * Q) :=
  flat_map
    (fun c =>
       map (fun p => xy_of_pixel args (fst p) (snd p))
           (filter (fun p => painted (palette args) getpixel cols rows c p = true)
                   (serpentine_indices cols rows)))
    (PALETTES (palette args)).

(** A pixel that asks for no paint: background in rgb6, white in cmyk. *)
Definition blank (pal : palette_name) (px : rgb) : Prop :=
  match pal with
  | rgb6 => is_background px = true
  | cmyk => px = (255, 255, 255)%Z
  end.

(** ** Brush changes and the end of the program *)

(** The lines that mark a colour pass and its brush: the header, the
    pickup and the return. *)
Definition pass_mark (l : line) : option remark :=
  match l with
  | Comment (ColorHeader c n) => Some (ColorHeader c n)
  | Comment (Pickup c) => Some (Pickup c)
  | Comment (Return c) => Some (Return c)
  | _ => None
  end.

Definition pass_marks (ls : list line) : list remark := omap pass_mark ls.

(** The colours of the colour order that have points. *)
Definition used_colors (color_points : gmap color (list (nat * nat)))
    (color_order : list color) : list color :=
  filter (fun c => points_of color_points c <> []) color_order.

(** The X/Y target of a line, and the last target of a stream. *)
Definition xy_word (l : line) : option (Q * Q) :=
  match l with
  | G0 (Some x) (Some y) _ _ | G1 (Some x) (Some y) _ _ => Some (x, y)
  | _ => None
  end.

Definition end_xy (ls : list line) : option (Q * Q) := list.last (omap xy_word ls).

(** ** The motion envelope *)

(** What a line of a run may be: a feed move in Z alone, at the Z feed,
    between the pick height and the safe height; a rapid move in X and Y
    alone; the rapid rise to the travel height; a dwell that is not
    negative; or a line without motion. *)
Definition in_envelope (l : line) : bool :=
  match l with
  | G1 None None (Some z) (Some f) =>
      Qle_bool Z_PICK z && Qle_bool z Z_SAFE && (f =? FEED_Z)%Z
  | G1 _ _ _ _ => false
  | G0 (Some _) (Some _) None _ => true
  | G0 None None (Some z) None => Qeq_bool z Z_TRAVEL
  | G0 _ _ _ _ => false
  | G4 p => Qle_bool 0 p
  | _ => true
  end.

(** The station of the colour of index [i] of a palette. *)
Definition station_at (i : nat) (c : color) : Station.t :=
  {| Station.name := c;
     Station.x := 100 * inject_Z (Z.of_nat i); Station.y := 400;
     Station.z_pick := -5; Station.z_safe := 15;
     Station.dip_x := 100 * inject_Z (Z.of_nat i); Station.dip_y := 400;
     Station.dip_z := -3;
     Station.blot_x := 100 * inject_Z (Z.of_nat i); Station.blot_y := 460;
     Station.blot_z := -2;
     Station.dip_dwell_s := 1; Station.blot_dwell_s := 0.5 |}.

(** Two stations with the same fields, as numbers. *)
Definition station_eq (a b : Station.t) : Prop :=
  Station.name a = Station.name b /\
  (Station.x a == Station.x b /\ Station.y a == Station.y b /\
   Station.z_pick a == Station.z_pick b /\ Station.z_safe a == Station.z_safe b /\
   Station.dip_x a == Station.dip_x b /\ Station.dip_y a == Station.dip_y b /\
   Station.dip_z a == Station.dip_z b /\
   Station.blot_x a == Station.blot_x b /\ Station.blot_y a == Station.blot_y b /\
   Station.blot_z a == Station.blot_z b /\
   Station.dip_dwell_s a == Station.dip_dwell_s b /\
   Station.blot_dwell_s a == Station.blot_dwell_s b)%Q.

(** ** Reading the streams of the test programs *)

Module Motion.
Import Gcode.

Section Lines.
Context {R : Type}.

Definition z_word (l : line R) : option Q :=
  match l with
  | G0 _ _ z _ | G1 _ _ z _ => z
  | _ => None
  end.

Definition is_xy_move (l : line R) : bool :=
  match l with
  | G0 x y _ _ | G1 x y _ _ => present x || present y
  | _ => false
  end.

Definition pure_move (l : line R) : bool :=
  negb (is_xy_move l && present (z_word l)).

Definition track_z (z : option Q) (l : line R) : option Q :=
  match z_word l with
  | Some z' => Some z'
  | None => z
  end.

Definition end_z (z : option Q) (ls : list (line R)) : option Q :=
  fold_left track_z ls z.

(** Every X/Y move of the stream finds the tool at a height that is [ok]. *)
Fixpoint safe_stream (ok : Q -> bool) (z : option Q) (ls : list (line R)) : bool :=
  match ls with
  | [] => true
  | l :: ls' =>
      (if is_xy_move l then clear_at ok z else true) &&
      safe_stream ok (track_z z l) ls'
  end.

Definition safe_block (ok : Q -> bool) (ls : list (line R)) : Prop :=
  (forall z, clear_at ok z = true ->
     safe_stream ok z ls = true /\ clear_at ok (end_z z ls) = true) /\
  Forall (fun l => pure_move l = true) ls.

(** A dot of the stream: the X/Y move that is followed by the descent to
    the pre-paint height [prepaint], with the depth of the next descent
    and the dwell there. *)
Record dot : Type := {
  dot_x : Q; dot_y : Q; dot_z : Q; dot_dwell : Q
}.

Fixpoint dots (prepaint : Q) (ls : list (line R)) : list dot :=
  match ls with
  | [] => []
  | l :: rest =>
      match l, rest with
      | G0 (Some x) (Some y) _ _, G1 _ _ (Some z1) _ :: G1 _ _ (Some z) _ :: G4 p :: _ =>
          if Qeq_bool z1 prepaint
          then {| dot_x := x; dot_y := y; dot_z := z; dot_dwell := p |} :: dots prepaint rest
          else dots prepaint rest
      | _, _ => dots prepaint rest
      end
  end.

(** Two dots with the same numbers. *)
Definition dot_eq (a b : dot) : Prop :=
  (dot_x a == dot_x b /\ dot_y a == dot_y b /\ dot_z a == dot_z b /\
   dot_dwell a == dot_dwell b)%Q.

(** A block of lines whose dots are those of [ds], as numbers, whatever
    follows the block. *)
Definition dot_block (prepaint : Q) (ls : list (line R)) (ds : list dot) : Prop :=
  exists ds', Forall2 dot_eq ds' ds /\
    forall rest, dots prepaint (ls ++ rest) = ds' ++ dots prepaint rest.
End Lines.

(** The tool is at one of two heights. *)
Definition at_one_of (a b : Q) (z : Q) : bool := Qeq_bool z a || Qeq_bool z b.
End Motion.

(** ** The dots of the calibration swatch *)

(** Dot [j] of the colour of index [ci]: a column for each colour, a row
    for each dot, at the paint depth, with a dwell of 50 (j + 1) ms. *)
Definition swatch_dot_at (args : Swatch.Args) (ci j : nat) : Motion.dot :=
  {| Motion.dot_x :=
       Swatch.origin_x args + inject_Z (Z.of_nat ci) * Swatch.dot_pitch_mm args;
     Motion.dot_y :=
       Swatch.origin_y args + inject_Z (Z.of_nat j) * Swatch.dot_pitch_mm args;
     Motion.dot_z := -1;
     Motion.dot_dwell := 50 * inject_Z (Z.of_nat (j + 1)) |}.

Definition swatch_dots (args : Swatch.Args) : list Motion.dot :=
  flat_map (fun ci => map (swatch_dot_at args ci) (seq 0 5))
           (seq 0 (length (Swatch.PALETTES (Swatch.palette args)))).

(** ** The dots of the mixing grid *)

(** The value swept along an axis of [n] clusters, at index [i]: from 0 at
    the first cluster to 1 at the last one, and 0 on an axis of one. *)
Definition sweep_value (i : nat) (n : Z) : Q :=
  if (1 <? n)%Z then (inject_Z (Z.of_nat i) / inject_Z (n - 1))%Q else 0%Q.

(** The depth of the dot of a value: from -0.5 towards -2 at value 1. *)
Definition mix_depth (value : Q) : Q := (- (1 # 2) - (3 # 2) * value)%Q.

Definition mix_dot_at (x y value : Q) : Motion.dot :=
  {| Motion.dot_x := x; Motion.dot_y := y; Motion.dot_z := mix_depth value;
     Motion.dot_dwell := 100 |}.

(** The dots of the cluster at [row] and [col]: the first two vertices
    carry the values swept along the columns and the rows, and have no dot
    where the value is 0; the third vertex has the value 0.5; the centre
    has the value 1 in rgb6 and no dot in cmyk, where its value is 0. *)
Definition mixing_cluster_dots (args : Mixing.Args) (row col : nat) : list Motion.dot :=
  let base_x :=
    (Mixing.origin_x args + inject_Z (Z.of_nat col) * Mixing.dot_pitch_mm args)%Q in
  let base_y :=
    (Mixing.origin_y args + inject_Z (Z.of_nat row) * Mixing.dot_pitch_mm args)%Q in
  let t_x := sweep_value col (Mixing.grid_cols args) in
  let t_y := sweep_value row (Mixing.grid_rows args) in
  (if Qle_bool t_x 0 then [] else [mix_dot_at base_x (base_y - 8) t_x]) ++
  (if Qle_bool t_y 0 then [] else [mix_dot_at (base_x - 6.928) (base_y + 4) t_y]) ++
  [mix_dot_at (base_x + 6.928) (base_y + 4) 0.5] ++
  match Mixing.palette args with
  | rgb6 => [mix_dot_at base_x base_y 1]
  | cmyk => []
  end.

(** The clusters, row by row. *)
Definition mixing_cells (args : Mixing.Args) : list (nat * nat) :=
  row ← Mixing.range (Mixing.grid_rows args);
  col ← Mixing.range (Mixing.grid_cols args);
  [(row, col)].

Definition mixing_dots (args : Mixing.Args) : list Motion.dot :=
  flat_map (fun cell => mixing_cluster_dots args (fst cell) (snd cell)) (mixing_cells args).

(** A 3 x 2 grid of the cmyk palette. *)
Definition sample_mixing : Mixing.Args :=
  {| Mixing.palette := cmyk; Mixing.origin_x := 0; Mixing.origin_y := 0;
     Mixing.dot_pitch_mm := 30; Mixing.grid_cols := 3; Mixing.grid_rows := 2 |}.

(** * Part III: the arithmetic of the program in binary64

    Where a property depends on how the floats of the program round (which
    cells the dithering turns on, where the travel sum reaches its
    threshold, whether the grid size can be computed), the program is
    embedded a second time, its floats being the binary64 numbers of the
    kernel: [+], [-], [*], [/] and the comparisons below are the IEEE 754
    operations that Python's [float] uses, rounding to nearest, ties to
    even.  Integers, colours, the traversal and the rgb6 classification are
    those of Part I.  A motion word carries the float that the source
    formats into the text of the line. *)

Module Binary64.
Import PrimFloat.
#[local] Set Warnings "-inexact-float".

(** ** Numbers *)

(** [float(z)]: the nearest binary64, ties to even.  (Python raises
    [OverflowError] where this gives an infinity, from 2^1024 on, beyond
    every index and channel of a run.) *)
Definition float_of_int (z : Z) : float :=
  FloatOps.SF2Prim (SpecFloat.binary_normalize FloatOps.prec FloatOps.emax z 0 false).

(** Float division: dividing by a zero of either sign raises. *)
Definition py_div (a b : float) : result float :=
  if (b =? 0)%float then Err ZeroDivisionError else Ok (a / b)%float.

(** The integer nearest to [m * 2^e], halves to the even one. *)
Definition round_half_even (m : positive) (e : Z) : Z :=
  match e with
  | Zneg k =>
      let d := (2 ^ Zpos k)%Z in
      let q := (Zpos m / d)%Z in
      match (2 * (Zpos m mod d) ?= d)%Z with
      | Lt => q
      | Gt => (q + 1)%Z
      | Eq => if Z.even q then q else (q + 1)%Z
      end
  | _ => (Zpos m * 2 ^ e)%Z
  end.

(** [round(x)] on a float, without [ndigits]: an [int]; an infinity and a
    NaN cannot be converted. *)
Definition py_round (x : float) : result Z :=
  if is_nan x then Err ValueError
  else if is_infinity x then Err OverflowError
  else
    match FloatOps.Prim2SF x with
    | SpecFloat.S754_finite s m e =>
        let n := round_half_even m e in Ok (if s then (- n)%Z else n)
    | _ => Ok 0%Z
    end.

(** [max(a, b)] and [max(a, b, c)] on floats: a later argument replaces the
    running maximum when it is greater. *)
Definition py_max (a b : float) : float := if (a <? b)%float then b else a.

Definition py_max3 (a b c : float) : float := py_max (py_max a b) c.

(** ** Constants *)

Definition STATION_X0 : float := 0.
Definition STATION_Y0 : float := 400.
Definition STATION_DX : float := 100.
Definition STATION_DY : float := 0.

Definition DIP_OFFSET_X : float := 0.
Definition DIP_OFFSET_Y : float := 0.
Definition DIP_OFFSET_Z : float := -3.

Definition BLOT_OFFSET_X : float := 0.
Definition BLOT_OFFSET_Y : float := 60.
Definition BLOT_OFFSET_Z : float := -2.

Definition Z_PICK : float := -5.
Definition Z_SAFE : float := 15.
Definition Z_TRAVEL : float := 10.
Definition Z_PREPAINT : float := 2.
Definition Z_PAINT : float := -1.

Definition DAB_DWELL_S : float := 0.05.
Definition RE_DIP_AFTER_TRAVEL_MM : float := 180.
Definition TIME_SCALE : float := 1000.

(** ** Stations *)

Module Station.
Record t : Type := mk {
  name : color;
  x : float; y : float;
  z_pick : float; z_safe : float;
  dip_x : float; dip_y : float; dip_z : float;
  blot_x : float; blot_y : float; blot_z : float;
  dip_dwell_s : float; blot_dwell_s : float
}.
End Station.

Definition make_stations (p : palette_name) : gmap color Station.t :=
  let colors := PALETTES p in
  fold_left
    (fun stations '(i, color) =>
       let x := (STATION_X0 + float_of_int (Z.of_nat i) * STATION_DX)%float in
       let y := (STATION_Y0 + float_of_int (Z.of_nat i) * STATION_DY)%float in
       <[color :=
           {| Station.name := color;
              Station.x := x; Station.y := y;
              Station.z_pick := Z_PICK; Station.z_safe := Z_SAFE;
              Station.dip_x := (x + DIP_OFFSET_X)%float;
              Station.dip_y := (y + DIP_OFFSET_Y)%float;
              Station.dip_z := DIP_OFFSET_Z;
              Station.blot_x := (x + BLOT_OFFSET_X)%float;
              Station.blot_y := (y + BLOT_OFFSET_Y)%float;
              Station.blot_z := BLOT_OFFSET_Z;
              Station.dip_dwell_s := 1; Station.blot_dwell_s := 0.5 |}]> stations)
    (enumerate colors) ∅.

(** ** Colour conversion and dithering *)

Definition cmyk_t : Type := (float * float * float * float)%type.

Definition rgb_to_cmyk (p : rgb) : result cmyk_t :=
  let '(r, g, b) := p in
  let R := (float_of_int r / 255)%float in
  let G := (float_of_int g / 255)%float in
  let B := (float_of_int b / 255)%float in
  let K := (1 - py_max3 R G B)%float in
  if (1 <=? K)%float then Ok (0, 0, 0, 1)%float
  else
    C ← py_div (1 - R - K) (1 - K);
    M ← py_div (1 - G - K) (1 - K);
    Y ← py_div (1 - B - K) (1 - K);
    Ok (C, M, Y, K).

(** [a[y][x] += v] *)
Definition add_at (a : list (list float)) (y x : nat) (v : float) : list (list float) :=
  alter (alter (fun c => c + v)%float x) y a.

(** [[[img_chan[y][x] for x in range(w)] for y in range(h)]] *)
Definition copy_plane (img_chan : list (list float)) (w h : nat)
  : result (list (list float)) :=
  mapM (fun y => mapM (fun x => row ← getitem img_chan y; getitem row x) (seq 0 w))
       (seq 0 h).

(** The body of the two nested loops, at row [y] and column [x]. *)
Definition fs_cell (w h : nat) (y : nat) (s : list (list float) * list (list Z)) (x : nat)
  : list (list float) * list (list Z) :=
  let '(arr, out) := s in
  let old := cell 0%float arr y x in
  let new := if (0.5 <=? old)%float then 1%Z else 0%Z in
  let out := set_at out y x new in
  let err := (old - float_of_int new)%float in
  let arr := if x + 1 <? w then add_at arr y (x + 1) (err * 7 / 16) else arr in
  let arr := if (y + 1 <? h) && (0 <? x) then add_at arr (y + 1) (x - 1) (err * 3 / 16) else arr in
  let arr := if y + 1 <? h then add_at arr (y + 1) x (err * 5 / 16) else arr in
  let arr := if (y + 1 <? h) && (x + 1 <? w) then add_at arr (y + 1) (x + 1) (err * 1 / 16) else arr in
  (arr, out).

Definition fs_row (w h : nat) (s : list (list float) * list (list Z)) (y : nat) :=
  fold_left (fs_cell w h y) (seq 0 w) s.

Definition floyd_steinberg_dither_channel (img_chan : list (list float)) (w h : nat)
  : result (list (list Z)) :=
  arr ← copy_plane img_chan w h;
  let out := replicate h (replicate w 0%Z) in
  Ok (snd (fold_left (fs_row w h) (seq 0 h) (arr, out))).

(** ** G-code lines *)

(** A motion line carries the words that are present in its text, each
    with the float that the source formats (three decimals for a
    coordinate, none for a dwell): equal lines are equal texts, while two
    floats that differ may print alike. *)
Inductive remark : Type :=
  | Title                                        (* (Pointillism painting) *)
  | GridInfo (cols rows : nat) (pitch : float)   (* (Grid CxR, pitch P mm) *)
  | ColorHeader (c : color) (n : nat)            (* (=== c n dots ===) *)
  | Pickup (c : color)                           (* (Pickup c) *)
  | Return (c : color)                           (* (Return c) *)
  | Dip (c : color).                             (* (Dip c) *)

Inductive line : Type :=
  | Comment (r : remark)
  | G21 | G90 | G94 | M2
  | G0 (x y z : option float) (f : option Z)
  | G1 (x y z : option float) (f : option Z)
  | G4 (p : float).

Record Args : Type := {
  width_mm : float;
  height_mm : float;
  dot_pitch_mm : float;
  origin_x : float;
  origin_y : float;
  margin_mm : float;
  palette : palette_name
}.

Definition move_xy (x y : float) : list line := [G0 (Some x) (Some y) None (Some FEED_TRAVEL)].
Definition move_z (z : float) : list line := [G1 None None (Some z) (Some FEED_Z)].
Definition dwell (s : float) : list line := [G4 (s * TIME_SCALE)%float].

Definition pickup_lines (color : color) (st : Station.t) : list line :=
  Comment (Pickup color) ::
  move_xy (Station.x st) (Station.y st) ++ move_z (Station.z_safe st) ++
  move_z (Station.z_pick st) ++ dwell 0.3 ++ move_z (Station.z_safe st).

Definition return_lines (color : color) (st : Station.t) : list line :=
  Comment (Return color) ::
  move_xy (Station.x st) (Station.y st) ++ move_z (Station.z_safe st) ++
  move_z (Station.z_pick st) ++ dwell 0.3 ++ move_z (Station.z_safe st).

Definition dip_lines (color : color) (st : Station.t) : list line :=
  Comment (Dip color) ::
  (move_xy (Station.dip_x st) (Station.dip_y st) ++ move_z (Station.z_safe st) ++
   move_z (Station.dip_z st) ++ dwell (Station.dip_dwell_s st) ++
   move_z (Station.z_safe st)) ++
  (move_xy (Station.blot_x st) (Station.blot_y st) ++ move_z (Station.z_safe st) ++
   move_z (Station.blot_z st) ++ dwell (Station.blot_dwell_s st) ++
   move_z (Station.z_safe st)).

Definition pickup_brush (stations : gmap color Station.t) (color : color) : result (list line) :=
  st ← dict_get stations color; Ok (pickup_lines color st).

Definition return_brush (stations : gmap color Station.t) (color : color) : result (list line) :=
  st ← dict_get stations color; Ok (return_lines color st).

Definition dip_brush (stations : gmap color Station.t) (color : color) : result (list line) :=
  st ← dict_get stations color; Ok (dip_lines color st).

Definition paint_dot (x y dwell_time : float) : list line :=
  move_xy x y ++ move_z Z_PREPAINT ++ move_z Z_PAINT ++ dwell dwell_time ++
  move_z Z_TRAVEL.

Definition xy_of_pixel (args : Args) (px py : nat) : float * float :=
  let origin_x := (origin_x args + margin_mm args)%float in
  let origin_y := (origin_y args + margin_mm args)%float in
  ((origin_x + float_of_int (Z.of_nat px) * dot_pitch_mm args)%float,
   (origin_y + float_of_int (Z.of_nat py) * dot_pitch_mm args)%float).

(** The variables of the loop over [serp], with the lines it has appended. *)
Record dab_state : Type := {
  lines : list line;
  dots_since : nat;
  travel_since : float;
  last : option (float * float)
}.

Section Emitter.
(** [math.hypot] is the runtime's; the two re-dip thresholds are the
    module constants [RE_DIP_EVERY_N_DOTS] and [RE_DIP_AFTER_TRAVEL_MM],
    which [main] passes. *)
Variable hypot : float -> float -> float.
Variable every_n_dots : nat.
Variable after_travel_mm : float.

(** What one dab does to the loop variables, at the position [pos] in mm;
    [dip] are the lines of [dip_brush(color)]. *)
Definition dab_at (dip : list line) (s : dab_state) (pos : float * float) : dab_state :=
  let '(x_mm, y_mm) := pos in
  let travel :=
    match last s with
    | Some l => (travel_since s + hypot (x_mm - fst l) (y_mm - snd l))%float
    | None => travel_since s
    end in
  let redip :=
    (every_n_dots <=? dots_since s) ||
    ((0 <? after_travel_mm)%float && (after_travel_mm <=? travel)%float) in
  let lines := if redip then lines s ++ dip else lines s in
  let dots := if redip then O else dots_since s in
  let travel := if redip then 0%float else travel in
  {| lines := lines ++ paint_dot x_mm y_mm DAB_DWELL_S;
     dots_since := S dots;
     travel_since := travel;
     last := Some (x_mm, y_mm) |}.

(** One iteration of [for (px,py) in serp]. *)
Definition dab_step (args : Args) (pts : list (nat * nat)) (dip : list line)
    (s : dab_state) (p : nat * nat) : dab_state :=
  if bool_decide (p ∈ pts) then dab_at dip s (xy_of_pixel args (fst p) (snd p))
  else s.

Definition dab_init : dab_state :=
  {| lines := []; dots_since := O; travel_since := 0%float; last := None |}.

(** One iteration of [for color in color_order]: the lines it appends. *)
Definition color_pass (color_points : gmap color (list (nat * nat)))
    (stations : gmap color Station.t) (args : Args) (serp : list (nat * nat))
    (color : color) : result (list line) :=
  pts ← dict_get color_points color;
  match pts with
  | [] => Ok []
  | _ :: _ =>
      pickup ← pickup_brush stations color;
      dip ← dip_brush stations color;
      let s := fold_left (dab_step args pts dip) serp dab_init in
      clean ← (if CLEAN_AT_END then
                 st ← dict_get stations color;
                 Ok (move_xy (Station.blot_x st) (Station.blot_y st) ++
                     move_z (Station.z_safe st) ++ move_z (Station.blot_z st) ++
                     dwell 0.3 ++ move_z (Station.z_safe st))
               else Ok []);
      ret ← return_brush stations color;
      Ok (Comment (ColorHeader color (length pts)) ::
          pickup ++ dip ++ lines s ++ clean ++ ret)
  end.

Definition gen_gcode (color_points : gmap color (list (nat * nat)))
    (color_order : list color) (grid_cols grid_rows : nat)
    (stations : gmap color Station.t) (args : Args) : result (list line) :=
  let serp := serpentine_indices grid_cols grid_rows in
  passes ← mapM (color_pass color_points stations args serp) color_order;
  Ok ([Comment Title; Comment (GridInfo grid_cols grid_rows (dot_pitch_mm args));
       G21; G90; G94; G0 None None (Some Z_TRAVEL) None] ++
      concat passes ++
      [G0 None None (Some Z_TRAVEL) None; G0 (Some 0%float) (Some 0%float) None None; M2]).
End Emitter.

(** ** Main *)

(** [max(1, int(round(usable / pitch)))] *)
Definition grid_size (usable pitch : float) : result nat :=
  q ← py_div usable pitch;
  n ← py_round q;
  Ok (Z.to_nat (Z.max 1 n)).

Definition cmyk_points (getpixel : nat -> nat -> rgb) (grid_cols grid_rows : nat)
  : result (gmap color (list (nat * nat))) :=
  inks ← mapM (fun y => mapM (fun x => rgb_to_cmyk (getpixel x y)) (seq 0 grid_cols))
              (seq 0 grid_rows);
  let Cchan := map (map (fun k : cmyk_t => k.1.1.1)) inks in
  let Mchan := map (map (fun k : cmyk_t => k.1.1.2)) inks in
  let Ychan := map (map (fun k : cmyk_t => k.1.2)) inks in
  let Kchan := map (map (fun k : cmyk_t => k.2)) inks in
  Cd ← floyd_steinberg_dither_channel Cchan grid_cols grid_rows;
  Md ← floyd_steinberg_dither_channel Mchan grid_cols grid_rows;
  Yd ← floyd_steinberg_dither_channel Ychan grid_cols grid_rows;
  Kd ← floyd_steinberg_dither_channel Kchan grid_cols grid_rows;
  Ok (<[black := ones_of Kd grid_cols grid_rows]>
      (<[yellow := ones_of Yd grid_cols grid_rows]>
       (<[magenta := ones_of Md grid_cols grid_rows]>
        (<[cyan := ones_of Cd grid_cols grid_rows]> ∅)))).

(** [main], after argument parsing and up to the write of the output file:
    [resize cols rows] is the resized image, read with [getpixel]. *)
Definition main (hypot : float -> float -> float) (args : Args)
    (resize : nat -> nat -> nat -> nat -> rgb) : result (list line) :=
  let usable_w := py_max 0 (width_mm args - 2 * margin_mm args) in
  let usable_h := py_max 0 (height_mm args - 2 * margin_mm args) in
  grid_cols ← grid_size usable_w (dot_pitch_mm args);
  grid_rows ← grid_size usable_h (dot_pitch_mm args);
  let im_resized := resize grid_cols grid_rows in
  let stations := make_stations (palette args) in
  match palette args with
  | rgb6 =>
      color_points ← rgb6_points im_resized grid_cols grid_rows;
      gen_gcode hypot RE_DIP_EVERY_N_DOTS RE_DIP_AFTER_TRAVEL_MM
        color_points COLOR_ORDER_RGB6 grid_cols grid_rows stations args
  | cmyk =>
      color_points ← cmyk_points im_resized grid_cols grid_rows;
      gen_gcode hypot RE_DIP_EVERY_N_DOTS RE_DIP_AFTER_TRAVEL_MM
        color_points COLOR_ORDER_CMYK grid_cols grid_rows stations args
  end.

(** An executable stand-in for [math.hypot], exact on the legs that are
    parallel to an axis. *)
Definition hypot_axis (dx dy : float) : float :=
  if (dy =? 0)%float then abs dx
  else if (dx =? 0)%float then abs dy
  else sqrt (dx * dx + dy * dy).

(** ** Specification vocabulary *)

(** *** Re-dip schedule *)

(** The dabs of one colour in the order of the traversal, in mm. *)
Definition dab_positions (args : Args) (pts serp : list (nat * nat))
  : list (float * float) :=
  map (fun p => xy_of_pixel args (fst p) (snd p)) (filter (fun p => p ∈ pts) serp).

(** The distance travelled to reach dab [i] from the dab before it; the
    first dab has none. *)
Definition leg (hypot : float -> float -> float) (ps : list (float * float)) (i : nat)
  : float :=
  match i with
  | O => 0%float
  | S j =>
      match ps !! j, ps !! i with
      | Some a, Some b => hypot (fst b - fst a)%float (snd b - snd a)%float
      | _, _ => 0%float
      end
  end.

(** A running sum from 0.0, each addition rounded. *)
Definition fsum (l : list float) : float := fold_left PrimFloat.add l 0%float.

(** Travel summed, leg after leg, over the legs after the last re-dip up to
    dab [i]. *)
Definition travel_since_redip (hypot : float -> float -> float)
    (ps : list (float * float)) (flags : list bool) (i : nat) : float :=
  fsum (map (leg hypot ps) (seq (S (last_redip flags i)) (i - last_redip flags i))).

(** A re-dip is due before dab [i]: the count threshold is reached, or the
    travel threshold is positive and reached. *)
Definition redip_due (hypot : float -> float -> float) (n_dots : nat) (travel_mm : float)
    (ps : list (float * float)) (flags : list bool) (i : nat) : bool :=
  (n_dots <=? dabs_since_redip flags i) ||
  ((0 <? travel_mm)%float && (travel_mm <=? travel_since_redip hypot ps flags i)%float).

(** The schedule of the first [n] dabs, each decided from the earlier ones. *)
Fixpoint redip_schedule (hypot : float -> float -> float) (n_dots : nat)
    (travel_mm : float) (ps : list (float * float)) (n : nat) : list bool :=
  match n with
  | O => []
  | S k =>
      let flags := redip_schedule hypot n_dots travel_mm ps k in
      flags ++ [redip_due hypot n_dots travel_mm ps flags k]
  end.

(** The lines of one dab, with the dip block before it when a re-dip is due. *)
Definition dab_lines (dip : list line) (flag : bool) (pos : float * float) : list line :=
  (if flag then dip else []) ++ paint_dot (fst pos) (snd pos) DAB_DWELL_S.

(** The lines of the end-of-pass cleaning, once the station is looked up. *)
Definition clean_lines (st : Station.t) : list line :=
  move_xy (Station.blot_x st) (Station.blot_y st) ++
  move_z (Station.z_safe st) ++ move_z (Station.blot_z st) ++
  dwell 0.3 ++ move_z (Station.z_safe st).

(** The pass of a colour that has the points [pts] and the station [st],
    its re-dips placed by the schedule. *)
Definition scheduled_pass (hypot : float -> float -> float) (n_dots : nat)
    (travel_mm : float) (args : Args) (serp : list (nat * nat)) (color : color)
    (pts : list (nat * nat)) (st : Station.t) : list line :=
  let ps := dab_positions args pts serp in
  let flags := redip_schedule hypot n_dots travel_mm ps (length ps) in
  Comment (ColorHeader color (length pts)) ::
  pickup_lines color st ++ dip_lines color st ++
  concat (zip_with (dab_lines (dip_lines color st)) flags ps) ++
  clean_lines st ++ return_lines color st.

(** The pass of a colour in a run: nothing when the colour has no points. *)
Definition pass_of (hypot : float -> float -> float) (n_dots : nat) (travel_mm : float)
    (color_points : gmap color (list (nat * nat))) (stations : gmap color Station.t)
    (args : Args) (serp : list (nat * nat)) (color : color) : list line :=
  match color_points !! color, stations !! color with
  | Some (p :: pts), Some st =>
      scheduled_pass hypot n_dots travel_mm args serp color (p :: pts) st
  | _, _ => []
  end.

(** The loop variables after the first [k] dabs of [ps], for the schedule
    [flags] of these dabs. *)
Definition dab_state_after (hypot : float -> float -> float) (dip : list line)
    (ps : list (float * float)) (flags : list bool) (k : nat) (s : dab_state) : Prop :=
  lines s = concat (zip_with (dab_lines dip) flags (take k ps)) /\
  dots_since s = dabs_since_redip flags k /\
  travel_since s
  = fsum (map (leg hypot ps) (seq (S (last_redip flags k)) (k - 1 - last_redip flags k))) /\
  last s = match k with O => None | S j => ps !! j end.

(** The program around the colour passes. *)
Definition preamble (grid_cols grid_rows : nat) (args : Args) : list line :=
  [Comment Title; Comment (GridInfo grid_cols grid_rows (dot_pitch_mm args));
   G21; G90; G94; G0 None None (Some Z_TRAVEL) None].

Definition postamble : list line :=
  [G0 None None (Some Z_TRAVEL) None; G0 (Some 0%float) (Some 0%float) None None; M2].

(** *** Error diffusion, as a reference on the integer lattice *)

(** A plane with at least [h] rows of at least [w] cells. *)
Definition covers (a : list (list float)) (w h : nat) : Prop :=
  forall y, y < h -> exists row, a !! y = Some row /\ w <= length row.

Definition field : Type := point -> float.

(** The neighbours that receive the quantisation error, as offsets, with
    the sixteenths each one gets: right, next row left, next row same
    column, next row right. *)
Definition kernel : list (point * float) :=
  [ ((1, 0)%Z, 7%float); ((-1, 1)%Z, 3%float); ((0, 1)%Z, 5%float); ((1, 1)%Z, 1%float) ].

(** The part of [err] that a neighbour of weight [k/16] receives, computed
    as the program does: the product by [k], then the quotient by 16. *)
Definition share (err k : float) : float := (err * k / 16)%float.

Definition deposit (v : field) (n : point) (q : float) : field :=
  fun c => if decide (c = n) then (v c + q)%float else v c.

(** Distribute [err] from [c] to its neighbours inside the grid. *)
Definition diffuse (w h : nat) (v : field) (c : point) (err : float) : field :=
  fold_left
    (fun v '(off, k) =>
       if in_grid w h (shift c off) then deposit v (shift c off) (share err k) else v)
    kernel v.

Definition threshold (q : float) : Z := if (0.5 <=? q)%float then 1%Z else 0%Z.

Record ref_state : Type := {
  values : field;
  output : point -> Z
}.

(** One cell: threshold the current value, diffuse the error. *)
Definition ref_cell (w h : nat) (s : ref_state) (c : point) : ref_state :=
  let b := threshold (values s c) in
  {| values := diffuse w h (values s) c (values s c - float_of_int b);
     output := fun c' => if decide (c' = c) then b else output s c' |}.

Definition ref_init (v : field) : ref_state :=
  {| values := v; output := fun _ => 0%Z |}.

Definition error_diffusion (w h : nat) (v : field) : point -> Z :=
  output (fold_left (ref_cell w h) (ref_cells w h) (ref_init v)).

(** The plane held by a list of rows. *)
Definition field_of (a : list (list float)) : field :=
  fun c => cell 0%float a (Z.to_nat (snd c)) (Z.to_nat (fst c)).

(** The code state [(arr, out)] and the reference state agree on the grid. *)
Definition fs_sim (w h : nat) (st : list (list float) * list (list Z)) (s : ref_state)
  : Prop :=
  shaped w h (fst st) /\ shaped w h (snd st) /\
  forall x y, x < w -> y < h ->
    cell 0%float (fst st) y x = values s (Z.of_nat x, Z.of_nat y) /\
    cell 0%Z (snd st) y x = output s (Z.of_nat x, Z.of_nat y).

(** The values held by the rows agree with a field on the grid. *)
Definition agrees (w h : nat) (a : list (list float)) (v : field) : Prop :=
  forall x y, x < w -> y < h -> cell 0%float a y x = v (Z.of_nat x, Z.of_nat y).

(** *** The inks of a channel *)

(** The fraction of a channel, and the black that is left when the channel
    is the greatest of its pixel. *)
Definition channel (v : Z) : float := (float_of_int v / 255)%float.

Definition black_of (v : Z) : float := (1 - channel v)%float.

(** *** Reading the dabs of a stream *)

(** The dabs of a stream, in order: a dab is an X/Y move that is directly
    followed by the descent to the pre-paint height. *)
Fixpoint dab_moves (ls : list line) : list (float * float) :=
  match ls with
  | [] => []
  | l :: rest =>
      match l, rest with
      | G0 (Some x) (Some y) _ _, G1 _ _ (Some z) _ :: _ =>
          if (z =? Z_PREPAINT)%float then (x, y) :: dab_moves rest else dab_moves rest
      | _, _ => dab_moves rest
      end
  end.

(** A block of lines whose dabs are [ds], whatever follows the block. *)
Definition dab_block (ls : list line) (ds : list (float * float)) : Prop :=
  forall rest, dab_moves (ls ++ rest) = ds ++ dab_moves rest.

(** *** What the two branches of [main] paint *)

(** The fraction of one ink at each pixel of the resized image. *)
Definition ink_plane (getpixel : nat -> nat -> rgb) (k : cmyk_t -> float) : field :=
  fun c =>
    match rgb_to_cmyk (getpixel (Z.to_nat (fst c)) (Z.to_nat (snd c))) with
    | Ok v => k v
    | Err _ => 0%float
    end.

(** The cell [p] is on in the reference dithering of the ink [k]. *)
Definition dithered (getpixel : nat -> nat -> rgb) (cols rows : nat) (k : cmyk_t -> float)
    (p : nat * nat) : bool :=
  (error_diffusion cols rows (ink_plane getpixel k) (Z.of_nat (fst p), Z.of_nat (snd p))
   =? 1)%Z.

(** The pixel [p] gets a dab of the colour [c]. *)
Definition painted (pal : palette_name) (getpixel : nat -> nat -> rgb) (cols rows : nat)
    (c : color) (p : nat * nat) : bool :=
  match pal with
  | rgb6 => bool_decide (classify_pixel (getpixel (fst p) (snd p)) = Some (Some c))
  | cmyk =>
      match c with
      | cyan => dithered getpixel cols rows (fun k => k.1.1.1) p
      | magenta => dithered getpixel cols rows (fun k => k.1.1.2) p
      | yellow => dithered getpixel cols rows (fun k => k.1.2) p
      | black => dithered getpixel cols rows (fun k => k.2) p
      | _ => false
      end
  end.

(** The cells that get a dab of the colour [c], along the traversal. *)
Definition cells_of_color (pal : palette_name) (getpixel : nat -> nat -> rgb)
    (cols rows : nat) (c : color) : list (nat * nat) :=
  filter (fun p => painted pal getpixel cols rows c p = true)
         (serpentine_indices cols rows).

(** The dabs of a run, from the resized image: colour by colour in the
    paint order, and within a colour along the serpentine traversal. *)
Definition dabs_of_image (args : Args) (getpixel : nat -> nat -> rgb) (cols rows : nat)
  : list (float * float) :=
  flat_map
    (fun c =>
       map (fun p => xy_of_pixel args (fst p) (snd p))
           (cells_of_color (palette args) getpixel cols rows c))
    (PALETTES (palette args)).

(** *** Sample inputs *)

Definition sample_args (pal : palette_name) (width height pitch : float) : Args :=
  {| width_mm := width; height_mm := height; dot_pitch_mm := pitch;
     origin_x := 0; origin_y := 0; margin_mm := 0; palette := pal |}.

(** One row of 105 cells, 3.6 mm apart, starting at 0.1 mm. *)
Definition long_row_args : Args :=
  {| width_mm := 378; height_mm := 3.6; dot_pitch_mm := 3.6;
     origin_x := 0.1; origin_y := 0; margin_mm := 0; palette := rgb6 |}.

(** A resized image of one colour. *)
Definition plain_image (px : rgb) (cols rows x y : nat) : rgb := px.

End Binary64.

(** * Part III: properties *)

(** ** Nearest-colour classification *)

Section NearestLoop.
Variable p : rgb.

Lemma scan_inv_step seen st it :
  (dist2 p (snd it) < 10 ^ 18)%Z ->
  scan_inv p seen st -> scan_inv p (seen ++ [it]) (nearest_step p st it).
Proof.
  destruct st as [best bd], it as [name ref]; simpl.
  intros Hlt Hinv. unfold scan_inv in *; simpl in *.
  destruct (Z.ltb_spec (dist2 p ref) bd) as [Hd|Hd]; simpl.
  - destruct best as [c|].
    + destruct Hinv as (pre & r0 & post & -> & -> & Hpre & Hpost).
      exists (pre ++ (c, r0) :: post), ref, []. split; [done|].
      split; [done|]. split; [|intros ? []].
      intros it Hin. apply in_app_or in Hin as [Hin|[<-|Hin]]; simpl.
      * specialize (Hpre _ Hin). lia.
      * lia.
      * specialize (Hpost _ Hin). lia.
    + destruct Hinv as [-> _]. exists [], ref, []. simpl.
      repeat split; try done; intros ? [].
  - destruct best as [c|].
    + destruct Hinv as (pre & r0 & post & -> & -> & Hpre & Hpost).
      exists pre, r0, (post ++ [(name, ref)]).
      rewrite <- app_assoc. simpl. repeat split; try done.
      intros it Hin. apply in_app_or in Hin as [Hin|[<-|[]]]; simpl; auto.
    + destruct Hinv as [_ ->]. lia.
Qed.

Lemma scan_inv_fold items seen st :
  (forall it, In it items -> (dist2 p (snd it) < 10 ^ 18)%Z) ->
  scan_inv p seen st ->
  scan_inv p (seen ++ items) (fold_left (nearest_step p) items st).
Proof.
  revert seen st. induction items as [|it items IH]; intros seen st Hb Hinv; simpl.
  - by rewrite app_nil_r.
  - replace (seen ++ it :: items) with ((seen ++ [it]) ++ items)
      by (by rewrite <- app_assoc).
    apply IH; [intros; apply Hb; by right|].
    apply scan_inv_step; [apply Hb; by left|done].
Qed.
End NearestLoop.

Lemma dist2_bound p q :
  in_range p -> in_range q -> (0 <= dist2 p q <= 195075)%Z.
Proof.
  destruct p as [[r g] b], q as [[R G] B]. unfold in_range, dist2. nia.
Qed.

Lemma PALETTE_RGB_in_range it : In it PALETTE_RGB -> in_range (snd it).
Proof.
  unfold PALETTE_RGB. simpl.
  intros H; repeat (destruct H as [<-|H]; [simpl; lia|]); destruct H.
Qed.

Lemma index_of_app_le c pre post :
  index_of c (pre ++ c :: post) <= length pre.
Proof.
  induction pre as [|a pre IH]; simpl.
  - destruct (decide (c = c)); [lia|done].
  - destruct (decide (a = c)); lia.
Qed.

Lemma index_of_app_ge c pre l :
  ~ In c pre -> length pre <= index_of c (pre ++ l).
Proof.
  induction pre as [|a pre IH]; simpl; [lia|].
  intros Hn. destruct (decide (a = c)) as [->|]; [tauto|].
  assert (length pre <= index_of c (pre ++ l)) by tauto. lia.
Qed.

Lemma PALETTE_RGB_keys_NoDup : NoDup (map fst PALETTE_RGB).
Proof.
  apply (bool_decide_unpack (NoDup (map fst PALETTE_RGB))). by vm_compute.
Qed.

(** On colours in range the scan returns the first nearest reference
    colour in the order of the table. *)
Lemma nearest_palette_color_first p :
  in_range p ->
  exists c, nearest_palette_color p = Some c /\
            nearest_first_in (map fst PALETTE_RGB) p c.
Proof.
  intros Hp.
  assert (Hb : forall it, In it PALETTE_RGB -> (dist2 p (snd it) < 10 ^ 18)%Z).
  { intros it Hin. pose proof (dist2_bound p (snd it) Hp (PALETTE_RGB_in_range _ Hin)).
    lia. }
  pose proof (scan_inv_fold p PALETTE_RGB [] (None, (10 ^ 18)%Z) Hb) as Hinv.
  unfold nearest_palette_color, nearest_in.
  set (fin := fold_left (nearest_step p) PALETTE_RGB (None, (10 ^ 18)%Z)) in *.
  specialize (Hinv (conj eq_refl eq_refl)). simpl app in Hinv.
  unfold scan_inv in Hinv. destruct (fst fin) as [c|]; [|by destruct Hinv].
  destruct Hinv as (pre & ref & post & Heq & _ & Hpre & Hpost).
  exists c. split; [done|]. exists ref. split.
  { rewrite Heq. apply in_or_app. right. by left. }
  intros c' ref' Hin. rewrite Heq in Hin.
  pose proof PALETTE_RGB_keys_NoDup as Hnd. rewrite Heq in Hnd.
  rewrite map_app in Hnd. simpl in Hnd.
  apply NoDup_app in Hnd as (_ & Hdisj & Hnd2).
  apply NoDup_cons in Hnd2 as [Hc _].
  rewrite Heq, map_app. simpl.
  apply in_app_or in Hin as [Hin|[Hin|Hin]].
  - specialize (Hpre _ Hin). simpl in Hpre. split; [lia|]. intros; lia.
  - inversion Hin; subst. split; [lia|]. intros _. lia.
  - specialize (Hpost _ Hin). simpl in Hpost. split; [lia|]. intros _.
    etrans; [apply index_of_app_le|]. apply index_of_app_ge.
    intros Hpre'. apply (Hdisj c').
    + by apply list_elem_of_In.
    + right. apply list_elem_of_In, in_map_iff. by exists (c', ref').
Qed.

(** C2, as stated, fails: (0,138,144) is not background and is equally near
    to green and to blue; the scan answers green, which comes after blue in
    the paint order black, blue, red, green, yellow, white. *)
Lemma classify_tie_paint_order_counterexample :
  in_range (0, 138, 144)%Z /\ is_background (0, 138, 144)%Z = false /\
  ~ exists c, classify_pixel (0, 138, 144)%Z = Some (Some c) /\
              nearest_first_in COLOR_ORDER_RGB6 (0, 138, 144)%Z c.
Proof.
  split; [simpl; lia|]. split; [reflexivity|].
  intros (c & Hc & ref & Hin & Hmin).
  vm_compute in Hc. injection Hc as <-.
  assert (ref = (34, 139, 34)%Z) as ->.
  { unfold PALETTE_RGB in Hin. simpl in Hin.
    repeat (destruct Hin as [Hin|Hin]; [congruence|]). destruct Hin. }
  destruct (Hmin blue (30, 144, 255)%Z) as [_ Hord].
  { unfold PALETTE_RGB. simpl. tauto. }
  specialize (Hord eq_refl). vm_compute in Hord. lia.
Qed.

(** C2, amended: in rgb6 mode every colour in range that is not background
    is given exactly one palette colour, a nearest one in squared Euclidean
    distance among the six reference colours; among several nearest ones it
    is the first in the order of the reference table: red, green, blue,
    yellow, black, white. *)
Theorem classify_nearest_first_in_table (p : rgb) :
  in_range p -> is_background p = false ->
  exists c, classify_pixel p = Some (Some c) /\
            In c COLOR_ORDER_RGB6 /\
            nearest_first_in [red; green; blue; yellow; black; white] p c.
Proof.
  intros Hp Hbg. destruct (nearest_palette_color_first p Hp) as (c & Hc & Hn).
  exists c. unfold classify_pixel. rewrite Hbg, Hc. split; [done|]. split; [|exact Hn].
  destruct Hn as (ref & Hin & _). unfold PALETTE_RGB in Hin. simpl in Hin.
  unfold COLOR_ORDER_RGB6.
  repeat (destruct Hin as [Hin|Hin]; [injection Hin as <- _; simpl; tauto|]). destruct Hin.
Qed.

Lemma classify_nearest_first_in_table_witness :
  exists c, classify_pixel (0, 138, 144)%Z = Some (Some c) /\
            In c COLOR_ORDER_RGB6 /\
            nearest_first_in [red; green; blue; yellow; black; white] (0, 138, 144)%Z c.
Proof.
  apply (classify_nearest_first_in_table (0, 138, 144)%Z).
  - simpl; lia.
  - reflexivity.
Defined.

(** ** Serpentine traversal *)

Lemma fold_left_extend {A B} (f : B -> list A) (js : list B) (acc : list A) :
  fold_left (fun order j => order ++ f j) js acc = acc ++ flat_map f js.
Proof.
  revert acc. induction js as [|j js IH]; intros acc; simpl.
  - by rewrite app_nil_r.
  - rewrite IH. by rewrite <- app_assoc.
Qed.

Lemma serpentine_indices_rows w h :
  serpentine_indices w h = flat_map (serp_row w) (seq 0 h).
Proof.
  exact (fold_left_extend (serp_row w) (seq 0 h) []).
Qed.

Lemma serp_row_length w j : length (serp_row w j) = w.
Proof.
  unfold serp_row. destruct (j mod 2 =? 1);
    rewrite ?length_rev, length_map, length_seq; done.
Qed.

Lemma mod2_even j : (j mod 2 =? 1) = negb (Nat.even j).
Proof.
  rewrite <- Nat.negb_odd, negb_involutive.
  pose proof (Nat.mod_upper_bound j 2). 
  destruct (Nat.odd j) eqn:Ho.
  - apply Nat.odd_spec in Ho as [m ->].
    replace (2 * m + 1) with (1 + m * 2) by lia.
    by rewrite Nat.Div0.mod_add.
  - apply Nat.eqb_neq. intros Hm.
    assert (Nat.odd j = true); [|congruence].
    apply Nat.odd_spec. exists (j / 2).
    pose proof (Nat.div_mod_eq j 2). lia.
Qed.

Lemma rev_is_reverse {A} (l : list A) : rev l = reverse l.
Proof. apply rev_alt. Qed.

Lemma serp_row_lookup w j k :
  k < w -> serp_row w j !! k = Some (serp_cell w j k).
Proof.
  intros Hk. unfold serp_row, serp_cell. rewrite mod2_even.
  destruct (Nat.even j); simpl.
  - rewrite list_lookup_fmap, lookup_seq_lt by done. done.
  - rewrite rev_is_reverse, reverse_lookup by (by rewrite length_map, length_seq).
    rewrite length_map, length_seq, list_lookup_fmap, lookup_seq_lt by lia.
    simpl. do 2 f_equal. lia.
Qed.

Lemma flat_map_lookup_uniform {A B} (f : A -> list B) (l : list A) w j k a :
  (forall x, length (f x) = w) -> k < w -> l !! j = Some a ->
  flat_map f l !! (j * w + k) = f a !! k.
Proof.
  intros Hlen Hk. revert j. induction l as [|x l IH]; intros j Hj; [done|].
  simpl. destruct j as [|j]; simpl in *.
  - injection Hj as ->. rewrite lookup_app_l by (rewrite Hlen; lia). done.
  - rewrite lookup_app_r by (rewrite Hlen; lia).
    rewrite Hlen. replace (w + j * w + k - w) with (j * w + k) by lia. auto.
Qed.

Lemma serpentine_indices_lookup w h j k :
  j < h -> k < w ->
  serpentine_indices w h !! (j * w + k) = Some (serp_cell w j k).
Proof.
  intros Hj Hk. rewrite serpentine_indices_rows.
  rewrite (flat_map_lookup_uniform (serp_row w) (seq 0 h) w j k j).
  - by apply serp_row_lookup.
  - apply serp_row_length.
  - done.
  - by rewrite lookup_seq_lt.
Qed.

Lemma serpentine_indices_length w h : length (serpentine_indices w h) = w * h.
Proof.
  rewrite serpentine_indices_rows.
  rewrite (flat_map_constant_length (c := w)), length_seq; [lia|].
  intros; apply serp_row_length.
Qed.

Lemma serp_cell_inj w j k j' k' :
  k < w -> k' < w -> serp_cell w j k = serp_cell w j' k' -> j = j' /\ k = k'.
Proof.
  unfold serp_cell. intros Hk Hk' Heq. injection Heq as Hc ->.
  split; [done|]. destruct (Nat.even j'); lia.
Qed.

Lemma serpentine_indices_elem w h i j :
  (i, j) ∈ serpentine_indices w h <-> i < w /\ j < h.
Proof.
  rewrite serpentine_indices_rows, list_elem_of_In, in_flat_map.
  split.
  - intros (j' & Hj' & Hin). apply in_seq in Hj'. unfold serp_row in Hin.
    assert (In (i, j) (map (fun i0 => (i0, j')) (seq 0 w))) as Hin'.
    { destruct (j' mod 2 =? 1); [by apply in_rev in Hin|done]. }
    apply in_map_iff in Hin' as (i' & Heq & Hi'). apply in_seq in Hi'.
    injection Heq as -> ->. lia.
  - intros [Hi Hj]. exists j. split; [apply in_seq; lia|].
    unfold serp_row.
    assert (In (i, j) (map (fun i0 => (i0, j)) (seq 0 w))) as Hin'.
    { apply in_map_iff. exists i. split; [done|]. apply in_seq; lia. }
    destruct (j mod 2 =? 1); [by apply in_rev; rewrite rev_involutive|done].
Qed.

(** C9: the serpentine traversal of a [w] x [h] grid has [w * h] steps; step
    [j * w + k] (row [j], [k]-th cell of the row) is the cell of row [j] in
    column [k] when [j] is even and in column [w - 1 - k] when [j] is odd, so
    rows come in increasing index, columns ascend within even rows and
    descend within odd rows; no cell is visited twice and the cells visited
    are exactly those of the grid. *)
Theorem serpentine_indices_visits_each_cell_once (w h : nat) :
  length (serpentine_indices w h) = w * h /\
  (forall j k, j < h -> k < w ->
     serpentine_indices w h !! (j * w + k)
     = Some (if Nat.even j then k else w - 1 - k, j)) /\
  NoDup (serpentine_indices w h) /\
  (forall i j, (i, j) ∈ serpentine_indices w h <-> i < w /\ j < h).
Proof.
  split; [apply serpentine_indices_length|].
  split; [apply serpentine_indices_lookup|].
  split; [|apply serpentine_indices_elem].
  apply NoDup_alt. intros n m c Hn Hm.
  assert (Hnl : n < w * h).
  { rewrite <- serpentine_indices_length. by eapply lookup_lt_Some. }
  assert (Hml : m < w * h).
  { rewrite <- serpentine_indices_length. by eapply lookup_lt_Some. }
  assert (Hw : 0 < w) by nia.
  pose proof (Nat.div_mod_eq n w) as Hdn. pose proof (Nat.div_mod_eq m w) as Hdm.
  pose proof (Nat.mod_upper_bound n w ltac:(lia)) as Hbn.
  pose proof (Nat.mod_upper_bound m w ltac:(lia)) as Hbm.
  assert (n / w < h) by (apply Nat.Div0.div_lt_upper_bound; lia).
  assert (m / w < h) by (apply Nat.Div0.div_lt_upper_bound; lia).
  replace n with (n / w * w + n mod w) in Hn by lia.
  replace m with (m / w * w + m mod w) in Hm by lia.
  rewrite serpentine_indices_lookup in Hn, Hm by done.
  injection Hn as Hn. injection Hm as Hm. rewrite <- Hm in Hn.
  apply serp_cell_inj in Hn as [Hj Hk]; [|done..].
  rewrite Hdn, Hdm, Hj, Hk. done.
Qed.

(** ** Subtractive conversion *)

Lemma py_div_ok a b : ~ (b == 0)%Q -> py_div a b = Ok (a / b)%Q.
Proof.
  intros Hb. unfold py_div. destruct (Qeq_bool b 0) eqn:E; [|done].
  by apply Qeq_bool_iff in E.
Qed.

Lemma Qdiv_unit_interval a d :
  (0 < d)%Q -> (0 <= a <= d)%Q -> (0 <= a / d <= 1)%Q.
Proof.
  intros Hd [Ha Had]. split.
  - apply Qle_shift_div_l; [done|]. lra.
  - apply Qle_shift_div_r; [done|]. lra.
Qed.

Lemma Qmax3_spec a b c :
  (a <= Qmax (Qmax a b) c /\ b <= Qmax (Qmax a b) c /\ c <= Qmax (Qmax a b) c /\
   (Qmax (Qmax a b) c == a \/ Qmax (Qmax a b) c == b \/ Qmax (Qmax a b) c == c))%Q.
Proof.
  destruct (Q.max_spec a b) as [[? E1]|[? E1]];
  destruct (Q.max_spec (Qmax a b) c) as [[H0 E2]|[H0 E2]];
  rewrite ?E2, ?E1; rewrite E1 in H0; lra.
Qed.

Lemma channel_unit_interval v :
  (0 <= v <= 255)%Z -> (0 <= inject_Z v / 255 <= 1)%Q.
Proof.
  intros Hv. apply Qdiv_unit_interval; [lra|].
  rewrite (Zle_Qle 0 v), (Zle_Qle v 255) in Hv.
  change (inject_Z 0) with 0%Q in Hv. change (inject_Z 255) with 255%Q in Hv. lra.
Qed.

Lemma channel_zero v : (inject_Z v / 255 == 0)%Q <-> v = 0%Z.
Proof.
  split.
  - intros H. assert (inject_Z v == 0)%Q as H0.
    { assert (E : (inject_Z v == inject_Z v / 255 * 255)%Q) by field.
      rewrite H in E. lra. }
    change 0%Q with (inject_Z 0) in H0. exact (proj1 (inject_Z_injective v 0) H0).
  - intros ->. reflexivity.
Qed.

(** C6: on channels in [0,255] the conversion raises nothing and returns four
    fractions in [0,1] with K = 1 - max(R,G,B) on the normalised channels.
    K is 1 exactly for pure black, and then C, M, Y are the literal 0;
    otherwise the divisor 1 - K is not zero and C, M, Y are
    (1-R-K)/(1-K), (1-G-K)/(1-K), (1-B-K)/(1-K). *)
Theorem rgb_to_cmyk_fractions (r g b : Z) :
  (0 <= r <= 255)%Z -> (0 <= g <= 255)%Z -> (0 <= b <= 255)%Z ->
  let R := (inject_Z r / 255)%Q in
  let G := (inject_Z g / 255)%Q in
  let B := (inject_Z b / 255)%Q in
  let K1 := (1 - Qmax (Qmax R G) B)%Q in
  exists C M Y K,
    rgb_to_cmyk (r, g, b) = Ok (C, M, Y, K) /\
    (0 <= C <= 1 /\ 0 <= M <= 1 /\ 0 <= Y <= 1 /\ 0 <= K <= 1)%Q /\
    (K == K1)%Q /\
    ((K1 == 1)%Q <-> (r, g, b) = (0, 0, 0)%Z) /\
    ((K1 == 1)%Q -> C = 0%Q /\ M = 0%Q /\ Y = 0%Q /\ K = 1%Q) /\
    (~ (K1 == 1)%Q ->
       ~ (1 - K1 == 0)%Q /\
       C = ((1 - R - K1) / (1 - K1))%Q /\
       M = ((1 - G - K1) / (1 - K1))%Q /\
       Y = ((1 - B - K1) / (1 - K1))%Q /\
       K = K1).
Proof.
  intros Hr Hg Hb R G B K1.
  pose proof (channel_unit_interval r Hr) as HR.
  pose proof (channel_unit_interval g Hg) as HG.
  pose proof (channel_unit_interval b Hb) as HB.
  fold R in HR. fold G in HG. fold B in HB.
  pose proof (Qmax3_spec R G B) as (HmR & HmG & HmB & Hm).
  assert (Hblack : (K1 == 1)%Q <-> (r, g, b) = (0, 0, 0)%Z).
  { unfold K1. split.
    - intros HK. assert (R == 0 /\ G == 0 /\ B == 0)%Q as (H1 & H2 & H3) by lra.
      by rewrite (proj1 (channel_zero r) H1), (proj1 (channel_zero g) H2),
        (proj1 (channel_zero b) H3).
    - intros [= -> -> ->]. reflexivity. }
  unfold rgb_to_cmyk. fold R G B K1.
  destruct (Qle_bool 1 K1) eqn:E.
  - apply Qle_bool_iff in E.
    assert (HK : (K1 == 1)%Q) by (unfold K1 in *; lra).
    exists 0%Q, 0%Q, 0%Q, 1%Q. split; [done|].
    split; [lra|]. split; [by rewrite HK|]. split; [done|].
    split; [done|]. intros Hn. by destruct Hn.
  - assert (HK : (K1 < 1)%Q).
    { apply Qnot_le_lt. intros Hle. apply Qle_bool_iff in Hle. congruence. }
    assert (Hd : ~ (1 - K1 == 0)%Q) by lra.
    rewrite !py_div_ok by done. simpl.
    eexists _, _, _, _. split; [done|].
    split.
    { unfold K1 in *.
      repeat split; try (apply Qdiv_unit_interval; lra); lra. }
    split; [reflexivity|]. split; [done|].
    split; [intros HK1; lra|]. intros _. done.
Qed.

Lemma rgb_to_cmyk_fractions_witness :
  exists C M Y K,
    rgb_to_cmyk (200, 30, 30)%Z = Ok (C, M, Y, K) /\
    (0 <= C <= 1 /\ 0 <= M <= 1 /\ 0 <= Y <= 1 /\ 0 <= K <= 1)%Q.
Proof.
  destruct (rgb_to_cmyk_fractions 200 30 30) as (C & M & Y & K & H1 & H2 & _);
    [lia..|].
  by exists C, M, Y, K.
Defined.

(** ** The error monad *)

Lemma mapM_result_inv {A B} (f : A -> result B) l ys :
  mapM f l = Ok ys -> Forall2 (fun x y => f x = Ok y) l ys.
Proof.
  revert ys. induction l as [|x l IH]; intros ys; simpl.
  - intros [= <-]. constructor.
  - destruct (f x) as [y|e] eqn:E; simpl; [|done].
    destruct (mapM f l) as [k|e]; simpl; [|done].
    intros [= <-]. constructor; auto.
Qed.

Lemma mapM_result_ok {A B} (f : A -> result B) l :
  (forall x, In x l -> exists y, f x = Ok y) -> exists ys, mapM f l = Ok ys.
Proof.
  induction l as [|x l IH]; intros H; simpl.
  - by eexists.
  - destruct (H x) as [y ->]; [by left|]. simpl.
    destruct IH as [ys ->]; [intros; apply H; by right|]. simpl. by eexists.
Qed.

Lemma for_each_invariant {A S} (P : S -> Prop) (l : list A) (body : S -> A -> result S) s :
  (forall s a, P s -> In a l -> exists s', body s a = Ok s' /\ P s') ->
  P s -> exists s', for_each l s body = Ok s' /\ P s'.
Proof.
  unfold for_each. revert s. induction l as [|a l IH]; intros s Hb Hs; simpl.
  - eauto.
  - destruct (Hb s a Hs) as (s1 & -> & Hs1); [by left|]. 
    apply IH; [|done]. intros; apply Hb; [done|by right].
Qed.

(** ** Safe blocks *)

Lemma safe_stream_app c z l1 l2 :
  safe_stream c z (l1 ++ l2) = safe_stream c z l1 && safe_stream c (end_z z l1) l2.
Proof.
  revert z. induction l1 as [|l l1 IH]; intros z; simpl; [done|].
  rewrite IH. by rewrite andb_assoc.
Qed.

Lemma end_z_app z l1 l2 : end_z z (l1 ++ l2) = end_z (end_z z l1) l2.
Proof. apply fold_left_app. Qed.

Section SafeBlocks.
(** Any notion of clear height that accepts the travel height and the safe
    height. *)
Variable ok : Q -> bool.
Hypothesis ok_travel : ok Z_TRAVEL = true.
Hypothesis ok_safe : ok Z_SAFE = true.

Lemma safe_block_nil : safe_block ok [].
Proof. split; [by intros z Hz|constructor]. Qed.

Lemma safe_block_app l1 l2 :
  safe_block ok l1 -> safe_block ok l2 -> safe_block ok (l1 ++ l2).
Proof.
  intros [H1 P1] [H2 P2]. split; [|by apply Forall_app].
  intros z Hz. destruct (H1 z Hz) as [S1 C1]. destruct (H2 _ C1) as [S2 C2].
  rewrite safe_stream_app, end_z_app, S1, S2. done.
Qed.

Lemma safe_block_concat ls : Forall (safe_block ok) ls -> safe_block ok (concat ls).
Proof.
  induction 1; simpl; [apply safe_block_nil|by apply safe_block_app].
Qed.

Lemma safe_block_comment r : safe_block ok [Comment r].
Proof. split; [by intros z Hz|by repeat constructor]. Qed.

Ltac safe_block_lines :=
  split;
  [ intros z Hz; cbn; rewrite ?Hz, ?ok_safe, ?ok_travel; split; reflexivity
  | repeat constructor ].

Lemma safe_block_pickup c st :
  Station.z_safe st = Z_SAFE -> safe_block ok (pickup_lines c st).
Proof. intros Hst. unfold pickup_lines. rewrite Hst. safe_block_lines. Qed.

Lemma safe_block_return c st :
  Station.z_safe st = Z_SAFE -> safe_block ok (return_lines c st).
Proof. intros Hst. unfold return_lines. rewrite Hst. safe_block_lines. Qed.

Lemma safe_block_dip c st :
  Station.z_safe st = Z_SAFE -> safe_block ok (dip_lines c st).
Proof. intros Hst. unfold dip_lines. rewrite Hst. safe_block_lines. Qed.

Lemma safe_block_clean st :
  Station.z_safe st = Z_SAFE -> safe_block ok (clean_lines st).
Proof. intros Hst. unfold clean_lines. rewrite Hst. safe_block_lines. Qed.

Lemma safe_block_paint_dot x y t : safe_block ok (paint_dot x y t).
Proof. safe_block_lines. Qed.
End SafeBlocks.

Section DabLoop.
Variable hypot : Q -> Q -> Q.
Variable every_n_dots : nat.
Variable after_travel_mm : Q.

Lemma dab_at_lines dip s pos :
  exists extra,
    lines (dab_at hypot every_n_dots after_travel_mm dip s pos)
    = lines s ++ extra /\
    (extra = dip ++ paint_dot (fst pos) (snd pos) DAB_DWELL_S \/
     extra = paint_dot (fst pos) (snd pos) DAB_DWELL_S).
Proof.
  destruct pos as [x y]. unfold dab_at.
  match goal with |- context [if ?b then lines s ++ dip else _] => destruct b end;
    simpl.
  - eexists. rewrite <- app_assoc. split; [done|by left].
  - eexists. split; [done|by right].
Qed.

(** Whatever holds of the dip block and of every dab block, and is kept by
    concatenation, holds of the lines of the dab loop. *)
Lemma dab_loop_closed (P : list line -> Prop) args pts dip serp :
  P [] -> (forall a b, P a -> P b -> P (a ++ b)) -> P dip ->
  (forall x y, P (paint_dot x y DAB_DWELL_S)) ->
  P (lines (fold_left (dab_step hypot every_n_dots after_travel_mm args pts dip)
                      serp dab_init)).
Proof.
  intros Hnil Happ Hdip Hdot.
  assert (H : forall s, P (lines s) ->
            P (lines (fold_left (dab_step hypot every_n_dots after_travel_mm args pts dip)
                                serp s))).
  { induction serp as [|p serp' IH]; intros s Hs; simpl; [done|].
    apply IH. unfold dab_step. case_bool_decide; [|done].
    destruct (dab_at_lines dip s (xy_of_pixel args p.1 p.2)) as (extra & -> & [->| ->]);
      auto. }
  by apply H.
Qed.

Lemma color_pass_inv color_points stations args serp c ls :
  color_pass hypot every_n_dots after_travel_mm color_points stations args serp c = Ok ls ->
  (color_points !! c = Some [] /\ ls = []) \/
  exists st pts,
    stations !! c = Some st /\ color_points !! c = Some pts /\ pts <> [] /\
    ls = Comment (ColorHeader c (length pts)) ::
         pickup_lines c st ++ dip_lines c st ++
         lines (fold_left (dab_step hypot every_n_dots after_travel_mm args pts
                                    (dip_lines c st)) serp dab_init) ++
         clean_lines st ++ return_lines c st.
Proof.
  unfold color_pass, pickup_brush, dip_brush, return_brush, dict_get.
  destruct (color_points !! c) as [pts|]; simpl; [|done].
  destruct pts as [|p pts]; [intros [= <-]; by left|].
  destruct (stations !! c) as [st|]; simpl; [|done].
  intros [= <-]. right. exists st, (p :: pts). done.
Qed.

End DabLoop.

Lemma make_stations_lookup p c st :
  make_stations p !! c = Some st -> Station.z_safe st = Z_SAFE /\ In c (PALETTES p).
Proof.
  destruct p, c; vm_compute; intros H; try discriminate H;
    injection H as <-; (split; [reflexivity|tauto]).
Qed.

Lemma make_stations_keys p c : In c (PALETTES p) -> is_Some (make_stations p !! c).
Proof.
  destruct p; simpl; intros H;
    repeat (destruct H as [<-|H]; [by vm_compute; eexists|]); destruct H.
Qed.

Section Generator.
Variable hypot : Q -> Q -> Q.
Variable every_n_dots : nat.
Variable after_travel_mm : Q.

Lemma gen_gcode_inv color_points color_order grid_cols grid_rows stations args lines :
  gen_gcode hypot every_n_dots after_travel_mm color_points color_order
            grid_cols grid_rows stations args = Ok lines ->
  exists passes,
    Forall2 (fun c ls =>
               color_pass hypot every_n_dots after_travel_mm color_points stations args
                          (serpentine_indices grid_cols grid_rows) c = Ok ls)
            color_order passes /\
    lines = preamble grid_cols grid_rows args ++ concat passes ++ postamble.
Proof.
  unfold gen_gcode.
  destruct (mapM _ color_order) as [passes|e] eqn:E; simpl; [|done].
  intros [= <-]. exists passes. split; [|done]. by apply mapM_result_inv.
Qed.

Section SafeRun.
Variable ok : Q -> bool.
Hypothesis ok_travel : ok Z_TRAVEL = true.
Hypothesis ok_safe : ok Z_SAFE = true.

Lemma color_pass_safe color_points stations args serp c ls :
  (forall c st, stations !! c = Some st -> Station.z_safe st = Z_SAFE) ->
  color_pass hypot every_n_dots after_travel_mm color_points stations args serp c = Ok ls ->
  safe_block ok ls.
Proof.
  intros Hst Hpass.
  apply color_pass_inv in Hpass as [[_ ->]|(st & pts & Hs & _ & _ & ->)];
    [apply safe_block_nil|].
  specialize (Hst _ _ Hs).
  apply (safe_block_app ok [_]); [apply safe_block_comment|].
  apply safe_block_app; [by apply safe_block_pickup|].
  apply safe_block_app; [by apply safe_block_dip|].
  apply safe_block_app.
  { apply dab_loop_closed;
      auto using safe_block_nil, safe_block_app, safe_block_dip, safe_block_paint_dot. }
  apply safe_block_app; [by apply safe_block_clean|by apply safe_block_return].
Qed.

Lemma gen_gcode_safe color_points color_order grid_cols grid_rows stations args lines :
  (forall c st, stations !! c = Some st -> Station.z_safe st = Z_SAFE) ->
  gen_gcode hypot every_n_dots after_travel_mm color_points color_order
            grid_cols grid_rows stations args = Ok lines ->
  safe_stream ok None lines = true /\
  Forall (fun l => pure_move l = true) lines.
Proof.
  intros Hst Hgen. apply gen_gcode_inv in Hgen as (passes & Hpasses & ->).
  assert (Hblock : safe_block ok (concat passes)).
  { apply safe_block_concat. clear -Hst Hpasses ok_travel ok_safe.
    induction Hpasses; constructor; [by eapply color_pass_safe|done]. }
  destruct Hblock as [Hsafe Hpure]. split.
  - rewrite !safe_stream_app. cbn.
    destruct (Hsafe (Some Z_TRAVEL) ok_travel) as [-> Hend]. cbn.
    by rewrite ok_travel.
  - rewrite !Forall_app. split; [by repeat constructor|].
    split; [done|by repeat constructor].
Qed.
End SafeRun.
End Generator.

(** ** Totality of the stages of [main] *)

Lemma mapM_result_length {A B} (f : A -> result B) l ys :
  mapM f l = Ok ys -> length ys = length l.
Proof. intros H. apply mapM_result_inv in H. symmetry. by eapply Forall2_length. Qed.

Lemma nearest_palette_color_in_order p :
  in_range p -> exists c, nearest_palette_color p = Some c /\ In c COLOR_ORDER_RGB6.
Proof.
  intros Hp. destruct (nearest_palette_color_first p Hp) as (c & Hc & ref & Hin & _).
  exists c. split; [done|]. unfold PALETTE_RGB in Hin. simpl in Hin.
  unfold COLOR_ORDER_RGB6.
  repeat (destruct Hin as [Hin|Hin]; [injection Hin as <- _; simpl; tauto|]).
  destruct Hin.
Qed.

Lemma rgb6_points_ok getpixel grid_cols grid_rows :
  (forall x y, in_range (getpixel x y)) ->
  exists cp, rgb6_points getpixel grid_cols grid_rows = Ok cp /\
             forall c, In c COLOR_ORDER_RGB6 -> is_Some (cp !! c).
Proof.
  intros Hpix. unfold rgb6_points.
  apply (for_each_invariant
           (fun cp : gmap color (list (nat * nat)) =>
              forall c, In c COLOR_ORDER_RGB6 -> is_Some (cp !! c))).
  - intros cp [x y] Hcp _. unfold classify_pixel.
    destruct (is_background (getpixel x y)); [by exists cp|].
    destruct (nearest_palette_color_in_order _ (Hpix x y)) as (col & -> & Hcol).
    destruct (Hcp col Hcol) as [pts Hpts]. unfold dict_get. rewrite Hpts. simpl.
    eexists. split; [done|]. intros c Hc.
    destruct (decide (col = c)) as [->|Hne].
    + rewrite lookup_insert_eq. by eexists.
    + rewrite lookup_insert_ne by done. auto.
  - intros c Hc. simpl in Hc.
    repeat (destruct Hc as [<-|Hc]; [by vm_compute; eexists|]). destruct Hc.
Qed.

Lemma rgb_to_cmyk_total p : exists k, rgb_to_cmyk p = Ok k.
Proof.
  destruct p as [[r g] b]. unfold rgb_to_cmyk.
  set (K := (1 - Qmax (Qmax (inject_Z r / 255) (inject_Z g / 255)) (inject_Z b / 255))%Q).
  destruct (Qle_bool 1 K) eqn:E; [by eexists|].
  assert (HK : (K < 1)%Q).
  { apply Qnot_le_lt. intros Hle. apply Qle_bool_iff in Hle. congruence. }
  rewrite !py_div_ok by lra. simpl. by eexists.
Qed.

Lemma copy_plane_ok img w h :
  covers img w h -> exists arr, copy_plane img w h = Ok arr.
Proof.
  intros Hc. unfold copy_plane. apply mapM_result_ok. intros y Hy.
  apply in_seq in Hy. destruct (Hc y) as (row & Hrow & Hlen); [lia|].
  apply mapM_result_ok. intros x Hx. apply in_seq in Hx.
  unfold getitem. rewrite Hrow. simpl.
  destruct (lookup_lt_is_Some_2 row x) as [v ->]; [lia|]. by eexists.
Qed.

(** ** The safe-height invariant of a run *)

Lemma main_safe hypot (ok : Q -> bool) args resize lines :
  ok Z_TRAVEL = true -> ok Z_SAFE = true ->
  main hypot args resize = Ok lines ->
  safe_stream ok None lines = true /\
  Forall (fun l => pure_move l = true) lines.
Proof.
  intros Hok1 Hok2. unfold main.
  destruct (grid_size (Qmax 0 (width_mm args - _)) _) as [grid_cols|]; simpl; [|done].
  destruct (grid_size _ _) as [grid_rows|]; simpl; [|done].
  assert (Hst : forall c st, make_stations (palette args) !! c = Some st ->
                  Station.z_safe st = Z_SAFE).
  { intros c st H. by destruct (make_stations_lookup _ _ _ H) as [-> _]. }
  destruct (palette args).
  - destruct (rgb6_points _ _ _) as [cp|]; simpl; [|done].
    intros Hgen. by eapply gen_gcode_safe.
  - destruct (cmyk_points _ _ _) as [cp|]; simpl; [|done].
    intros Hgen. by eapply gen_gcode_safe.
Qed.

(** C1: in the stream of any run, scanned from the start with the height
    unknown until the first Z move (the initial ascent), every X/Y move
    finds the tracked height at the station safe height or at the travel
    height (moves leave from the travel height after a dab and after the
    initial and final ascents, from the safe height otherwise), hence at or
    above the travel height, the lower of the two; and no line carries both
    an X or Y word and a Z word. *)
Theorem main_safe_height (hypot : Q -> Q -> Q) (args : Args)
    (resize : nat -> nat -> nat -> nat -> rgb) (lines : list line) :
  main hypot args resize = Ok lines ->
  safe_stream safe_or_travel None lines = true /\
  safe_stream (at_or_above Z_TRAVEL) None lines = true /\
  Forall (fun l => is_xy_move l = true -> z_word l = None) lines.
Proof.
  intros Hmain.
  destruct (main_safe hypot safe_or_travel _ _ _ eq_refl eq_refl Hmain) as [Hs Hp].
  destruct (main_safe hypot (at_or_above Z_TRAVEL) _ _ _ eq_refl eq_refl Hmain)
    as [Hs' _].
  split; [done|]. split; [done|].
  eapply Forall_impl; [exact Hp|]. intros l Hl Hxy. unfold pure_move in Hl.
  rewrite Hxy in Hl. by destruct (z_word l).
Qed.

Lemma main_safe_height_witness :
  exists lines,
    main hypot_fix (sample_args rgb6 6 6 3) diagonal_image = Ok lines /\
    safe_stream safe_or_travel None lines = true /\
    safe_stream (at_or_above Z_TRAVEL) None lines = true /\
    Forall (fun l => is_xy_move l = true -> z_word l = None) lines.
Proof.
  eexists. split; [vm_compute; reflexivity|].
  apply (main_safe_height hypot_fix (sample_args rgb6 6 6 3) diagonal_image).
  vm_compute. reflexivity.
Defined.

(** Moves between two dabs leave from the travel height, which is below the
    safe height of the stations. *)
Example dab_to_dab_below_safe_height :
  safe_stream (at_or_above Z_SAFE) (Some Z_SAFE)
    (paint_dot 0 0 DAB_DWELL_S ++ paint_dot 3 0 DAB_DWELL_S) = false.
Proof. reflexivity. Qed.

(** ** Unused colours *)

Section Unused.
Variable hypot : Q -> Q -> Q.
Variable every_n_dots : nat.
Variable after_travel_mm : Q.

Lemma color_pass_unused color_points stations args serp c :
  color_points !! c = Some [] ->
  color_pass hypot every_n_dots after_travel_mm color_points stations args serp c = Ok [].
Proof. intros H. unfold color_pass, dict_get. by rewrite H. Qed.

Lemma mapM_skip_unused (f : color -> result (list line)) c order :
  f c = Ok [] ->
  (passes ← mapM f order; Ok (concat passes))
  = (passes ← mapM f (filter (fun c' => c' <> c) order); Ok (concat passes)).
Proof.
  intros Hc. induction order as [|c' order IH]; [done|].
  rewrite filter_cons. destruct (decide (c' <> c)) as [Hne|Heq].
  - simpl. destruct (f c') as [ls|e]; simpl; [|done].
    destruct (mapM f order) as [ps|e]; simpl in *.
    + destruct (mapM f (filter _ order)) as [ps'|e']; simpl in *; [|done].
      injection IH as IH. by rewrite IH.
    + destruct (mapM f (filter _ order)) as [ps'|e']; simpl in *; [done|].
      by injection IH as ->.
  - apply dec_stable in Heq as ->. simpl. rewrite Hc. simpl.
    rewrite <- IH. by destruct (mapM f order).
Qed.

Lemma color_pass_remarks color_points stations args serp c c' ls :
  c' <> c ->
  color_pass hypot every_n_dots after_travel_mm color_points stations args serp c' = Ok ls ->
  Forall (fun l => remark_color l <> Some c) ls.
Proof.
  intros Hne Hpass.
  assert (Hc : Some c' <> Some c) by congruence.
  apply color_pass_inv in Hpass as [[_ ->]|(st & pts & _ & _ & _ & ->)];
    [constructor|].
  constructor; [done|]. rewrite !Forall_app. repeat split.
  - by repeat constructor.
  - by repeat constructor.
  - apply (dab_loop_closed hypot every_n_dots after_travel_mm
             (Forall (fun l => remark_color l <> Some c))).
    + constructor.
    + intros a b Ha Hb. by apply Forall_app.
    + by repeat constructor.
    + intros x y. by repeat constructor.
  - by repeat constructor.
  - by repeat constructor.
Qed.
End Unused.

(** C8: a colour with no dabs has an empty pass; the stream is the one
    produced when the colour is left out of the colour order altogether;
    and no pass header, pickup, dip or return line of the stream is about
    that colour. *)
Theorem unused_color_emits_nothing (hypot : Q -> Q -> Q) (every_n_dots : nat)
    (after_travel_mm : Q) (color_points : gmap color (list (nat * nat)))
    (color_order : list color) (grid_cols grid_rows : nat)
    (stations : gmap color Station.t) (args : Args) (c : color) :
  color_points !! c = Some [] ->
  color_pass hypot every_n_dots after_travel_mm color_points stations args
    (serpentine_indices grid_cols grid_rows) c = Ok [] /\
  gen_gcode hypot every_n_dots after_travel_mm color_points color_order
    grid_cols grid_rows stations args
  = gen_gcode hypot every_n_dots after_travel_mm color_points
      (filter (fun c' => c' <> c) color_order) grid_cols grid_rows stations args /\
  forall lines,
    gen_gcode hypot every_n_dots after_travel_mm color_points color_order
      grid_cols grid_rows stations args = Ok lines ->
    Forall (fun l => remark_color l <> Some c) lines.
Proof.
  intros Hc.
  pose proof (color_pass_unused hypot every_n_dots after_travel_mm color_points
                stations args (serpentine_indices grid_cols grid_rows) c Hc) as Hpass.
  split; [done|]. split.
  - pose proof (mapM_skip_unused _ c color_order Hpass) as Hskip.
    unfold gen_gcode.
    destruct (mapM _ color_order) as [ps|e];
      destruct (mapM _ (filter _ color_order)) as [ps'|e']; simpl in *;
      try done; try congruence.
  - intros lines Hgen. apply gen_gcode_inv in Hgen as (passes & Hpasses & ->).
    rewrite !Forall_app. split; [by repeat constructor|].
    split; [|by repeat constructor].
    apply Forall_concat. induction Hpasses as [|c' ls order ps Hp _ IH];
      constructor; [|done].
    destruct (decide (c' = c)) as [->|Hne].
    + rewrite Hpass in Hp. injection Hp as <-. constructor.
    + by eapply color_pass_remarks.
Qed.

Lemma unused_color_emits_nothing_witness :
  gen_gcode hypot_fix 120 180 sample_points [black; blue] 1 1
    (make_stations rgb6) (sample_args rgb6 3 3 3)
  = gen_gcode hypot_fix 120 180 sample_points [black] 1 1
      (make_stations rgb6) (sample_args rgb6 3 3 3).
Proof.
  exact (proj1 (proj2 (unused_color_emits_nothing hypot_fix 120 180 sample_points
                         [black; blue] 1 1 (make_stations rgb6)
                         (sample_args rgb6 3 3 3) blue eq_refl))).
Defined.

(** ** The re-dip schedule *)

Section Redip.
Variable hypot : Q -> Q -> Q.
Variable every_n_dots : nat.
Variable after_travel_mm : Q.

Lemma dab_loop_positions args pts dip serp s :
  fold_left (dab_step hypot every_n_dots after_travel_mm args pts dip) serp s
  = fold_left (dab_at hypot every_n_dots after_travel_mm dip)
              (dab_positions args pts serp) s.
Proof.
  unfold dab_positions. revert s. induction serp as [|p serp IH]; intros s; [done|].
  simpl. rewrite filter_cons. unfold dab_step at 2.
  destruct (decide (p ∈ pts)) as [Hin|Hin].
  - rewrite bool_decide_eq_true_2 by done. simpl. apply IH.
  - rewrite bool_decide_eq_false_2 by done. apply IH.
Qed.

Lemma last_redip_le flags i : last_redip flags i <= i.
Proof.
  induction i as [|j IH]; simpl; [done|]. destruct (nth j flags false); lia.
Qed.

Lemma last_redip_lt flags i : 0 < i -> last_redip flags i < i.
Proof.
  destruct i as [|j]; [lia|]. intros _. simpl.
  pose proof (last_redip_le flags j). destruct (nth j flags false); lia.
Qed.

Lemma last_redip_prefix flags more i :
  i <= length flags -> last_redip (flags ++ more) i = last_redip flags i.
Proof.
  induction i as [|j IH]; intros Hi; simpl; [done|].
  rewrite app_nth1 by lia. rewrite IH by lia. done.
Qed.

Lemma redip_schedule_length ps n :
  length (redip_schedule hypot every_n_dots after_travel_mm ps n) = n.
Proof.
  induction n as [|k IH]; simpl; [done|]. rewrite length_app, IH. simpl. lia.
Qed.

Lemma Qsum_app l1 l2 : (Qsum (l1 ++ l2) == Qsum l1 + Qsum l2)%Q.
Proof.
  induction l1 as [|a l1 IH]; simpl; [lra|]. rewrite IH. lra.
Qed.

Lemma Qle_bool_Qeq t a b : (a == b)%Q -> Qle_bool t a = Qle_bool t b.
Proof.
  intros Hab. destruct (Qle_bool t b) eqn:E.
  - apply Qle_bool_iff. apply Qle_bool_iff in E. lra.
  - destruct (Qle_bool t a) eqn:E'; [|done].
    apply Qle_bool_iff in E'. rewrite Hab in E'. apply Qle_bool_iff in E'. congruence.
Qed.

Lemma Qsum_legs_snoc ps a n :
  (Qsum (map (leg hypot ps) (seq a (S n)))
   == Qsum (map (leg hypot ps) (seq a n)) + leg hypot ps (a + n))%Q.
Proof.
  rewrite seq_S, map_app, Qsum_app. simpl. lra.
Qed.

Lemma dab_state_after_init dip ps :
  dab_state_after hypot dip ps [] 0 dab_init.
Proof. unfold dab_state_after, dab_init. simpl. repeat split. Qed.

Lemma dab_state_after_step dip ps k s pos :
  ps !! k = Some pos ->
  dab_state_after hypot dip ps
    (redip_schedule hypot every_n_dots after_travel_mm ps k) k s ->
  dab_state_after hypot dip ps
    (redip_schedule hypot every_n_dots after_travel_mm ps (S k)) (S k)
    (dab_at hypot every_n_dots after_travel_mm dip s pos).
Proof.
  intros Hpos (Hlines & Hdots & Htravel & Hlast).
  simpl redip_schedule.
  set (fl := redip_schedule hypot every_n_dots after_travel_mm ps k) in *.
  assert (Hfl : length fl = k) by apply redip_schedule_length.
  pose proof (last_redip_le fl k) as HL.
  set (L := last_redip fl k) in *.
  destruct pos as [x_mm y_mm]. unfold dab_at.
  set (travel := match last s with
                 | Some l => (travel_since s + hypot (x_mm - fst l) (y_mm - snd l))%Q
                 | None => travel_since s
                 end).
  assert (Ht : (travel == travel_since_redip hypot ps fl k)%Q).
  { unfold travel, travel_since_redip. fold L. destruct k as [|j].
    - rewrite Hlast. rewrite Htravel. simpl. reflexivity.
    - rewrite Hlast.
      assert (L < S j) by (apply last_redip_lt; lia).
      destruct (ps !! j) as [a|] eqn:Ha.
      + replace (S j - L) with (S (j - L)) by lia.
        rewrite Qsum_legs_snoc. replace (S L + (j - L)) with (S j) by lia.
        rewrite Htravel. replace (S j - 1 - L) with (j - L) by lia.
        simpl leg. rewrite Ha, Hpos. simpl. reflexivity.
      + apply lookup_ge_None in Ha. apply lookup_lt_Some in Hpos. lia. }
  set (flag := redip_due hypot every_n_dots after_travel_mm ps fl k).
  assert (Hflag : (every_n_dots <=? dots_since s) ||
                  (negb (Qle_bool after_travel_mm 0) && Qle_bool after_travel_mm travel)
                  = flag).
  { unfold flag, redip_due. by rewrite Hdots, (Qle_bool_Qeq _ _ _ Ht). }
  rewrite Hflag.
  assert (HL' : last_redip (fl ++ [flag]) (S k) = if flag then k else L).
  { simpl. rewrite app_nth2 by lia. rewrite Hfl, Nat.sub_diag. simpl.
    by rewrite last_redip_prefix by lia. }
  unfold dab_state_after. simpl lines. simpl dots_since. simpl travel_since.
  simpl last. unfold dabs_since_redip. rewrite HL'.
  split; [|split; [|split]].
  - rewrite (take_S_r _ _ _ Hpos).
    rewrite zip_with_app by (rewrite length_take_le;
                             [lia|apply lookup_lt_Some in Hpos; lia]).
    rewrite concat_app. simpl. rewrite app_nil_r. unfold dab_lines at 2. simpl.
    rewrite <- Hlines. destruct flag; by rewrite <- ?app_assoc.
  - rewrite Hdots. unfold dabs_since_redip. fold L. destruct flag; lia.
  - destruct flag.
    + replace (S k - 1 - k) with 0 by lia. reflexivity.
    + rewrite Ht. unfold travel_since_redip. fold L.
      replace (S k - 1 - L) with (k - L) by lia. reflexivity.
  - done.
Qed.

Lemma dab_state_after_prefix dip ps k :
  k <= length ps ->
  dab_state_after hypot dip ps
    (redip_schedule hypot every_n_dots after_travel_mm ps k) k
    (fold_left (dab_at hypot every_n_dots after_travel_mm dip) (take k ps) dab_init).
Proof.
  induction k as [|k IH]; intros Hk.
  - apply dab_state_after_init.
  - destruct (lookup_lt_is_Some_2 ps k) as [pos Hpos]; [lia|].
    rewrite (take_S_r _ _ _ Hpos), fold_left_app. simpl.
    apply dab_state_after_step; [done|]. apply IH. lia.
Qed.

(** The lines of the dab loop are the dabs in order, each preceded by the
    dip block exactly when the schedule says so. *)
Lemma dab_loop_schedule args pts dip serp :
  let ps := dab_positions args pts serp in
  lines (fold_left (dab_step hypot every_n_dots after_travel_mm args pts dip)
                   serp dab_init)
  = concat (zip_with (dab_lines dip)
              (redip_schedule hypot every_n_dots after_travel_mm ps (length ps)) ps).
Proof.
  intros ps. rewrite dab_loop_positions. fold ps.
  destruct (dab_state_after_prefix dip ps (length ps) ltac:(lia)) as (Hl & _).
  by rewrite firstn_all in Hl.
Qed.
End Redip.



(** ** Planes as lists of rows *)

Lemma shaped_lookup {A} w h (a : list (list A)) y :
  shaped w h a -> y < h -> exists row, a !! y = Some row /\ length row = w.
Proof.
  intros [Hl Hr] Hy. destruct (lookup_lt_is_Some_2 a y) as [row Hrow]; [lia|].
  exists row. split; [done|]. by eapply (proj1 (Forall_lookup _ _) Hr).
Qed.

Lemma shaped_alter {A} w h (a : list (list A)) (f : list A -> list A) y :
  (forall row, length (f row) = length row) ->
  shaped w h a -> shaped w h (alter f y a).
Proof.
  intros Hf [Hl Hr]. split; [by rewrite length_alter|].
  apply Forall_lookup. intros i row Hi.
  destruct (decide (i = y)) as [->|Hne].
  - rewrite list_lookup_alter_eq in Hi.
    destruct (a !! y) as [r|] eqn:E; simpl in Hi; [|done]. injection Hi as <-.
    rewrite Hf. by eapply (proj1 (Forall_lookup _ _) Hr).
  - rewrite list_lookup_alter_ne in Hi by done.
    by eapply (proj1 (Forall_lookup _ _) Hr).
Qed.

Lemma shaped_add_at w h a y x v : shaped w h a -> shaped w h (add_at a y x v).
Proof. apply shaped_alter. intros row. apply length_alter. Qed.

Lemma shaped_set_at {A} w h (a : list (list A)) y x (v : A) :
  shaped w h a -> shaped w h (set_at a y x v).
Proof. apply shaped_alter. intros row. apply length_insert. Qed.

Lemma cell_add_at_same w h a y x v :
  shaped w h a -> y < h -> x < w ->
  cell 0%Q (add_at a y x v) y x = (cell 0%Q a y x + v)%Q.
Proof.
  intros Ha Hy Hx. destruct (shaped_lookup w h a y Ha Hy) as (row & Hrow & Hlen).
  destruct (lookup_lt_is_Some_2 row x) as [c Hc]; [lia|].
  unfold cell, add_at. rewrite list_lookup_alter_eq, Hrow. simpl.
  by rewrite list_lookup_alter_eq, Hc.
Qed.

Lemma cell_add_at_other a y x v y' x' :
  y' <> y \/ x' <> x -> cell 0%Q (add_at a y x v) y' x' = cell 0%Q a y' x'.
Proof.
  intros Hne. unfold cell, add_at.
  destruct (decide (y' = y)) as [->|Hy].
  - rewrite list_lookup_alter_eq. destruct (a !! y) as [row|]; simpl; [|done].
    rewrite list_lookup_alter_ne; [done|]. intros ->. by destruct Hne.
  - by rewrite list_lookup_alter_ne.
Qed.

Lemma cell_set_at_same {A} w h (d : A) (a : list (list A)) y x v :
  shaped w h a -> y < h -> x < w -> cell d (set_at a y x v) y x = v.
Proof.
  intros Ha Hy Hx. destruct (shaped_lookup w h a y Ha Hy) as (row & Hrow & Hlen).
  unfold cell, set_at. rewrite list_lookup_alter_eq, Hrow. simpl.
  by rewrite list_lookup_insert_eq by lia.
Qed.

Lemma cell_set_at_other {A} (d : A) (a : list (list A)) y x v y' x' :
  y' <> y \/ x' <> x -> cell d (set_at a y x v) y' x' = cell d a y' x'.
Proof.
  intros Hne. unfold cell, set_at.
  destruct (decide (y' = y)) as [->|Hy].
  - rewrite list_lookup_alter_eq. destruct (a !! y) as [row|]; simpl; [|done].
    rewrite list_lookup_insert_ne; [done|]. intros ->. by destruct Hne.
  - by rewrite list_lookup_alter_ne.
Qed.

Lemma copy_plane_spec img w h arr :
  copy_plane img w h = Ok arr ->
  shaped w h arr /\
  forall x y, x < w -> y < h -> cell 0%Q arr y x = cell 0%Q img y x.
Proof.
  intros Hcopy. unfold copy_plane in Hcopy.
  pose proof (mapM_result_inv _ _ _ Hcopy) as Hrows.
  assert (Hlen : length arr = h).
  { apply mapM_result_length in Hcopy. by rewrite length_seq in Hcopy. }
  split; [split; [done|]|].
  - apply Forall_lookup. intros y row Hrow.
    destruct (Forall2_lookup_r _ _ _ _ _ Hrows Hrow) as (y' & _ & Hr).
    apply mapM_result_length in Hr. by rewrite length_seq in Hr.
  - intros x y Hx Hy.
    destruct (Forall2_lookup_l _ _ _ y y Hrows) as (row & Hrow & Hr);
      [by apply lookup_seq_lt|].
    pose proof (mapM_result_inv _ _ _ Hr) as Hcells.
    destruct (Forall2_lookup_l _ _ _ x x Hcells) as (c & Hc & Hget);
      [by apply lookup_seq_lt|].
    unfold cell at 1. rewrite Hrow. simpl. rewrite Hc. simpl.
    unfold getitem in Hget. unfold cell.
    destruct (img !! y) as [irow|]; simpl in *; [|done].
    destruct (irow !! x) as [ic|]; simpl in *; [|done]. by injection Hget.
Qed.

(** ** The pass refines the reference *)

Section Refinement.
Variables w h : nat.

Lemma in_grid_nat x y :
  in_grid w h (Z.of_nat x, Z.of_nat y) = (x <? w) && (y <? h).
Proof.
  unfold in_grid. simpl.
  destruct (Nat.ltb_spec x w), (Nat.ltb_spec y h);
    repeat match goal with
           | |- context [(?a <=? ?b)%Z] => destruct (Z.leb_spec a b)
           | |- context [(?a <? ?b)%Z] => destruct (Z.ltb_spec a b)
           end; simpl; try reflexivity; lia.
Qed.

Lemma agrees_deposit a v nx ny q q' :
  shaped w h a -> agrees w h a v -> nx < w -> ny < h -> (q == q')%Q ->
  agrees w h (add_at a ny nx q) (deposit v (Z.of_nat nx, Z.of_nat ny) q').
Proof.
  intros Ha Hav Hnx Hny Hq x y Hx Hy. unfold deposit.
  case_decide as Heq.
  - injection Heq as Hx' Hy'. apply Nat2Z.inj in Hx', Hy'. subst.
    rewrite (cell_add_at_same w h) by done.
    rewrite (Hav nx ny Hnx Hny), Hq. reflexivity.
  - rewrite cell_add_at_other; [by apply Hav|].
    destruct (decide (y = ny)) as [->|]; [|by left].
    right. intros ->. done.
Qed.

Lemma agrees_guarded a v (g : bool) nx ny q tgt q' :
  shaped w h a -> agrees w h a v ->
  g = in_grid w h tgt ->
  (g = true -> tgt = (Z.of_nat nx, Z.of_nat ny) /\ nx < w /\ ny < h) ->
  (q == q')%Q ->
  shaped w h (if g then add_at a ny nx q else a) /\
  agrees w h (if g then add_at a ny nx q else a)
         (if in_grid w h tgt then deposit v tgt q' else v).
Proof.
  intros Ha Hav Hg Htgt Hq. rewrite <- Hg. destruct g; [|done].
  destruct (Htgt eq_refl) as (-> & Hnx & Hny).
  split; [by apply shaped_add_at|by apply agrees_deposit].
Qed.

Lemma Qle_bool_proper a a' b b' :
  (a == a')%Q -> (b == b')%Q -> Qle_bool a b = Qle_bool a' b'.
Proof.
  intros Ha Hb. destruct (Qle_bool a' b') eqn:E.
  - apply Qle_bool_iff. apply Qle_bool_iff in E. lra.
  - destruct (Qle_bool a b) eqn:E'; [|done].
    apply Qle_bool_iff in E'. rewrite Ha, Hb in E'. apply Qle_bool_iff in E'.
    congruence.
Qed.

Lemma fs_cell_sim st s x y :
  x < w -> y < h -> fs_sim w h st s ->
  fs_sim w h (fs_cell w h y st x) (ref_cell w h s (Z.of_nat x, Z.of_nat y)).
Proof.
  intros Hx Hy. destruct st as [arr out]. intros (Harr & Hout & Hcells). simpl in *.
  assert (Hav : agrees w h arr (values s)) by (intros ? ? ? ?; by apply Hcells).
  set (c := (Z.of_nat x, Z.of_nat y)).
  set (old := cell 0%Q arr y x).
  assert (Hold : (old == values s c)%Q) by (by apply Hav).
  assert (Hnew : (if Qle_bool 0.5 old then 1%Z else 0%Z) = threshold (values s c)).
  { unfold threshold. by rewrite (Qle_bool_proper 0.5 (1 # 2) old (values s c)). }
  unfold fs_cell. fold old. rewrite Hnew.
  set (b := threshold (values s c)).
  set (err := (old - inject_Z b)%Q).
  set (err' := (values s c - inject_Z b)%Q).
  assert (Herr : (err == err')%Q) by (unfold err, err'; by rewrite Hold).
  unfold ref_cell. fold c b err'. unfold fs_sim. simpl fst. simpl snd.
  unfold diffuse, kernel. simpl fold_left.
  destruct (agrees_guarded arr (values s) (x + 1 <? w) (x + 1) y (err * 7 / 16)
              (shift c (1, 0)%Z) (err' * (7 # 16))) as [Hs1 Ha1]; try done.
  { unfold c, shift. simpl. replace (Z.of_nat x + 1)%Z with (Z.of_nat (x + 1)) by lia.
    replace (Z.of_nat y + 0)%Z with (Z.of_nat y) by lia. rewrite in_grid_nat.
    rewrite (proj2 (Nat.ltb_lt y h) Hy). by rewrite andb_true_r. }
  { intros Hg. apply Nat.ltb_lt in Hg. unfold c, shift. simpl.
    repeat split; try done. f_equal; lia. }
  { rewrite Herr. field. }
  set (a1 := if x + 1 <? w then add_at arr y (x + 1) (err * 7 / 16) else arr) in *.
  set (v1 := if in_grid w h (shift c (1, 0)%Z)
             then deposit (values s) (shift c (1, 0)%Z) (err' * (7 # 16))
             else values s) in *.
  destruct (agrees_guarded a1 v1 ((y + 1 <? h) && (0 <? x)) (x - 1) (y + 1)
              (err * 3 / 16) (shift c (-1, 1)%Z) (err' * (3 # 16))) as [Hs2 Ha2];
    try done.
  { unfold c, shift, in_grid. simpl.
    destruct (Nat.ltb_spec (y + 1) h), (Nat.ltb_spec 0 x);
      repeat match goal with
             | |- context [(?a <=? ?b)%Z] => destruct (Z.leb_spec a b)
             | |- context [(?a <? ?b)%Z] => destruct (Z.ltb_spec a b)
             end; simpl; try reflexivity; lia. }
  { intros Hg. apply andb_true_iff in Hg as [H1 H2].
    apply Nat.ltb_lt in H1, H2. unfold c, shift. simpl.
    repeat split; try lia. f_equal; lia. }
  { rewrite Herr. field. }
  set (a2 := if (y + 1 <? h) && (0 <? x) then add_at a1 (y + 1) (x - 1) (err * 3 / 16)
             else a1) in *.
  set (v2 := if in_grid w h (shift c (-1, 1)%Z)
             then deposit v1 (shift c (-1, 1)%Z) (err' * (3 # 16)) else v1) in *.
  destruct (agrees_guarded a2 v2 (y + 1 <? h) x (y + 1)
              (err * 5 / 16) (shift c (0, 1)%Z) (err' * (5 # 16))) as [Hs3 Ha3];
    try done.
  { unfold c, shift. simpl. replace (Z.of_nat x + 0)%Z with (Z.of_nat x) by lia.
    replace (Z.of_nat y + 1)%Z with (Z.of_nat (y + 1)) by lia. rewrite in_grid_nat.
    by rewrite (proj2 (Nat.ltb_lt x w) Hx). }
  { intros Hg. apply Nat.ltb_lt in Hg. unfold c, shift. simpl.
    repeat split; try done. f_equal; lia. }
  { rewrite Herr. field. }
  set (a3 := if y + 1 <? h then add_at a2 (y + 1) x (err * 5 / 16) else a2) in *.
  set (v3 := if in_grid w h (shift c (0, 1)%Z)
             then deposit v2 (shift c (0, 1)%Z) (err' * (5 # 16)) else v2) in *.
  destruct (agrees_guarded a3 v3 ((y + 1 <? h) && (x + 1 <? w)) (x + 1) (y + 1)
              (err * 1 / 16) (shift c (1, 1)%Z) (err' * (1 # 16))) as [Hs4 Ha4];
    try done.
  { unfold c, shift. simpl. replace (Z.of_nat x + 1)%Z with (Z.of_nat (x + 1)) by lia.
    replace (Z.of_nat y + 1)%Z with (Z.of_nat (y + 1)) by lia. rewrite in_grid_nat.
    apply andb_comm. }
  { intros Hg. apply andb_true_iff in Hg as [H1 H2].
    apply Nat.ltb_lt in H1, H2. unfold c, shift. simpl.
    repeat split; try done. f_equal; lia. }
  { rewrite Herr. field. }
  split; [done|]. split; [by apply shaped_set_at|].
  intros x' y' Hx' Hy'. split; [by apply Ha4|].
  cbn [output]. case_decide as Heq.
  - injection Heq as Hx'' Hy''. apply Nat2Z.inj in Hx'', Hy''. subst.
    by rewrite (cell_set_at_same w h).
  - rewrite cell_set_at_other; [by apply Hcells|].
    destruct (decide (y' = y)) as [->|]; [|by left].
    right. intros ->. done.
Qed.

Lemma fs_cells_sim st s y xs :
  y < h -> Forall (fun x => x < w) xs -> fs_sim w h st s ->
  fs_sim w h (fold_left (fs_cell w h y) xs st)
         (fold_left (ref_cell w h) (map (fun x => (Z.of_nat x, Z.of_nat y)) xs) s).
Proof.
  intros Hy Hxs. revert st s. induction Hxs as [|x xs Hx _ IH]; intros st s Hsim; [done|].
  simpl. apply IH. by apply fs_cell_sim.
Qed.

Lemma fs_row_sim st s y :
  y < h -> fs_sim w h st s ->
  fs_sim w h (fs_row w h st y) (fold_left (ref_cell w h) (ref_row w y) s).
Proof.
  intros Hy. apply fs_cells_sim; [done|].
  apply Forall_forall. intros x Hx. apply list_elem_of_In, in_seq in Hx. lia.
Qed.

Lemma fs_rows_sim st s ys :
  Forall (fun y => y < h) ys -> fs_sim w h st s ->
  fs_sim w h (fold_left (fs_row w h) ys st)
         (fold_left (ref_cell w h) (flat_map (ref_row w) ys) s).
Proof.
  intros Hys. revert st s. induction Hys as [|y ys Hy _ IH]; intros st s Hsim; [done|].
  simpl. rewrite fold_left_app. apply IH. by apply fs_row_sim.
Qed.
End Refinement.

Lemma shaped_replicate {A} w h (d : A) : shaped w h (replicate h (replicate w d)).
Proof.
  split; [apply length_replicate|].
  apply Forall_forall. intros row Hrow. apply elem_of_replicate in Hrow as [-> _].
  apply length_replicate.
Qed.

Lemma cell_replicate {A} w h (d : A) y x : cell d (replicate h (replicate w d)) y x = d.
Proof.
  unfold cell. destruct (replicate h (replicate w d) !! y) as [row|] eqn:E; [|done].
  apply lookup_replicate in E as [-> _]. simpl.
  destruct (replicate w d !! x) as [c|] eqn:E'; [|done].
  by apply lookup_replicate in E' as [-> _].
Qed.

(** On a plane that covers the grid the pass returns a plane of the shape
    of the grid that holds the outputs of the reference. *)
Lemma floyd_steinberg_reference img w h :
  covers img w h ->
  exists out,
    floyd_steinberg_dither_channel img w h = Ok out /\
    shaped w h out /\
    forall x y, x < w -> y < h ->
      cell 0%Z out y x = error_diffusion w h (field_of img) (Z.of_nat x, Z.of_nat y).
Proof.
  intros Hcov. unfold floyd_steinberg_dither_channel.
  destruct (copy_plane_ok img w h Hcov) as [arr Harr]. rewrite Harr. simpl.
  destruct (copy_plane_spec img w h arr Harr) as [Hshape Hcopy].
  eexists. split; [done|].
  assert (Hinit : fs_sim w h (arr, replicate h (replicate w 0%Z))
                         (ref_init (field_of img))).
  { split; [done|]. split; [apply shaped_replicate|].
    intros x y Hx Hy. simpl. split.
    - unfold field_of. simpl. rewrite !Nat2Z.id. by rewrite Hcopy.
    - apply cell_replicate. }
  pose proof (fs_rows_sim w h _ _ (seq 0 h)
                ltac:(apply Forall_forall; intros y Hy;
                      apply list_elem_of_In, in_seq in Hy; lia) Hinit)
    as (_ & Hout & Hcells).
  split; [done|]. intros x y Hx Hy. by apply Hcells.
Qed.

Lemma threshold_binary q : threshold q = 0%Z \/ threshold q = 1%Z.
Proof. unfold threshold. destruct (Qle_bool (1 # 2) q); auto. Qed.

Lemma ref_output_binary w h cells s :
  (forall c, output s c = 0%Z \/ output s c = 1%Z) ->
  forall c, output (fold_left (ref_cell w h) cells s) c = 0%Z \/
            output (fold_left (ref_cell w h) cells s) c = 1%Z.
Proof.
  revert s. induction cells as [|c0 cells IH]; intros s Hs; [done|].
  simpl. apply IH. intros c. simpl. case_decide; [apply threshold_binary|apply Hs].
Qed.

Example error_diffusion_2x2 :
  map (error_diffusion 2 2 (field_of [[0.75; 0.75]; [0.75; 0.75]]%Q)) (ref_cells 2 2)
  = [1; 1; 1; 0]%Z.
Proof. by vm_compute. Qed.

(** ** Sums over positions *)





Lemma Fsum_nonneg f l : (forall n, n ∈ l -> (0 <= f n)%Q) -> (0 <= Fsum f l)%Q.
Proof.
  unfold Fsum. induction l as [|a l IH]; intros H; simpl; [lra|].
  pose proof (H a ltac:(left)). pose proof (IH ltac:(intros; apply H; by right)). lra.
Qed.



(** ** What one cell adds to the others *)

Lemma weight_to_unfold c n :
  weight_to c n
  = ((if decide (shift c (1, 0)%Z = n) then 7 # 16 else 0) +
     ((if decide (shift c (-1, 1)%Z = n) then 3 # 16 else 0) +
      ((if decide (shift c (0, 1)%Z = n) then 5 # 16 else 0) +
       ((if decide (shift c (1, 1)%Z = n) then 1 # 16 else 0) + 0))))%Q.
Proof. reflexivity. Qed.




(** After the diffusion from [c], a position of the grid holds what it
    held plus the error times the weight sent to it. *)
Lemma diffuse_at w h v c e n :
  in_grid w h n = true ->
  (diffuse w h v c e n == v n + e * weight_to c n)%Q.
Proof.
  intros Hn. rewrite weight_to_unfold. unfold diffuse, kernel. cbn [fold_left].
  unfold deposit.
  destruct (in_grid w h (shift c (1, 0)%Z)) eqn:E1;
  destruct (in_grid w h (shift c (-1, 1)%Z)) eqn:E2;
  destruct (in_grid w h (shift c (0, 1)%Z)) eqn:E3;
  destruct (in_grid w h (shift c (1, 1)%Z)) eqn:E4;
  repeat case_decide; subst; try congruence; lra.
Qed.

(** ** The cells of the grid in row-major order *)

Lemma elem_of_ref_row w y n :
  n ∈ ref_row w y <-> exists x, x < w /\ n = (Z.of_nat x, Z.of_nat y).
Proof.
  unfold ref_row. rewrite list_elem_of_In, in_map_iff. split.
  - intros (x & <- & Hx). apply in_seq in Hx. exists x. split; [lia|done].
  - intros (x & Hx & ->). exists x. split; [done|]. apply in_seq. lia.
Qed.

Lemma elem_of_ref_cells w h n : n ∈ ref_cells w h <-> in_grid w h n = true.
Proof.
  unfold ref_cells. rewrite list_elem_of_In, in_flat_map. split.
  - intros (y & Hy & Hn). apply in_seq in Hy.
    apply list_elem_of_In, elem_of_ref_row in Hn as (x & Hx & ->).
    rewrite in_grid_nat. apply andb_true_iff. split; apply Nat.ltb_lt; lia.
  - intros Hn. destruct n as [nx ny]. unfold in_grid in Hn. simpl in Hn.
    apply andb_true_iff in Hn as [Hn H4]. apply andb_true_iff in Hn as [Hn H3].
    apply andb_true_iff in Hn as [H1 H2].
    apply Z.leb_le in H1, H3. apply Z.ltb_lt in H2, H4.
    exists (Z.to_nat ny). split; [apply in_seq; lia|].
    apply list_elem_of_In, elem_of_ref_row. exists (Z.to_nat nx).
    split; [lia|]. f_equal; lia.
Qed.

Lemma seq_sorted a n : StronglySorted lt (seq a n).
Proof.
  revert a. induction n as [|n IH]; intros a; simpl; constructor; [apply IH|].
  apply Forall_forall. intros b Hb. apply list_elem_of_In, in_seq in Hb. lia.
Qed.

Lemma ref_row_sorted w y : StronglySorted before (ref_row w y).
Proof.
  unfold ref_row. apply (StronglySorted_fmap _ lt); [|apply seq_sorted].
  intros a b Hab. right. simpl. lia.
Qed.

Lemma ref_rows_sorted w ys :
  StronglySorted lt ys -> StronglySorted before (flat_map (ref_row w) ys).
Proof.
  induction 1 as [|y ys Hs IH Hy]; simpl; [constructor|].
  apply StronglySorted_app_2; [|apply ref_row_sorted|done].
  intros a b Ha Hb. apply elem_of_ref_row in Ha as (x & _ & ->).
  apply list_elem_of_In, in_flat_map in Hb as (y' & Hy' & Hb).
  apply list_elem_of_In, elem_of_ref_row in Hb as (x' & _ & ->).
  left. simpl. apply list_elem_of_In in Hy'.
  pose proof (proj1 (Forall_forall _ _) Hy y' Hy'). lia.
Qed.

Lemma ref_cells_sorted w h : StronglySorted before (ref_cells w h).
Proof. apply ref_rows_sorted, seq_sorted. Qed.

Lemma before_irrefl a : ~ before a a.
Proof. unfold before. lia. Qed.


Lemma sorted_NoDup (l : list point) : StronglySorted before l -> NoDup l.
Proof.
  induction 1 as [|a l Hs IH Ha]; constructor; [|done].
  intros Hin. apply (before_irrefl a). by apply (proj1 (Forall_forall _ _) Ha).
Qed.




Lemma shift_inj p p' off : shift p off = shift p' off -> p = p'.
Proof.
  destruct p, p', off. unfold shift. simpl. intros [= H1 H2]. f_equal; lia.
Qed.




(** ** The invariant of the reference pass *)









(** ** The weight lost at the border *)













(** ** Coverage of the dithered plane *)

Lemma row_major_ref_cells w h :
  map (fun p => (Z.of_nat (fst p), Z.of_nat (snd p))) (row_major w h) = ref_cells w h.
Proof.
  unfold row_major, ref_cells. induction (seq 0 h) as [|y ys IH]; [done|].
  cbn [mbind list_bind flat_map]. rewrite map_app. f_equal; [|exact IH].
  unfold ref_row. clear. induction (seq 0 w) as [|x xs IH]; [done|].
  cbn [mbind list_bind]. simpl. f_equal. exact IH.
Qed.

Lemma elem_of_row_major w h p : p ∈ row_major w h -> fst p < w /\ snd p < h.
Proof.
  intros Hp.
  assert ((Z.of_nat (fst p), Z.of_nat (snd p)) ∈ ref_cells w h) as Hin.
  { rewrite <- row_major_ref_cells. apply list_elem_of_In, in_map_iff.
    exists p. split; [done|]. by apply list_elem_of_In. }
  apply elem_of_ref_cells in Hin. rewrite in_grid_nat in Hin.
  apply andb_true_iff in Hin as [H1 H2]. apply Nat.ltb_lt in H1, H2. done.
Qed.










(** ** The pass leaves the lists it is given alone *)

Section Frame.
Variable σ0 : gmap nat (list Q).

Lemma keeps_ret {A} (a : A) (post : A -> Prop) : post a -> keeps σ0 (mret a) post.
Proof. intros Ha σ r σ' Hsub [= <- <-]. split; [done|]. by intros a' [= <-]. Qed.

Lemma keeps_bind {A B} (m : St A) (f : A -> St B) (mid : A -> Prop) (post : B -> Prop) :
  keeps σ0 m mid -> (forall a, mid a -> keeps σ0 (f a) post) ->
  keeps σ0 (m ≫= f) post.
Proof.
  intros Hm Hf σ r σ' Hsub Hrun. unfold mbind, St_bind in Hrun.
  destruct (m σ) as [[a|e] σ1] eqn:E.
  - destruct (Hm σ _ σ1 Hsub E) as [Hsub1 Ha]. by apply (Hf a (Ha a eq_refl) σ1).
  - destruct (Hm σ _ σ1 Hsub E) as [Hsub1 _]. injection Hrun as <- <-.
    split; [done|]. intros b Hb. discriminate Hb.
Qed.

Lemma keeps_row_at a y : keeps σ0 (row_at a y) (fun l => l ∈ a).
Proof.
  intros σ r σ' Hsub. unfold row_at. destruct (a !! y) as [l'|] eqn:E.
  - intros [= <- <-]. split; [done|]. intros l [= <-].
    by eapply list_elem_of_lookup_2.
  - intros [= <- <-]. split; [done|]. intros l Hl. discriminate Hl.
Qed.

Lemma keeps_load l i : keeps σ0 (load l i) (fun _ => True).
Proof.
  intros σ r σ' Hsub. unfold load.
  destruct (σ !! l ≫= _); intros [= <- <-]; done.
Qed.

Lemma keeps_new_list row : keeps σ0 (new_list row) (new_in σ0).
Proof.
  intros σ r σ' Hsub. unfold new_list. intros [= <- <-].
  assert (Hfresh : σ !! fresh (dom σ) = None).
  { apply not_elem_of_dom. apply is_fresh. }
  assert (Hnew : σ0 !! fresh (dom σ) = None).
  { destruct (σ0 !! fresh (dom σ)) as [r|] eqn:E; [|done].
    eapply lookup_weaken in E; [|done]. congruence. }
  split; [|by intros l [= <-]]. etrans; [done|]. by apply insert_subseteq.
Qed.

Lemma keeps_store l i v : new_in σ0 l -> keeps σ0 (store l i v) (fun _ => True).
Proof.
  intros Hl σ r σ' Hsub. unfold store. destruct (σ !! l) as [row|].
  - case_decide; intros [= <- <-]; [|done]. split; [|done].
    by apply insert_subseteq_r.
  - by intros [= <- <-].
Qed.

Lemma keeps_incr a y x v :
  Forall (new_in σ0) a -> keeps σ0 (incr a y x v) (fun _ => True).
Proof.
  intros Ha. unfold incr.
  eapply keeps_bind; [apply keeps_row_at|]. intros l Hl.
  eapply keeps_bind; [apply keeps_load|]. intros old _.
  apply keeps_store. by eapply (proj1 (Forall_forall _ _) Ha).
Qed.

Lemma keeps_when b m : keeps σ0 m (fun _ => True) -> keeps σ0 (when b m) (fun _ => True).
Proof. intros Hm. destruct b; [done|by apply keeps_ret]. Qed.

Lemma keeps_for {A} (l : list A) body :
  (forall a, keeps σ0 (body a) (fun _ => True)) ->
  keeps σ0 (for_ l body) (fun _ => True).
Proof.
  intros Hbody. induction l as [|a l IH]; simpl; [by apply keeps_ret|].
  eapply keeps_bind; [apply Hbody|]. intros _ _. exact IH.
Qed.

Lemma keeps_mapM {A B} (f : A -> St B) (post : B -> Prop) l :
  (forall a, keeps σ0 (f a) post) -> keeps σ0 (mapM f l) (Forall post).
Proof.
  intros Hf. induction l as [|a l IH]; simpl; [by apply keeps_ret|].
  eapply keeps_bind; [apply Hf|]. intros b Hb.
  eapply keeps_bind; [apply IH|]. intros bs Hbs.
  apply keeps_ret. by constructor.
Qed.

Lemma keeps_fs_cell w h arr out y x :
  Forall (new_in σ0) arr -> Forall (new_in σ0) out ->
  keeps σ0 (fs_cell_st w h arr out y x) (fun _ => True).
Proof.
  intros Harr Hout. unfold fs_cell_st.
  eapply keeps_bind; [apply keeps_row_at|]. intros ra _.
  eapply keeps_bind; [apply keeps_load|]. intros old _.
  eapply keeps_bind; [apply keeps_row_at|]. intros ro Hro.
  eapply keeps_bind.
  { apply keeps_store. by eapply (proj1 (Forall_forall _ _) Hout). }
  intros _ _.
  repeat (eapply keeps_bind; [by apply keeps_when, keeps_incr|]; intros _ _).
  by apply keeps_when, keeps_incr.
Qed.

Lemma keeps_floyd_steinberg img w h :
  keeps σ0 (floyd_steinberg_dither_channel_st img w h) (Forall (new_in σ0)).
Proof.
  unfold floyd_steinberg_dither_channel_st.
  eapply keeps_bind.
  { apply keeps_mapM. intros y.
    eapply keeps_bind.
    - apply (keeps_mapM _ (fun _ => True)). intros x.
      eapply keeps_bind; [apply keeps_row_at|]. intros r _. apply keeps_load.
    - intros row _. apply keeps_new_list. }
  intros arr Harr.
  eapply keeps_bind.
  { apply keeps_mapM. intros _. apply keeps_new_list. }
  intros out Hout.
  eapply keeps_bind.
  { apply keeps_for. intros y. apply keeps_for. intros x. by apply keeps_fs_cell. }
  intros _ _. by apply keeps_ret.
Qed.
End Frame.

(** C10: after a call of the pass, whether it returns or raises, every list
    object that was in the store before the call is in the store with the
    same elements, in particular every row of the plane passed in; and
    when the pass returns, the rows of the plane it returns are objects
    that were not in the store before. *)
Theorem floyd_steinberg_keeps_input (σ : gmap nat (list Q)) (img_chan : list nat)
    (w h : nat) :
  let (r, σ') := floyd_steinberg_dither_channel_st img_chan w h σ in
  (forall l row, σ !! l = Some row -> σ' !! l = Some row) /\
  (forall y l row, img_chan !! y = Some l -> σ !! l = Some row -> σ' !! l = Some row) /\
  (forall out, r = Ok out -> Forall (fun l => σ !! l = None) out).
Proof.
  destruct (floyd_steinberg_dither_channel_st img_chan w h σ) as [r σ'] eqn:Hrun.
  destruct (keeps_floyd_steinberg σ img_chan w h σ r σ' ltac:(done) Hrun)
    as [Hsub Hout].
  split; [|split; [|exact Hout]].
  - intros l row Hl. exact (lookup_weaken _ _ _ _ Hl Hsub).
  - intros y l row _ Hl. exact (lookup_weaken _ _ _ _ Hl Hsub).
Qed.

Lemma floyd_steinberg_keeps_input_witness :
  exists out σ',
    floyd_steinberg_dither_channel_st sample_plane 2 2 sample_store = (Ok out, σ') /\
    σ' !! 0 = Some [0.75; 0.75]%Q /\ σ' !! 1 = Some [0.75; 0.75]%Q /\
    Forall (fun l => sample_store !! l = None) out.
Proof.
  pose proof (floyd_steinberg_keeps_input sample_store sample_plane 2 2) as H.
  destruct (floyd_steinberg_dither_channel_st sample_plane 2 2 sample_store)
    as [[out|e] σ'] eqn:E; [|vm_compute in E; discriminate E].
  exists out, σ'. split; [done|]. destruct H as (Hkeep & _ & Hnew).
  split; [by apply Hkeep|]. split; [by apply Hkeep|]. by apply Hnew.
Defined.

(** ** The pass on the store computes what the pass on lists computes *)

Lemma bind_ok {A B} (m : St A) (f : A -> St B) σ a σ1 :
  m σ = (Ok a, σ1) -> (m ≫= f) σ = f a σ1.
Proof. intros H. unfold mbind, St_bind. by rewrite H. Qed.

Lemma row_at_ok a y l σ : a !! y = Some l -> row_at a y σ = (Ok l, σ).
Proof. intros H. unfold row_at. by rewrite H. Qed.

Lemma load_ok (σ : gmap nat (list Q)) l i row v :
  σ !! l = Some row -> row !! i = Some v -> load l i σ = (Ok v, σ).
Proof. intros Hl Hi. unfold load. rewrite Hl. simpl. by rewrite Hi. Qed.

Lemma store_ok (σ : gmap nat (list Q)) l i v row :
  σ !! l = Some row -> i < length row ->
  store l i v σ = (Ok tt, <[l := <[i := v]> row]> σ).
Proof. intros Hl Hi. unfold store. rewrite Hl. by rewrite decide_True. Qed.

Lemma incr_ok (σ : gmap nat (list Q)) a y x v l row old :
  a !! y = Some l -> σ !! l = Some row -> row !! x = Some old ->
  incr a y x v σ = (Ok tt, <[l := <[x := (old + v)%Q]> row]> σ).
Proof.
  intros Ha Hl Hx. unfold incr.
  rewrite (bind_ok _ _ _ _ _ (row_at_ok a y l σ Ha)).
  rewrite (bind_ok _ _ _ _ _ (load_ok σ l x row old Hl Hx)).
  apply store_ok; [done|]. by eapply lookup_lt_Some.
Qed.

Lemma holds_lookup σ ls rows y l :
  holds σ ls rows -> ls !! y = Some l ->
  exists row, rows !! y = Some row /\ σ !! l = Some row.
Proof. intros H Hl. destruct (Forall2_lookup_l _ _ _ _ _ H Hl) as (row & ? & ?). eauto. Qed.

Lemma holds_index σ ls rows y row :
  holds σ ls rows -> rows !! y = Some row ->
  exists l, ls !! y = Some l /\ σ !! l = Some row.
Proof. intros H Hr. destruct (Forall2_lookup_r _ _ _ _ _ H Hr) as (l & ? & ?). eauto. Qed.

Lemma holds_elsewhere (σ : gmap nat (list Q)) ls rows l r :
  holds σ ls rows -> l ∉ ls -> holds (<[l := r]> σ) ls rows.
Proof.
  intros H Hl. unfold holds in *. induction H as [|l' row ls rows Hrow H IH];
    constructor.
  - rewrite lookup_insert_ne; [done|]. intros ->. apply Hl. left.
  - apply IH. intros Hin. apply Hl. by right.
Qed.

Lemma holds_update (σ : gmap nat (list Q)) ls rows y l r :
  holds σ ls rows -> NoDup ls -> ls !! y = Some l ->
  holds (<[l := r]> σ) ls (<[y := r]> rows).
Proof.
  intros H. revert y. unfold holds in *.
  induction H as [|l' row ls rows Hrow H IH]; intros y Hnd Hy; [done|].
  apply NoDup_cons in Hnd as [Hl' Hnd]. destruct y as [|y]; simpl in *.
  - injection Hy as ->. constructor; [by rewrite lookup_insert_eq|].
    by apply holds_elsewhere.
  - constructor; [|by apply IH].
    rewrite lookup_insert_ne; [done|]. intros ->. apply Hl'.
    by eapply list_elem_of_lookup_2.
Qed.

Lemma alter_as_insert {A} (f : A -> A) (l : list A) i a :
  l !! i = Some a -> alter f i l = <[i := f a]> l.
Proof.
  revert i. induction l as [|b l IH]; intros [|i] H; simpl in *; try done.
  - by injection H as ->.
  - f_equal. by apply IH.
Qed.

Section StoreSim.
Variables w h : nat.
Variables arr out : list nat.

Lemma st_sim_read σ A O y x :
  st_sim w h σ arr out (A, O) -> y < h -> x < w ->
  exists l row, arr !! y = Some l /\ A !! y = Some row /\ σ !! l = Some row /\
                row !! x = Some (cell 0%Q A y x).
Proof.
  intros (HA & _ & _ & HsA & _) Hy Hx. simpl in *.
  destruct (shaped_lookup w h A y HsA Hy) as (row & Hrow & Hlen).
  destruct (holds_index σ arr A y row HA Hrow) as (l & Hl & Hσ).
  destruct (lookup_lt_is_Some_2 row x) as [v Hv]; [lia|].
  exists l, row. repeat split; try done. unfold cell. rewrite Hrow. simpl.
  by rewrite Hv.
Qed.

Lemma st_sim_incr σ A O y x v :
  st_sim w h σ arr out (A, O) -> y < h -> x < w ->
  exists σ', incr arr y x v σ = (Ok tt, σ') /\
             st_sim w h σ' arr out (add_at A y x v, O).
Proof.
  intros Hsim Hy Hx.
  destruct (st_sim_read σ A O y x Hsim Hy Hx) as (l & row & Hl & Hrow & Hσ & Hv).
  destruct Hsim as (HA & HO & Hnd & HsA & HsO). simpl in *.
  eexists. split; [by eapply incr_ok|].
  assert (Hadd : add_at A y x v = <[y := <[x := (cell 0%Q A y x + v)%Q]> row]> A).
  { unfold add_at. rewrite (alter_as_insert _ A y row Hrow).
    by rewrite (alter_as_insert _ row x _ Hv). }
  split; [|split; [|split; [done|split; [by apply shaped_add_at|done]]]]; simpl.
  - rewrite Hadd. apply holds_update; [done| |done].
    by apply NoDup_app in Hnd as (? & _ & _).
  - apply holds_elsewhere; [done|]. apply NoDup_app in Hnd as (_ & Hdisj & _).
    apply Hdisj. by eapply list_elem_of_lookup_2.
Qed.

Lemma st_sim_when_incr σ A O (g : bool) y x v :
  st_sim w h σ arr out (A, O) -> (g = true -> y < h /\ x < w) ->
  exists σ', when g (incr arr y x v) σ = (Ok tt, σ') /\
             st_sim w h σ' arr out (if g then add_at A y x v else A, O).
Proof.
  intros Hsim Hg. destruct g; [|by exists σ].
  destruct (Hg eq_refl). by apply st_sim_incr.
Qed.

Lemma st_sim_store_out σ A O y x (b : Z) :
  st_sim w h σ arr out (A, O) -> y < h -> x < w ->
  exists σ', (ro ← row_at out y; store ro x (inject_Z b)) σ = (Ok tt, σ') /\
             st_sim w h σ' arr out (A, set_at O y x b).
Proof.
  intros (HA & HO & Hnd & HsA & HsO) Hy Hx. simpl in *.
  destruct (shaped_lookup w h O y HsO Hy) as (orow & Horow & Hlen).
  destruct (holds_index σ out (map (map inject_Z) O) y (map inject_Z orow) HO)
    as (l & Hl & Hσ).
  { by rewrite list_lookup_fmap, Horow. }
  eexists. split.
  { rewrite (bind_ok _ _ _ _ _ (row_at_ok out y l σ Hl)).
    apply store_ok; [done|]. rewrite length_map. lia. }
  assert (Hset : map (map inject_Z) (set_at O y x b)
                 = <[y := <[x := inject_Z b]> (map inject_Z orow)]>
                     (map (map inject_Z) O)).
  { unfold set_at. rewrite (alter_as_insert _ O y orow Horow).
    rewrite (list_fmap_insert (map inject_Z) O y).
    f_equal. apply (list_fmap_insert inject_Z). }
  split; [|split; [|split; [done|split; [done|by apply shaped_set_at]]]]; simpl.
  - apply holds_elsewhere; [done|]. apply NoDup_app in Hnd as (_ & Hdisj & _).
    intros Hin. apply (Hdisj l Hin). by eapply list_elem_of_lookup_2.
  - rewrite Hset. apply holds_update; [done| |done].
    by apply NoDup_app in Hnd as (_ & _ & ?).
Qed.

Lemma fs_cell_st_sim σ st y x :
  st_sim w h σ arr out st -> y < h -> x < w ->
  exists σ', fs_cell_st w h arr out y x σ = (Ok tt, σ') /\
             st_sim w h σ' arr out (fs_cell w h y st x).
Proof.
  destruct st as [A O]. intros Hsim Hy Hx.
  destruct (st_sim_read σ A O y x Hsim Hy Hx) as (l & row & Hl & Hrow & Hσ & Hv).
  unfold fs_cell_st, fs_cell.
  rewrite (bind_ok _ _ _ _ _ (row_at_ok arr y l σ Hl)).
  rewrite (bind_ok _ _ _ _ _ (load_ok σ l x row _ Hσ Hv)).
  set (old := cell 0%Q A y x).
  set (new := if Qle_bool 0.5 old then 1%Z else 0%Z).
  set (err := (old - inject_Z new)%Q).
  destruct (st_sim_store_out σ A O y x new Hsim Hy Hx) as (σ1 & Hrun1 & Hsim1).
  unfold mbind at 1, St_bind at 1. unfold mbind at 1, St_bind at 1 in Hrun1.
  destruct (row_at out y σ) as [[ro|e] σr] eqn:Ero; [|by injection Hrun1].
  unfold mbind at 1, St_bind at 1. rewrite Hrun1.
  destruct (st_sim_when_incr σ1 A (set_at O y x new) (x + 1 <? w) y (x + 1)
              (err * 7 / 16) Hsim1) as (σ2 & Hrun2 & Hsim2).
  { intros Hg. apply Nat.ltb_lt in Hg. lia. }
  rewrite (bind_ok _ _ _ _ _ Hrun2).
  destruct (st_sim_when_incr σ2 _ (set_at O y x new) ((y + 1 <? h) && (0 <? x))
              (y + 1) (x - 1) (err * 3 / 16) Hsim2) as (σ3 & Hrun3 & Hsim3).
  { intros Hg. apply andb_true_iff in Hg as [H1 H2]. apply Nat.ltb_lt in H1, H2. lia. }
  rewrite (bind_ok _ _ _ _ _ Hrun3).
  destruct (st_sim_when_incr σ3 _ (set_at O y x new) (y + 1 <? h)
              (y + 1) x (err * 5 / 16) Hsim3) as (σ4 & Hrun4 & Hsim4).
  { intros Hg. apply Nat.ltb_lt in Hg. lia. }
  rewrite (bind_ok _ _ _ _ _ Hrun4).
  destruct (st_sim_when_incr σ4 _ (set_at O y x new) ((y + 1 <? h) && (x + 1 <? w))
              (y + 1) (x + 1) (err * 1 / 16) Hsim4) as (σ5 & Hrun5 & Hsim5).
  { intros Hg. apply andb_true_iff in Hg as [H1 H2]. apply Nat.ltb_lt in H1, H2. lia. }
  exists σ5. split; [exact Hrun5|exact Hsim5].
Qed.

Lemma for_cells_sim σ st y xs :
  st_sim w h σ arr out st -> y < h -> Forall (fun x => x < w) xs ->
  exists σ', for_ xs (fun x => fs_cell_st w h arr out y x) σ = (Ok tt, σ') /\
             st_sim w h σ' arr out (fold_left (fs_cell w h y) xs st).
Proof.
  intros Hsim Hy Hxs. revert σ st Hsim.
  induction Hxs as [|x xs Hx _ IH]; intros σ st Hsim; [by exists σ|].
  destruct (fs_cell_st_sim σ st y x Hsim Hy Hx) as (σ1 & Hrun & Hsim1).
  destruct (IH σ1 _ Hsim1) as (σ2 & Hrun2 & Hsim2).
  exists σ2. split; [|done]. simpl. by rewrite (bind_ok _ _ _ _ _ Hrun).
Qed.

Lemma for_rows_sim σ st ys :
  st_sim w h σ arr out st -> Forall (fun y => y < h) ys ->
  exists σ',
    for_ ys (fun y => for_ (seq 0 w) (fun x => fs_cell_st w h arr out y x)) σ
    = (Ok tt, σ') /\
    st_sim w h σ' arr out (fold_left (fs_row w h) ys st).
Proof.
  intros Hsim Hys. revert σ st Hsim.
  induction Hys as [|y ys Hy _ IH]; intros σ st Hsim; [by exists σ|].
  destruct (for_cells_sim σ st y (seq 0 w) Hsim Hy) as (σ1 & Hrun & Hsim1).
  { apply Forall_forall. intros x Hx. apply list_elem_of_In, in_seq in Hx. lia. }
  destruct (IH σ1 _ Hsim1) as (σ2 & Hrun2 & Hsim2).
  exists σ2. split; [|done]. simpl. by rewrite (bind_ok _ _ _ _ _ Hrun).
Qed.
End StoreSim.

Lemma holds_weaken (σ σ' : gmap nat (list Q)) ls rows :
  holds σ ls rows -> σ ⊆ σ' -> holds σ' ls rows.
Proof.
  intros H Hsub. unfold holds in *. eapply Forall2_impl; [exact H|].
  intros l row Hl. exact (lookup_weaken _ _ _ _ Hl Hsub).
Qed.

Lemma map_replicate {A B} (f : A -> B) n a :
  map f (replicate n a) = replicate n (f a).
Proof. induction n as [|n IH]; simpl; [done|]. by rewrite IH. Qed.

(** A loop that makes one new list per element: the lists are distinct
    objects that were not in the store. *)
Lemma mapM_new_lists {B} (g : B -> St nat) (σ : gmap nat (list Q)) bs rows :
  Forall2 (fun b row => forall σ', σ ⊆ σ' -> g b σ' = new_list row σ') bs rows ->
  exists ls σ1,
    mapM g bs σ = (Ok ls, σ1) /\ holds σ1 ls rows /\ NoDup ls /\
    Forall (fun l => σ !! l = None) ls /\ σ ⊆ σ1.
Proof.
  intros H. revert σ rows H. induction bs as [|b bs IH]; intros σ rows H.
  - apply Forall2_nil_inv_l in H as ->. exists [], σ.
    repeat split; try done; constructor.
  - apply Forall2_cons_inv_l in H as (row & rows' & Hb & H & ->).
    set (l := fresh (dom σ)). set (σa := <[l := row]> σ).
    assert (Hfresh : σ !! l = None) by (apply not_elem_of_dom, is_fresh).
    assert (Hsub : σ ⊆ σa) by (by apply insert_subseteq).
    destruct (IH σa rows') as (ls & σ1 & Hrun & Hholds & Hnd & Hnew & Hsub1).
    { eapply Forall2_impl; [exact H|]. intros b' row' Hg σ' Hσ'.
      apply Hg. by etrans. }
    exists (l :: ls), σ1. split; [|split; [|split; [|split]]].
    + cbn [mapM]. rewrite (bind_ok _ _ σ l σa) by (by rewrite Hb).
      rewrite (bind_ok _ _ _ _ _ Hrun). done.
    + constructor; [|done]. eapply lookup_weaken; [|done]. apply lookup_insert_eq.
    + constructor; [|done]. intros Hin.
      pose proof (proj1 (Forall_forall _ _) Hnew l Hin) as Hl.
      unfold σa in Hl. by rewrite lookup_insert_eq in Hl.
    + constructor; [done|]. eapply Forall_impl; [exact Hnew|].
      intros l' Hl'. destruct (σ !! l') as [r|] eqn:E; [|done].
      eapply lookup_weaken in E; [|exact Hsub]. congruence.
    + by etrans.
Qed.

Lemma read_row_ok σ img p y xs row :
  holds σ img p ->
  mapM (fun x => r ← getitem p y; getitem r x) xs = Ok row ->
  mapM (fun x => r ← row_at img y; load r x) xs σ = (Ok row, σ).
Proof.
  intros Hp Hrow. apply mapM_result_inv in Hrow.
  induction Hrow as [|x v xs row Hx _ IH]; [done|].
  cbn [mapM]. unfold getitem in Hx.
  destruct (p !! y) as [prow|] eqn:Ey; simpl in Hx; [|done].
  destruct (prow !! x) as [v'|] eqn:Ex; simpl in Hx; [|done]. injection Hx as ->.
  destruct (holds_index σ img p y prow Hp Ey) as (l & Hl & Hσ).
  rewrite (bind_ok _ _ σ v σ).
  2:{ rewrite (bind_ok _ _ _ _ _ (row_at_ok img y l σ Hl)). by eapply load_ok. }
  by rewrite (bind_ok _ _ _ _ _ IH).
Qed.

(** On a store that holds the plane [p] in the rows [img_chan], the pass on
    the store returns, and it returns rows that hold what the pass on lists
    computes from [p]. *)
Lemma floyd_steinberg_st_computes σ img_chan p w h o :
  holds σ img_chan p ->
  floyd_steinberg_dither_channel p w h = Ok o ->
  exists out σ',
    floyd_steinberg_dither_channel_st img_chan w h σ = (Ok out, σ') /\
    holds σ' out (map (map inject_Z) o).
Proof.
  intros Hp. unfold floyd_steinberg_dither_channel.
  destruct (copy_plane p w h) as [A|] eqn:Ecopy; simpl; [|done]. intros [= <-].
  destruct (copy_plane_spec p w h A Ecopy) as [HsA _].
  unfold floyd_steinberg_dither_channel_st.
  destruct (mapM_new_lists
              (fun y => row ← mapM (fun x => r ← row_at img_chan y; load r x) (seq 0 w);
                        new_list row) σ (seq 0 h) A)
    as (arr & σ1 & Hrun1 & Harr & Hnd1 & Hnew1 & Hsub1).
  { unfold copy_plane in Ecopy. apply mapM_result_inv in Ecopy.
    eapply Forall2_impl; [exact Ecopy|]. intros y row Hrow σ' Hσ'.
    apply bind_ok. apply (read_row_ok σ' img_chan p); [|done].
    exact (holds_weaken _ _ _ _ Hp Hσ'). }
  rewrite (bind_ok _ _ _ _ _ Hrun1).
  destruct (mapM_new_lists (fun _ : nat => new_list (replicate w 0%Q)) σ1 (seq 0 h)
              (replicate h (replicate w 0%Q)))
    as (out & σ2 & Hrun2 & Hout & Hnd2 & Hnew2 & Hsub2).
  { clear. generalize 0 as a. induction h as [|n IH]; intros a; simpl; constructor; auto. }
  rewrite (bind_ok _ _ _ _ _ Hrun2).
  assert (Hsim : st_sim w h σ2 arr out (A, replicate h (replicate w 0%Z))).
  { split; [exact (holds_weaken _ _ _ _ Harr Hsub2)|].
    split; [|split; [|split; [done|]]]; simpl.
    - by rewrite !map_replicate.
    - apply NoDup_app. split; [done|]. split; [|done]. intros l Hl Hl'.
      pose proof (proj1 (Forall_forall _ _) Hnew2 l Hl') as Hnone.
      apply list_elem_of_lookup in Hl as [y Hy].
      destruct (holds_lookup σ1 arr A y l Harr Hy) as (row & _ & Hσ1). congruence.
    - apply shaped_replicate. }
  destruct (for_rows_sim w h arr out σ2 _ (seq 0 h) Hsim) as (σ3 & Hrun3 & Hsim3).
  { apply Forall_forall. intros y Hy. apply list_elem_of_In, in_seq in Hy. lia. }
  rewrite (bind_ok _ _ _ _ _ Hrun3).
  exists out, σ3. split; [done|]. by destruct Hsim3 as (_ & Hout3 & _).
Qed.

Example floyd_steinberg_st_sample :
  exists out σ',
    floyd_steinberg_dither_channel_st sample_plane 2 2 sample_store = (Ok out, σ') /\
    holds σ' out [[1; 1]; [1; 0]]%Q.
Proof.
  apply (floyd_steinberg_st_computes sample_store sample_plane
           [[0.75; 0.75]; [0.75; 0.75]]%Q 2 2 [[1; 1]; [1; 0]]%Z).
  - by repeat constructor.
  - by vm_compute.
Qed.

(** * Part IV: further properties of the program *)

(** ** The path of the serpentine traversal *)

Lemma even_succ_negb j : Nat.even (S j) = negb (Nat.even j).
Proof. by rewrite Nat.even_succ, <- Nat.negb_even. Qed.

Lemma serpentine_indices_NoDup w h : NoDup (serpentine_indices w h).
Proof.
  rewrite serpentine_indices_rows.
  assert (Hrow : forall j, NoDup (serp_row w j)).
  { intros j. unfold serp_row.
    assert (NoDup (map (fun i => (i, j)) (seq 0 w))) as Hn.
    { apply NoDup_fmap_2_strong; [|apply NoDup_seq]. by intros a b _ _ [= ->]. }
    destruct (j mod 2 =? 1); [|done].
    by rewrite rev_is_reverse, reverse_Permutation. }
  assert (Hin : forall j p, p ∈ serp_row w j -> snd p = j).
  { intros j p Hp. unfold serp_row in Hp.
    assert (p ∈ map (fun i => (i, j)) (seq 0 w)) as Hp'.
    { destruct (j mod 2 =? 1); [|done].
      by rewrite rev_is_reverse, elem_of_reverse in Hp. }
    apply list_elem_of_In, in_map_iff in Hp' as (i & <- & _). done. }
  generalize (seq_sorted 0 h). generalize (seq 0 h). intros js Hjs.
  induction Hjs as [|j js _ IH Hj]; simpl; [constructor|].
  apply NoDup_app. split; [apply Hrow|]. split; [|done].
  intros p Hp Hp'. apply Hin in Hp.
  apply list_elem_of_In, in_flat_map in Hp' as (j' & Hj' & Hp').
  apply list_elem_of_In, Hin in Hp'. apply list_elem_of_In in Hj'.
  pose proof (proj1 (Forall_forall _ _) Hj j' Hj'). lia.
Qed.

(** X1: two consecutive steps of the traversal are neighbours on the grid: the
    next cell is the left or right neighbour in the same row, or, at the
    end of a row, the cell below in the same column. *)
Theorem serpentine_steps_are_neighbours (w h n : nat) (a b : nat * nat) :
  serpentine_indices w h !! n = Some a ->
  serpentine_indices w h !! S n = Some b ->
  (snd b = snd a /\ (fst b = S (fst a) \/ fst a = S (fst b))) \/
  (snd b = S (snd a) /\ fst b = fst a).
Proof.
  intros Ha Hb.
  assert (Hlen : S n < w * h).
  { rewrite <- serpentine_indices_length. by eapply lookup_lt_Some. }
  assert (Hw : 0 < w) by nia.
  pose proof (Nat.div_mod_eq n w) as Hdn.
  pose proof (Nat.mod_upper_bound n w ltac:(lia)) as Hbn.
  set (j := n / w) in *. set (k := n mod w) in *.
  assert (Hj : j < h) by nia.
  replace n with (j * w + k) in Ha by lia.
  rewrite serpentine_indices_lookup in Ha by done. injection Ha as <-.
  destruct (decide (S k < w)) as [Hk|Hk].
  - replace (S n) with (j * w + S k) in Hb by lia.
    rewrite serpentine_indices_lookup in Hb by done. injection Hb as <-.
    left. unfold serp_cell. cbn [fst snd]. split; [done|].
    destruct (Nat.even j); lia.
  - assert (Hj' : S j < h) by nia.
    replace (S n) with (S j * w + 0) in Hb by lia.
    rewrite serpentine_indices_lookup in Hb by done. injection Hb as <-.
    right. unfold serp_cell. cbn [fst snd]. split; [done|].
    rewrite even_succ_negb. destruct (Nat.even j); cbn [negb]; lia.
Qed.

Lemma serpentine_steps_are_neighbours_witness :
  (snd (2, 1) = snd (2, 0) /\ (fst (2, 1) = S (fst (2, 0)) \/ fst (2, 0) = S (fst (2, 1)))) \/
  (snd (2, 1) = S (snd (2, 0)) /\ fst (2, 1) = fst (2, 0)).
Proof.
  apply (serpentine_steps_are_neighbours 3 2 2 (2, 0) (2, 1)); reflexivity.
Defined.

(** ** The classification of the image in the rgb6 branch *)

Lemma for_each_prefix_inv {A S} (P : list A -> S -> Prop) (body : S -> A -> result S)
    l s0 s' :
  for_each l s0 body = Ok s' -> P [] s0 ->
  (forall pre a s s1, P pre s -> a ∈ l -> body s a = Ok s1 -> P (pre ++ [a]) s1) ->
  P l s'.
Proof.
  unfold for_each. intros Hrun H0 Hstep.
  assert (H : forall rest pre s,
            (forall a, a ∈ rest -> a ∈ l) ->
            fold_left (fun r a => s ← r; body s a) rest (Ok s) = Ok s' ->
            P pre s -> P (pre ++ rest) s').
  { induction rest as [|a rest IH]; intros pre s Hsub Hfold Hs; simpl in Hfold.
    - injection Hfold as <-. by rewrite app_nil_r.
    - destruct (body s a) as [s1|e] eqn:E.
      + replace (pre ++ a :: rest) with ((pre ++ [a]) ++ rest)
          by (by rewrite <- app_assoc).
        apply (IH _ s1); [intros; apply Hsub; by right|done|].
        eapply Hstep; [done| |done]. apply Hsub. by left.
      + exfalso. clear -Hfold. induction rest as [|b rest IH]; [done|].
        simpl in Hfold. auto. }
  apply (H l [] s0); auto.
Qed.

Lemma classify_pixel_color p c :
  classify_pixel p = Some (Some c) <->
  is_background p = false /\ nearest_palette_color p = Some c.
Proof.
  unfold classify_pixel. destruct (is_background p).
  - split; [done|]. intros [Hbg _]. discriminate Hbg.
  - split; [by intros [= ->]|by intros [_ ->]].
Qed.

(** The state of [color_points] after the pixels [pre]. *)
Lemma rgb6_points_filter getpixel grid_cols grid_rows cp :
  rgb6_points getpixel grid_cols grid_rows = Ok cp ->
  (forall c,
     cp !! c =
     if bool_decide (c ∈ map fst PALETTE_RGB)
     then Some (filter (fun p => classify_pixel (getpixel (fst p) (snd p)) = Some (Some c))
                       (row_major grid_cols grid_rows))
     else None) /\
  (forall p, p ∈ row_major grid_cols grid_rows ->
     is_background (getpixel (fst p) (snd p)) = false ->
     exists c, c ∈ map fst PALETTE_RGB /\
               nearest_palette_color (getpixel (fst p) (snd p)) = Some c).
Proof.
  unfold rgb6_points. intros Hrun.
  apply (for_each_prefix_inv
           (fun pre (cp : gmap color (list (nat * nat))) =>
              (forall c,
                 cp !! c =
                 if bool_decide (c ∈ map fst PALETTE_RGB)
                 then Some (filter (fun p => classify_pixel (getpixel (fst p) (snd p))
                                             = Some (Some c)) pre)
                 else None) /\
              (forall p, p ∈ pre ->
                 is_background (getpixel (fst p) (snd p)) = false ->
                 exists c, c ∈ map fst PALETTE_RGB /\
                           nearest_palette_color (getpixel (fst p) (snd p)) = Some c)))
    in Hrun; [done| |].
  - split; [|by intros p Hp; apply elem_of_nil in Hp].
    intros c. by destruct c; vm_compute.
  - intros pre [x y] s s1 [Hs Hnear] _ Hbody. unfold classify_pixel in Hbody.
    destruct (is_background (getpixel x y)) eqn:Hbg.
    + injection Hbody as <-. split.
      * intros c. rewrite Hs. case_bool_decide; [|done].
        rewrite filter_app, filter_cons_False, filter_nil, app_nil_r; [done|].
        simpl. rewrite classify_pixel_color. intros [? _]. congruence.
      * intros p Hp Hpb. apply elem_of_app in Hp as [Hp|Hp]; [auto|].
        apply list_elem_of_singleton in Hp as ->. simpl in Hpb. congruence.
    + destruct (nearest_palette_color (getpixel x y)) as [col|] eqn:Hcol; [|done].
      unfold dict_get in Hbody. pose proof (Hs col) as Hlook.
      destruct (s !! col) as [pts|] eqn:Hpts; simpl in Hbody; [|done].
      injection Hbody as <-.
      case_bool_decide as Hkey; [|done]. injection Hlook as ->.
      split.
      * intros c. destruct (decide (col = c)) as [<-|Hne].
        -- rewrite lookup_insert_eq, bool_decide_eq_true_2 by done.
           rewrite filter_app, filter_cons_True, filter_nil; [done|].
           simpl. rewrite classify_pixel_color. done.
        -- rewrite lookup_insert_ne, Hs by done. case_bool_decide; [|done].
           rewrite filter_app, filter_cons_False, filter_nil, app_nil_r; [done|].
           simpl. rewrite classify_pixel_color. intros [_ ?]. congruence.
      * intros p Hp Hpb. apply elem_of_app in Hp as [Hp|Hp]; [auto|].
        apply list_elem_of_singleton in Hp as ->. simpl. eauto.
Qed.

(** X3: in the rgb6 branch every reference colour gets exactly the pixels that
    are not background and whose nearest reference colour it is, in the
    order of the rows and columns; no other colour has a key.  With the
    channels of the image in [0,255] the classification raises nothing. *)
Theorem rgb6_points_sorts_the_pixels (getpixel : nat -> nat -> rgb)
    (grid_cols grid_rows : nat) :
  (forall x y, in_range (getpixel x y)) ->
  exists cp,
    rgb6_points getpixel grid_cols grid_rows = Ok cp /\
    forall c,
      cp !! c =
      if bool_decide (c ∈ map fst PALETTE_RGB)
      then Some (filter (fun p => is_background (getpixel (fst p) (snd p)) = false /\
                                  nearest_palette_color (getpixel (fst p) (snd p)) = Some c)
                        (row_major grid_cols grid_rows))
      else None.
Proof.
  intros Hpix. destruct (rgb6_points_ok getpixel grid_cols grid_rows Hpix) as (cp & Hcp & _).
  exists cp. split; [done|]. intros c.
  rewrite (proj1 (rgb6_points_filter _ _ _ _ Hcp) c).
  case_bool_decide; [|done]. f_equal. apply list_filter_iff.
  intros p. apply classify_pixel_color.
Qed.

Lemma rgb6_points_sorts_the_pixels_witness :
  exists cp,
    rgb6_points (diagonal_image 2 2) 2 2 = Ok cp /\
    cp !! black = Some [(0, 0); (1, 1)] /\ cp !! cyan = None.
Proof.
  destruct (rgb6_points_sorts_the_pixels (diagonal_image 2 2) 2 2) as (cp & Hcp & Hall).
  { intros x y. unfold diagonal_image. destruct (x =? y); simpl; lia. }
  exists cp. split; [done|]. split; [by rewrite (Hall black)|by rewrite (Hall cyan)].
Defined.

(** ** The dithering of the ink planes in the cmyk branch *)

(** The reference can be run on any plane of values that agrees with the
    rows on the grid. *)
Lemma floyd_steinberg_reference_field img w h (v : field) :
  covers img w h -> agrees w h img v ->
  exists out,
    floyd_steinberg_dither_channel img w h = Ok out /\
    shaped w h out /\
    forall x y, x < w -> y < h ->
      cell 0%Z out y x = error_diffusion w h v (Z.of_nat x, Z.of_nat y).
Proof.
  intros Hcov Hv. unfold floyd_steinberg_dither_channel.
  destruct (copy_plane_ok img w h Hcov) as [arr Harr]. rewrite Harr. simpl.
  destruct (copy_plane_spec img w h arr Harr) as [Hshape Hcopy].
  eexists. split; [done|].
  assert (Hinit : fs_sim w h (arr, replicate h (replicate w 0%Z)) (ref_init v)).
  { split; [done|]. split; [apply shaped_replicate|].
    intros x y Hx Hy. simpl. split; [|apply cell_replicate].
    rewrite Hcopy by done. by apply Hv. }
  assert (Hys : Forall (fun y => y < h) (seq 0 h)).
  { apply Forall_forall. intros y Hy. apply list_elem_of_In, in_seq in Hy. lia. }
  destruct (fs_rows_sim w h _ _ (seq 0 h) Hys Hinit) as (_ & Hout & Hcells).
  split; [done|]. intros x y Hx Hy. by apply Hcells.
Qed.

Lemma filter_ext_elem {A} (P Q : A -> Prop) `{!forall x, Decision (P x)}
    `{!forall x, Decision (Q x)} (l : list A) :
  (forall x, x ∈ l -> P x <-> Q x) -> filter P l = filter Q l.
Proof.
  induction l as [|a l IH]; intros Hext; [done|].
  rewrite !filter_cons.
  destruct (decide (P a)) as [Hp|Hp], (decide (Q a)) as [Hq|Hq].
  - f_equal. apply IH. intros; apply Hext; by right.
  - destruct Hq. apply Hext; [by left|done].
  - destruct Hp. apply Hext; [by left|done].
  - apply IH. intros; apply Hext; by right.
Qed.

(** The plane of one ink, as built by [main], holds the fractions of the
    ink on the grid. *)
Lemma ink_rows getpixel grid_cols grid_rows inks (k : cmyk_t -> Q) :
  mapM (fun y => mapM (fun x => rgb_to_cmyk (getpixel x y)) (seq 0 grid_cols))
       (seq 0 grid_rows) = Ok inks ->
  covers (map (map k) inks) grid_cols grid_rows /\
  agrees grid_cols grid_rows (map (map k) inks) (ink_plane getpixel k).
Proof.
  intros Hinks. pose proof (mapM_result_inv _ _ _ Hinks) as Hall.
  assert (Hrow : forall y, y < grid_rows ->
            exists row, inks !! y = Some row /\ length row = grid_cols /\
              forall x, x < grid_cols ->
                exists v, row !! x = Some v /\ rgb_to_cmyk (getpixel x y) = Ok v).
  { intros y Hy.
    destruct (Forall2_lookup_l _ _ _ y y Hall) as (row & Hrow & Hr);
      [by apply lookup_seq_lt|].
    exists row. split; [done|]. split.
    - apply mapM_result_length in Hr. by rewrite length_seq in Hr.
    - intros x Hx. pose proof (mapM_result_inv _ _ _ Hr) as Hcells.
      destruct (Forall2_lookup_l _ _ _ x x Hcells) as (v & Hv & Hget);
        [by apply lookup_seq_lt|].
      by exists v. }
  split.
  - intros y Hy. destruct (Hrow y Hy) as (row & Hr & Hlen & _).
    exists (map k row). rewrite list_lookup_fmap, Hr. split; [done|].
    rewrite length_map. lia.
  - intros x y Hx Hy. destruct (Hrow y Hy) as (row & Hr & _ & Hcells).
    destruct (Hcells x Hx) as (v & Hv & Hget).
    unfold cell, ink_plane. simpl. rewrite !Nat2Z.id, Hget.
    rewrite list_lookup_fmap, Hr. simpl. rewrite list_lookup_fmap, Hv. reflexivity.
Qed.

Lemma ones_of_dithered getpixel grid_cols grid_rows inks (k : cmyk_t -> Q) :
  mapM (fun y => mapM (fun x => rgb_to_cmyk (getpixel x y)) (seq 0 grid_cols))
       (seq 0 grid_rows) = Ok inks ->
  exists d,
    floyd_steinberg_dither_channel (map (map k) inks) grid_cols grid_rows = Ok d /\
    ones_of d grid_cols grid_rows
    = filter (fun p => dithered getpixel grid_cols grid_rows k p = true)
             (row_major grid_cols grid_rows).
Proof.
  intros Hinks. destruct (ink_rows _ _ _ _ k Hinks) as [Hcov Hag].
  destruct (floyd_steinberg_reference_field _ _ _ _ Hcov Hag) as (d & Hd & _ & Hcells).
  exists d. split; [done|]. unfold ones_of. apply filter_ext_elem.
  intros p Hp. apply elem_of_row_major in Hp as [Hx Hy].
  unfold dithered. rewrite Hcells by done. symmetry. apply Z.eqb_eq.
Qed.

Lemma cmyk_points_dithered getpixel grid_cols grid_rows :
  exists cp,
    cmyk_points getpixel grid_cols grid_rows = Ok cp /\
    forall c,
      cp !! c =
      if bool_decide (c ∈ COLOR_ORDER_CMYK)
      then Some (filter (fun p => painted cmyk getpixel grid_cols grid_rows c p = true)
                        (row_major grid_cols grid_rows))
      else None.
Proof.
  unfold cmyk_points.
  destruct (mapM_result_ok
              (fun y => mapM (fun x => rgb_to_cmyk (getpixel x y)) (seq 0 grid_cols))
              (seq 0 grid_rows)) as [inks Hinks].
  { intros y _. apply mapM_result_ok. intros x _. apply rgb_to_cmyk_total. }
  rewrite Hinks. simpl.
  destruct (ones_of_dithered _ _ _ _ (fun k => k.1.1.1) Hinks) as (Cd & -> & HC).
  destruct (ones_of_dithered _ _ _ _ (fun k => k.1.1.2) Hinks) as (Md & -> & HM).
  destruct (ones_of_dithered _ _ _ _ (fun k => k.1.2) Hinks) as (Yd & -> & HY).
  destruct (ones_of_dithered _ _ _ _ (fun k => k.2) Hinks) as (Kd & -> & HK).
  simpl. eexists. split; [done|]. rewrite HC, HM, HY, HK.
  intros c. destruct c;
    repeat (rewrite lookup_insert_ne by done); rewrite ?lookup_insert_eq; done.
Qed.

(** ** The dabs of the stream *)

Lemma dab_block_nil : dab_block [] [].
Proof. by intros rest. Qed.

Lemma dab_block_app a b da db :
  dab_block a da -> dab_block b db -> dab_block (a ++ b) (da ++ db).
Proof.
  intros Ha Hb rest. by rewrite <- !app_assoc, Ha, Hb.
Qed.

Lemma dab_block_comment r : dab_block [Comment r] [].
Proof. by intros rest. Qed.

Lemma dab_block_pickup c st :
  Station.z_safe st = Z_SAFE -> dab_block (pickup_lines c st) [].
Proof. intros Hst rest. unfold pickup_lines. by rewrite Hst. Qed.

Lemma dab_block_return c st :
  Station.z_safe st = Z_SAFE -> dab_block (return_lines c st) [].
Proof. intros Hst rest. unfold return_lines. by rewrite Hst. Qed.

Lemma dab_block_dip c st :
  Station.z_safe st = Z_SAFE -> dab_block (dip_lines c st) [].
Proof. intros Hst rest. unfold dip_lines. by rewrite Hst. Qed.

Lemma dab_block_clean st :
  Station.z_safe st = Z_SAFE -> dab_block (clean_lines st) [].
Proof. intros Hst rest. unfold clean_lines. by rewrite Hst. Qed.

Lemma dab_block_paint_dot x y t : dab_block (paint_dot x y t) [(x, y)].
Proof. by intros rest. Qed.

Lemma dab_block_schedule dip flags ps :
  dab_block dip [] -> length flags = length ps ->
  dab_block (concat (zip_with (dab_lines dip) flags ps)) ps.
Proof.
  intros Hdip. revert ps. induction flags as [|flag flags IH]; intros [|[x y] ps] Hlen;
    try discriminate Hlen; [apply dab_block_nil|].
  simpl. apply (dab_block_app _ _ [(x, y)] ps); [|apply IH; by injection Hlen].
  unfold dab_lines. apply (dab_block_app _ _ [] [(x, y)]); [|apply dab_block_paint_dot].
  destruct flag; [done|apply dab_block_nil].
Qed.

Lemma filter_elem_of_nil {A} `{EqDecision A} (l : list A) :
  filter (fun p => p ∈ @nil A) l = [].
Proof.
  induction l as [|a l IH]; [done|].
  rewrite filter_cons_False; [done|]. apply not_elem_of_nil.
Qed.

Section Dabs.
Variable hypot : Q -> Q -> Q.
Variable every_n_dots : nat.
Variable after_travel_mm : Q.

Lemma color_pass_dabs color_points stations args serp c ls :
  (forall c st, stations !! c = Some st -> Station.z_safe st = Z_SAFE) ->
  color_pass hypot every_n_dots after_travel_mm color_points stations args serp c = Ok ls ->
  dab_block ls (dab_positions args (points_of color_points c) serp).
Proof.
  intros Hst Hpass. unfold points_of.
  apply color_pass_inv in Hpass as [[Hc ->]|(st & pts & Hs & Hc & _ & ->)];
    rewrite Hc; cbn [default from_option id].
  - unfold dab_positions. rewrite filter_elem_of_nil. apply dab_block_nil.
  - specialize (Hst _ _ Hs). intros rest.
    change (dab_moves ((Comment (ColorHeader c (length pts)) :: ?l) ++ rest))
      with (dab_moves (l ++ rest)).
    rewrite <- !app_assoc.
    rewrite (dab_block_pickup c st Hst), (dab_block_dip c st Hst).
    rewrite dab_loop_schedule.
    rewrite (dab_block_schedule (dip_lines c st) _ (dab_positions args pts serp));
      [|by apply dab_block_dip|apply redip_schedule_length].
    by rewrite (dab_block_clean st Hst), (dab_block_return c st Hst).
Qed.

Lemma gen_gcode_dab_moves color_points color_order grid_cols grid_rows stations args lines :
  (forall c st, stations !! c = Some st -> Station.z_safe st = Z_SAFE) ->
  gen_gcode hypot every_n_dots after_travel_mm color_points color_order
            grid_cols grid_rows stations args = Ok lines ->
  dab_moves lines
  = flat_map (fun c => dab_positions args (points_of color_points c)
                         (serpentine_indices grid_cols grid_rows))
             color_order.
Proof.
  intros Hst Hgen. apply gen_gcode_inv in Hgen as (passes & Hpasses & ->).
  assert (Hblock : dab_block (concat passes)
            (flat_map (fun c => dab_positions args (points_of color_points c)
                                  (serpentine_indices grid_cols grid_rows))
                      color_order)).
  { induction Hpasses as [|c ls order ps Hp _ IH]; simpl; [apply dab_block_nil|].
    apply dab_block_app; [by eapply color_pass_dabs|done]. }
  change (dab_moves (preamble grid_cols grid_rows args ++ concat passes ++ postamble))
    with (dab_moves (concat passes ++ postamble)).
  rewrite Hblock. simpl. by rewrite app_nil_r.
Qed.
End Dabs.

(** The points of a colour that lie on the grid are dabbed once each,
    along the serpentine traversal; points outside the grid get no dab, and
    a point listed twice gets one dab. *)
Lemma dab_positions_cells args pts w h :
  exists cells,
    dab_positions args pts (serpentine_indices w h)
    = map (fun p => xy_of_pixel args (fst p) (snd p)) cells /\
    NoDup cells /\
    forall p, p ∈ cells <-> p ∈ pts /\ fst p < w /\ snd p < h.
Proof.
  exists (filter (fun p => p ∈ pts) (serpentine_indices w h)).
  split; [done|]. split; [apply NoDup_filter, serpentine_indices_NoDup|].
  intros [i j]. rewrite list_elem_of_filter, serpentine_indices_elem. done.
Qed.

(** X5: the dabs of the stream of [gen_gcode] are, colour by colour in the
    colour order, the points of the colour that lie on the grid, in the
    order of the serpentine traversal and at the position of their cell:
    each such point is dabbed once, also when it is listed twice, and a
    point outside the grid gets no dab. *)
Theorem gen_gcode_dabs_each_grid_point_once (hypot : Q -> Q -> Q) (every_n_dots : nat)
    (after_travel_mm : Q) (color_points : gmap color (list (nat * nat)))
    (color_order : list color) (grid_cols grid_rows : nat)
    (stations : gmap color Station.t) (args : Args) (lines : list line) :
  (forall c st, stations !! c = Some st -> Station.z_safe st = Z_SAFE) ->
  gen_gcode hypot every_n_dots after_travel_mm color_points color_order
            grid_cols grid_rows stations args = Ok lines ->
  let cells c :=
    filter (fun p => p ∈ points_of color_points c)
           (serpentine_indices grid_cols grid_rows) in
  dab_moves lines
  = flat_map (fun c => map (fun p => xy_of_pixel args (fst p) (snd p)) (cells c))
             color_order /\
  forall c,
    NoDup (cells c) /\
    forall p, p ∈ cells c <->
              p ∈ points_of color_points c /\ fst p < grid_cols /\ snd p < grid_rows.
Proof.
  intros Hst Hgen cells. split.
  - by apply (gen_gcode_dab_moves hypot every_n_dots after_travel_mm) in Hgen.
  - intros c. split; [apply NoDup_filter, serpentine_indices_NoDup|].
    intros [i j]. unfold cells. rewrite list_elem_of_filter, serpentine_indices_elem. done.
Qed.

Lemma gen_gcode_dabs_each_grid_point_once_witness :
  exists lines,
    gen_gcode hypot_fix 120 180 (<[black := [(0, 0); (5, 5); (0, 0)]]> ∅) [black] 1 1
      (make_stations rgb6) (sample_args rgb6 3 3 3) = Ok lines /\
    dab_moves lines = [(0, 0)%Q].
Proof.
  eexists. split; [vm_compute; reflexivity|].
  refine (eq_trans (proj1 (gen_gcode_dabs_each_grid_point_once hypot_fix 120 180
                             (<[black := [(0, 0); (5, 5); (0, 0)]]> ∅) [black] 1 1
                             (make_stations rgb6) (sample_args rgb6 3 3 3) _ _ _)) _).
  - intros c st Hc. by destruct (make_stations_lookup _ _ _ Hc).
  - vm_compute. reflexivity.
  - vm_compute. reflexivity.
Defined.

(** ** The dabs of a run *)

Lemma row_major_elem w h i j : (i, j) ∈ row_major w h <-> i < w /\ j < h.
Proof.
  split; [apply elem_of_row_major|]. intros [Hi Hj].
  assert ((Z.of_nat i, Z.of_nat j) ∈ ref_cells w h) as Hin.
  { apply elem_of_ref_cells. rewrite in_grid_nat.
    apply andb_true_iff. split; by apply Nat.ltb_lt. }
  rewrite <- row_major_ref_cells in Hin.
  apply list_elem_of_In, in_map_iff in Hin as ([i' j'] & Heq & Hin).
  simpl in Heq. injection Heq as Hi' Hj'. apply Nat2Z.inj in Hi', Hj'. subst.
  by apply list_elem_of_In.
Qed.

Lemma row_major_NoDup w h : NoDup (row_major w h).
Proof.
  apply (NoDup_fmap_1 (fun p => (Z.of_nat (fst p), Z.of_nat (snd p)))).
  change (NoDup (map (fun p => (Z.of_nat (fst p), Z.of_nat (snd p))) (row_major w h))).
  rewrite row_major_ref_cells. apply sorted_NoDup, ref_cells_sorted.
Qed.

Lemma serpentine_row_major w h : serpentine_indices w h ≡ₚ row_major w h.
Proof.
  apply NoDup_Permutation; [apply serpentine_indices_NoDup|apply row_major_NoDup|].
  intros [i j]. by rewrite serpentine_indices_elem, row_major_elem.
Qed.

(** The dabs of the points chosen among the cells of the grid by [P]. *)
Lemma dab_positions_filter args (P : nat * nat -> Prop) `{!forall p, Decision (P p)} w h :
  dab_positions args (filter P (row_major w h)) (serpentine_indices w h)
  = map (fun p => xy_of_pixel args (fst p) (snd p)) (filter P (serpentine_indices w h)).
Proof.
  unfold dab_positions. f_equal. apply filter_ext_elem.
  intros [i j] Hp. rewrite list_elem_of_filter.
  apply serpentine_indices_elem in Hp. apply row_major_elem in Hp. tauto.
Qed.

Lemma main_inv hypot args resize lines :
  main hypot args resize = Ok lines ->
  exists cols rows cp,
    grid_size (Qmax 0 (width_mm args - 2 * margin_mm args)) (dot_pitch_mm args) = Ok cols /\
    grid_size (Qmax 0 (height_mm args - 2 * margin_mm args)) (dot_pitch_mm args) = Ok rows /\
    match palette args with
    | rgb6 => rgb6_points (resize cols rows) cols rows
    | cmyk => cmyk_points (resize cols rows) cols rows
    end = Ok cp /\
    gen_gcode hypot RE_DIP_EVERY_N_DOTS RE_DIP_AFTER_TRAVEL_MM cp
      (PALETTES (palette args)) cols rows (make_stations (palette args)) args = Ok lines.
Proof.
  unfold main.
  destruct (grid_size (Qmax 0 (width_mm args - _)) _) as [cols|]; simpl; [|done].
  destruct (grid_size _ _) as [rows|]; simpl; [|done].
  intros Hrun. exists cols, rows.
  destruct (palette args).
  - destruct (rgb6_points _ _ _) as [cp|]; simpl in Hrun; [|done]. by exists cp.
  - destruct (cmyk_points _ _ _) as [cp|]; simpl in Hrun; [|done]. by exists cp.
Qed.

Lemma flat_map_ext_elem {A B} (f g : A -> list B) l :
  (forall a, a ∈ l -> f a = g a) -> flat_map f l = flat_map g l.
Proof.
  induction l as [|a l IH]; intros H; [done|]. simpl.
  rewrite (H a) by (by left). f_equal. apply IH. intros; apply H; by right.
Qed.

Lemma main_dab_moves hypot args resize lines :
  main hypot args resize = Ok lines ->
  exists cols rows cp,
    grid_size (Qmax 0 (width_mm args - 2 * margin_mm args)) (dot_pitch_mm args) = Ok cols /\
    grid_size (Qmax 0 (height_mm args - 2 * margin_mm args)) (dot_pitch_mm args) = Ok rows /\
    match palette args with
    | rgb6 => rgb6_points (resize cols rows) cols rows
    | cmyk => cmyk_points (resize cols rows) cols rows
    end = Ok cp /\
    dab_moves lines = dabs_of_image args (resize cols rows) cols rows.
Proof.
  intros Hmain. destruct (main_inv _ _ _ _ Hmain) as (cols & rows & cp & Hc & Hr & Hcp & Hgen).
  exists cols, rows, cp. split; [done|]. split; [done|]. split; [done|].
  apply gen_gcode_dab_moves in Hgen;
    [|intros c st H; by destruct (make_stations_lookup _ _ _ H)].
  rewrite Hgen. unfold dabs_of_image. apply flat_map_ext_elem. intros c Hin.
  assert (Hpts : points_of cp c
                 = filter (fun p => painted (palette args) (resize cols rows) cols rows c p
                                    = true) (row_major cols rows)).
  { unfold points_of. destruct (palette args).
    - rewrite (proj1 (rgb6_points_filter _ _ _ _ Hcp) c).
      rewrite bool_decide_eq_true_2.
      + simpl. apply list_filter_iff. intros p. unfold painted.
        symmetry. apply bool_decide_eq_true.
      + clear -Hin. simpl in Hin. 
        repeat (apply elem_of_cons in Hin as [->|Hin];
                  [apply (bool_decide_unpack _); by vm_compute|]).
        by apply elem_of_nil in Hin.
    - destruct (cmyk_points_dithered (resize cols rows) cols rows) as (cp' & Hcp' & Hall).
      rewrite Hcp in Hcp'. injection Hcp' as <-. rewrite Hall.
      by rewrite bool_decide_eq_true_2. }
  rewrite Hpts. apply dab_positions_filter.
Qed.

(** ** Planes that are already binary *)

Lemma threshold_proper q q' : (q == q')%Q -> threshold q = threshold q'.
Proof.
  intros Hq. unfold threshold. by rewrite (Qle_bool_proper (1 # 2) (1 # 2) q q').
Qed.

Lemma threshold_binary_value q :
  (q == 0)%Q \/ (q == 1)%Q -> (q - inject_Z (threshold q) == 0)%Q.
Proof.
  intros [Hq|Hq]; rewrite (threshold_proper _ _ Hq), Hq; reflexivity.
Qed.

(** On a plane whose values on the grid are 0 or 1 no error is ever
    diffused: the values stay what they were and every processed cell
    outputs its own value. *)
Lemma binary_fold w h (v0 : field) cells s :
  (forall n, in_grid w h n = true -> (v0 n == 0)%Q \/ (v0 n == 1)%Q) ->
  (forall c, c ∈ cells -> in_grid w h c = true) ->
  (forall n, in_grid w h n = true -> (values s n == v0 n)%Q) ->
  let s' := fold_left (ref_cell w h) cells s in
  (forall n, in_grid w h n = true -> (values s' n == v0 n)%Q) /\
  (forall c, c ∈ cells -> output s' c = threshold (v0 c)) /\
  (forall c, c ∉ cells -> output s' c = output s c).
Proof.
  intros Hbin. revert s. induction cells as [|c cells IH]; intros s Hcells Hs; simpl.
  - split; [done|]. split; [|done]. intros c Hc. by apply elem_of_nil in Hc.
  - assert (Hc : in_grid w h c = true) by (apply Hcells; left).
    assert (Hthr : threshold (values s c) = threshold (v0 c))
      by (apply threshold_proper; auto).
    assert (He : (values s c - inject_Z (threshold (values s c)) == 0)%Q).
    { rewrite Hthr, (Hs c Hc). apply threshold_binary_value. auto. }
    destruct (IH (ref_cell w h s c)) as (Hv & Hin & Hout).
    + intros c' Hc'. apply Hcells. by right.
    + intros n Hn. unfold ref_cell. cbn [values].
      rewrite diffuse_at by done. rewrite He, (Hs n Hn). ring.
    + split; [done|]. split.
      * intros c' Hc'. destruct (decide (c' ∈ cells)) as [Hr|Hr]; [auto|].
        apply elem_of_cons in Hc' as [->|Hc']; [|done].
        rewrite (Hout c Hr). unfold ref_cell. cbn [output].
        by rewrite decide_True.
      * intros c' Hc'. apply not_elem_of_cons in Hc' as [Hne Hr].
        rewrite (Hout c' Hr). unfold ref_cell. cbn [output].
        by rewrite decide_False.
Qed.

Lemma error_diffusion_binary w h (v0 : field) c :
  (forall n, in_grid w h n = true -> (v0 n == 0)%Q \/ (v0 n == 1)%Q) ->
  in_grid w h c = true -> error_diffusion w h v0 c = threshold (v0 c).
Proof.
  intros Hbin Hc.
  destruct (binary_fold w h v0 (ref_cells w h) (ref_init v0) Hbin) as (_ & Hout & _).
  - intros n Hn. by apply elem_of_ref_cells.
  - by intros n _.
  - apply Hout. by apply elem_of_ref_cells.
Qed.

Lemma in_grid_cell w h x y : x < w -> y < h -> in_grid w h (Z.of_nat x, Z.of_nat y) = true.
Proof.
  intros Hx Hy. rewrite in_grid_nat. apply andb_true_iff. split; by apply Nat.ltb_lt.
Qed.

Lemma in_grid_inv w h n :
  in_grid w h n = true ->
  exists x y, x < w /\ y < h /\ n = (Z.of_nat x, Z.of_nat y).
Proof.
  intros Hn. apply elem_of_ref_cells in Hn.
  rewrite <- row_major_ref_cells in Hn.
  apply list_elem_of_In, in_map_iff in Hn as ([x y] & <- & Hp).
  apply list_elem_of_In, elem_of_row_major in Hp as [Hx Hy]. by exists x, y.
Qed.

Lemma dither_binary img w h :
  covers img w h ->
  (forall x y, x < w -> y < h ->
     (cell 0%Q img y x == 0)%Q \/ (cell 0%Q img y x == 1)%Q) ->
  exists out,
    floyd_steinberg_dither_channel img w h = Ok out /\
    shaped w h out /\
    forall x y, x < w -> y < h -> cell 0%Z out y x = threshold (cell 0%Q img y x).
Proof.
  intros Hcov Hbin.
  destruct (floyd_steinberg_reference img w h Hcov) as (out & Hout & Hs & Hcells).
  exists out. split; [done|]. split; [done|]. intros x y Hx Hy.
  rewrite (Hcells x y Hx Hy), error_diffusion_binary.
  - unfold field_of. simpl. by rewrite !Nat2Z.id.
  - intros n Hn. apply in_grid_inv in Hn as (x' & y' & Hx' & Hy' & ->).
    unfold field_of. simpl. rewrite !Nat2Z.id. auto.
  - by apply in_grid_cell.
Qed.

Lemma shaped_ext {A} (d : A) w h (a b : list (list A)) :
  shaped w h a -> shaped w h b ->
  (forall x y, x < w -> y < h -> cell d a y x = cell d b y x) -> a = b.
Proof.
  intros Ha Hb Hcells. apply list_eq. intros y.
  destruct (decide (y < h)) as [Hy|Hy].
  - destruct (shaped_lookup w h a y Ha Hy) as (ra & Hra & Hla).
    destruct (shaped_lookup w h b y Hb Hy) as (rb & Hrb & Hlb).
    rewrite Hra, Hrb. f_equal. apply list_eq. intros x.
    destruct (decide (x < w)) as [Hx|Hx].
    + specialize (Hcells x y Hx Hy). unfold cell in Hcells.
      rewrite Hra, Hrb in Hcells. simpl in Hcells.
      destruct (lookup_lt_is_Some_2 ra x) as [va Hva]; [lia|].
      destruct (lookup_lt_is_Some_2 rb x) as [vb Hvb]; [lia|].
      rewrite Hva, Hvb in *. simpl in Hcells. by rewrite Hcells.
    + rewrite !lookup_ge_None_2 by lia. done.
  - destruct Ha as [Hla _], Hb as [Hlb _]. rewrite !lookup_ge_None_2 by lia. done.
Qed.

Lemma cell_fmap {A B} (f : A -> B) (da : A) (a : list (list A)) w h y x :
  shaped w h a -> x < w -> y < h ->
  cell (f da) (map (map f) a) y x = f (cell da a y x).
Proof.
  intros Ha Hx Hy. destruct (shaped_lookup w h a y Ha Hy) as (row & Hrow & Hlen).
  destruct (lookup_lt_is_Some_2 row x) as [v Hv]; [lia|].
  unfold cell. rewrite list_lookup_fmap, Hrow. simpl.
  by rewrite list_lookup_fmap, Hv.
Qed.

Lemma covers_shaped_fmap {A} (f : A -> Q) (a : list (list A)) w h :
  shaped w h a -> covers (map (map f) a) w h.
Proof.
  intros Ha y Hy. destruct (shaped_lookup w h a y Ha Hy) as (row & Hrow & Hlen).
  exists (map f row). rewrite list_lookup_fmap, Hrow. split; [done|].
  rewrite length_map. lia.
Qed.

Lemma threshold_inject b : b = 0%Z \/ b = 1%Z -> threshold (inject_Z b) = b.
Proof. by intros [->| ->]. Qed.

(** X7: A plane of zeros and ones is its own dithering: the pass returns the
    plane it was given, as integers. *)
Theorem dither_returns_a_binary_plane_unchanged (img : list (list Q)) (w h : nat) :
  covers img w h ->
  (forall x y, x < w -> y < h ->
     (cell 0%Q img y x == 0)%Q \/ (cell 0%Q img y x == 1)%Q) ->
  exists out,
    floyd_steinberg_dither_channel img w h = Ok out /\
    shaped w h out /\
    forall x y, x < w -> y < h -> (inject_Z (cell 0%Z out y x) == cell 0%Q img y x)%Q.
Proof.
  intros Hcov Hbin. destruct (dither_binary img w h Hcov Hbin) as (out & Hout & Hs & Hcells).
  exists out. split; [done|]. split; [done|]. intros x y Hx Hy.
  rewrite (Hcells x y Hx Hy).
  destruct (Hbin x y Hx Hy) as [Hq|Hq]; rewrite (threshold_proper _ _ Hq), Hq; reflexivity.
Qed.

Lemma dither_returns_a_binary_plane_unchanged_witness :
  exists out,
    floyd_steinberg_dither_channel [[1; 0]; [0; 1]]%Q 2 2 = Ok out /\
    shaped 2 2 out /\
    forall x y, x < 2 -> y < 2 ->
      (inject_Z (cell 0%Z out y x) == cell 0%Q [[1; 0]; [0; 1]]%Q y x)%Q.
Proof.
  apply (dither_returns_a_binary_plane_unchanged [[1; 0]; [0; 1]]%Q 2 2).
  - intros y Hy. destruct y as [|[|y]]; [| |lia]; eexists; (split; [reflexivity|simpl; lia]).
  - intros x y Hx Hy.
    destruct y as [|[|y]]; [| |lia]; (destruct x as [|[|x]]; [| |lia]); cbn; auto;
      (left; reflexivity) || (right; reflexivity).
Defined.

(** X8: dithering is idempotent: the pass run on its own output, read as
    fractions, returns that output. *)
Theorem dither_twice_is_dither_once (img : list (list Q)) (w h : nat) :
  covers img w h ->
  exists out,
    floyd_steinberg_dither_channel img w h = Ok out /\
    floyd_steinberg_dither_channel (map (map inject_Z) out) w h = Ok out.
Proof.
  intros Hcov.
  destruct (floyd_steinberg_reference img w h Hcov) as (out & Hout & Hs & Hcells).
  exists out. split; [done|].
  assert (Hb : forall x y, x < w -> y < h ->
            cell 0%Z out y x = 0%Z \/ cell 0%Z out y x = 1%Z).
  { intros x y Hx Hy. rewrite (Hcells x y Hx Hy).
    apply ref_output_binary. intros c. by left. }
  destruct (dither_binary (map (map inject_Z) out) w h) as (out' & Hout' & Hs' & Hcells').
  - by apply covers_shaped_fmap.
  - intros x y Hx Hy. rewrite (cell_fmap inject_Z 0%Z out w h) by done.
    destruct (Hb x y Hx Hy) as [->| ->]; [left|right]; reflexivity.
  - rewrite Hout'. f_equal. apply (shaped_ext 0%Z w h); [done..|].
    intros x y Hx Hy. rewrite (Hcells' x y Hx Hy).
    rewrite (cell_fmap inject_Z 0%Z out w h) by done.
    apply threshold_inject. auto.
Qed.

Lemma dither_twice_is_dither_once_witness :
  exists out,
    floyd_steinberg_dither_channel [[0.75; 0.75]; [0.75; 0.75]]%Q 2 2 = Ok out /\
    floyd_steinberg_dither_channel (map (map inject_Z) out) 2 2 = Ok out.
Proof.
  apply (dither_twice_is_dither_once [[0.75; 0.75]; [0.75; 0.75]]%Q 2 2).
  intros y Hy. destruct y as [|[|y]]; [| |lia]; eexists; (split; [reflexivity|simpl; lia]).
Defined.

(** ** One dab for each pixel that is not background *)

Lemma flat_map_fmap {A B C} (f : B -> C) (F : A -> list B) l :
  flat_map (fun a => map f (F a)) l = map f (flat_map F l).
Proof.
  induction l as [|a l IH]; [done|]. simpl. by rewrite IH, map_app.
Qed.

Lemma flat_map_filter_cons {A C} (P : C -> A -> Prop) `{!forall c a, Decision (P c a)}
    (order : list C) (a : A) (l : list A) :
  length (flat_map (fun c => filter (P c) (a :: l)) order)
  = length (flat_map (fun c => filter (P c) [a]) order)
    + length (flat_map (fun c => filter (P c) l) order).
Proof.
  induction order as [|c order IH]; [done|].
  cbn [flat_map]. rewrite !length_app, IH.
  change (a :: l) with ([a] ++ l). rewrite filter_app, length_app. lia.
Qed.

Lemma rgb6_counts_one getpixel cols rows (a : nat * nat) :
  (is_background (getpixel (fst a) (snd a)) = false ->
   exists c, c ∈ map fst PALETTE_RGB /\
             nearest_palette_color (getpixel (fst a) (snd a)) = Some c) ->
  length (flat_map (fun c => filter (fun p => painted rgb6 getpixel cols rows c p = true) [a])
                   COLOR_ORDER_RGB6)
  = length (filter (fun p => is_background (getpixel (fst p) (snd p)) = false) [a]).
Proof.
  intros Ha. destruct a as [x y]. cbn [flat_map COLOR_ORDER_RGB6 fst snd] in *.
  destruct (classify_pixel (getpixel x y)) as [[c|]|] eqn:E.
  - pose proof (proj1 (classify_pixel_color _ _) E) as [Hbg Hc].
    destruct (Ha Hbg) as (c' & Hkey & Hc'). rewrite Hc in Hc'. injection Hc' as <-.
    apply (bool_decide_pack _) in Hkey.
    rewrite (filter_cons_True (fun p => is_background _ = false)) by done.
    destruct c; try (by vm_compute in Hkey);
      repeat first
        [ rewrite filter_cons_True by (unfold painted; cbn [fst snd]; by rewrite E)
        | rewrite filter_cons_False by (unfold painted; cbn [fst snd]; by rewrite E) ];
      reflexivity.
  - unfold classify_pixel in E. destruct (is_background (getpixel x y)); [done|].
    destruct (Ha eq_refl) as (c & _ & Hc). rewrite Hc in E. done.
  - assert (Hbg : is_background (getpixel x y) = true).
    { unfold classify_pixel in E. by destruct (is_background (getpixel x y)). }
    rewrite (filter_cons_False (fun p => is_background _ = false))
      by (cbn [fst snd]; by rewrite Hbg).
    repeat rewrite filter_cons_False by (unfold painted; cbn [fst snd]; by rewrite E).
    reflexivity.
Qed.

Lemma rgb6_counts getpixel cols rows (l : list (nat * nat)) :
  (forall p, p ∈ l -> is_background (getpixel (fst p) (snd p)) = false ->
     exists c, c ∈ map fst PALETTE_RGB /\
               nearest_palette_color (getpixel (fst p) (snd p)) = Some c) ->
  length (flat_map (fun c => filter (fun p => painted rgb6 getpixel cols rows c p = true) l)
                   COLOR_ORDER_RGB6)
  = length (filter (fun p => is_background (getpixel (fst p) (snd p)) = false) l).
Proof.
  induction l as [|a l IH]; intros Hl; [done|].
  rewrite flat_map_filter_cons, IH by (intros; apply Hl; [by right|done]).
  rewrite rgb6_counts_one by (apply Hl; by left).
  change (a :: l) with ([a] ++ l). by rewrite filter_app, length_app.
Qed.

(** X9: in rgb6 the stream holds one dab for each pixel of the resized image
    that is not background, and no other dab. *)
Theorem main_rgb6_one_dab_per_pixel (hypot : Q -> Q -> Q) (args : Args)
    (resize : nat -> nat -> nat -> nat -> rgb) (lines : list line) :
  palette args = rgb6 ->
  main hypot args resize = Ok lines ->
  exists cols rows,
    grid_size (Qmax 0 (width_mm args - 2 * margin_mm args)) (dot_pitch_mm args) = Ok cols /\
    grid_size (Qmax 0 (height_mm args - 2 * margin_mm args)) (dot_pitch_mm args) = Ok rows /\
    length (dab_moves lines)
    = length (filter (fun p => is_background (resize cols rows (fst p) (snd p)) = false)
                     (row_major cols rows)).
Proof.
  intros Hpal Hmain.
  destruct (main_dab_moves _ _ _ _ Hmain) as (cols & rows & cp & Hc & Hr & Hcp & Hd).
  exists cols, rows. split; [done|]. split; [done|].
  rewrite Hd. unfold dabs_of_image. rewrite Hpal in *.
  rewrite flat_map_fmap, length_map. cbn [PALETTES].
  rewrite rgb6_counts.
  - apply Permutation_length. by rewrite serpentine_row_major.
  - intros [i j] Hp. apply serpentine_indices_elem, row_major_elem in Hp.
    by apply (proj2 (rgb6_points_filter _ _ _ _ Hcp)).
Qed.

Lemma main_rgb6_one_dab_per_pixel_witness :
  exists lines,
    main hypot_fix (sample_args rgb6 6 6 3) diagonal_image = Ok lines /\
    length (dab_moves lines) = 2.
Proof.
  destruct (main hypot_fix (sample_args rgb6 6 6 3) diagonal_image) as [lines|e] eqn:E;
    [|vm_compute in E; discriminate E].
  destruct (main_rgb6_one_dab_per_pixel hypot_fix (sample_args rgb6 6 6 3) diagonal_image
              lines eq_refl E) as (cols & rows & Hc & Hr & Hd).
  vm_compute in Hc. vm_compute in Hr. injection Hc as <-. injection Hr as <-.
  exists lines. split; [done|]. rewrite Hd. vm_compute. reflexivity.
Defined.

(** ** An image that asks for no paint *)

Lemma filter_none {A} (P : A -> Prop) `{!forall x, Decision (P x)} (l : list A) :
  (forall a, a ∈ l -> ~ P a) -> filter P l = [].
Proof.
  induction l as [|a l IH]; intros Hno; [done|].
  rewrite filter_cons_False by (apply Hno; by left). apply IH. intros; apply Hno; by right.
Qed.

Lemma rgb6_points_background getpixel grid_cols grid_rows :
  (forall x y, is_background (getpixel x y) = true) ->
  exists cp, rgb6_points getpixel grid_cols grid_rows = Ok cp /\
             forall c, c ∈ COLOR_ORDER_RGB6 -> cp !! c = Some [].
Proof.
  intros Hbg.
  destruct (for_each_invariant
              (fun cp : gmap color (list (nat * nat)) =>
                 cp = fold_left (fun cp c => <[c := []]> cp) (map fst PALETTE_RGB) ∅)
              (row_major grid_cols grid_rows)
              (fun cp '(x, y) =>
                 match classify_pixel (getpixel x y) with
                 | None => Ok cp
                 | Some None => Err KeyError
                 | Some (Some col) => pts ← dict_get cp col; Ok (<[col := pts ++ [(x, y)]]> cp)
                 end)
              (fold_left (fun cp c => <[c := []]> cp) (map fst PALETTE_RGB) ∅))
    as (cp & Hcp & ->); [|done|].
  - intros cp [x y] -> _. unfold classify_pixel. rewrite Hbg. by eexists.
  - eexists. split; [exact Hcp|]. intros c Hc.
    repeat (apply elem_of_cons in Hc as [->|Hc]; [by vm_compute|]).
    by apply elem_of_nil in Hc.
Qed.

(** ** When [gen_gcode] raises *)

Lemma mapM_result_cases {A B} (f : A -> result B) l :
  match mapM f l with
  | Ok ys => Forall2 (fun x y => f x = Ok y) l ys
  | Err e => exists a, a ∈ l /\ f a = Err e
  end.
Proof.
  induction l as [|x l IH]; simpl; [constructor|].
  destruct (f x) as [y|e] eqn:E; simpl.
  - destruct (mapM f l) as [k|e]; simpl.
    + by constructor.
    + destruct IH as (a & Ha & Hf). exists a. split; [by right|done].
  - exists x. split; [by left|done].
Qed.

Lemma color_pass_cases hypot every_n_dots after_travel_mm color_points stations args serp c :
  match color_pass hypot every_n_dots after_travel_mm color_points stations args serp c with
  | Ok _ => exists pts, color_points !! c = Some pts /\ (pts = [] \/ is_Some (stations !! c))
  | Err e =>
      e = KeyError /\
      (color_points !! c = None \/
       exists pts, color_points !! c = Some pts /\ pts <> [] /\ stations !! c = None)
  end.
Proof.
  unfold color_pass, pickup_brush, dip_brush, return_brush, dict_get.
  destruct (color_points !! c) as [pts|]; simpl; [|by split; [|left]].
  destruct pts as [|p pts]; [exists []; by split; [|left]|].
  destruct (stations !! c) as [st|]; simpl.
  - exists (p :: pts). split; [done|]. right. by eexists.
  - split; [done|]. right. by exists (p :: pts).
Qed.

(** X11: [gen_gcode] raises nothing but a key error, and it raises exactly when
    a colour of the colour order has no entry in [color_points], or has
    points and no station; a colour without points needs no station. *)
Theorem gen_gcode_raises_on_a_missing_key (hypot : Q -> Q -> Q) (every_n_dots : nat)
    (after_travel_mm : Q) (color_points : gmap color (list (nat * nat)))
    (color_order : list color) (grid_cols grid_rows : nat)
    (stations : gmap color Station.t) (args : Args) :
  match gen_gcode hypot every_n_dots after_travel_mm color_points color_order
                  grid_cols grid_rows stations args with
  | Ok _ =>
      forall c, c ∈ color_order ->
        exists pts, color_points !! c = Some pts /\ (pts = [] \/ is_Some (stations !! c))
  | Err e =>
      e = KeyError /\
      exists c, c ∈ color_order /\
        (color_points !! c = None \/
         exists pts, color_points !! c = Some pts /\ pts <> [] /\ stations !! c = None)
  end.
Proof.
  unfold gen_gcode.
  pose proof (mapM_result_cases
                (color_pass hypot every_n_dots after_travel_mm color_points stations args
                            (serpentine_indices grid_cols grid_rows)) color_order) as Hm.
  destruct (mapM _ color_order) as [passes|e]; simpl.
  - intros c Hc. apply list_elem_of_lookup in Hc as [i Hi].
    destruct (Forall2_lookup_l _ _ _ _ _ Hm Hi) as (ls & _ & Hls).
    pose proof (color_pass_cases hypot every_n_dots after_travel_mm color_points stations
                  args (serpentine_indices grid_cols grid_rows) c) as Hc.
    by rewrite Hls in Hc.
  - destruct Hm as (c & Hc & He).
    pose proof (color_pass_cases hypot every_n_dots after_travel_mm color_points stations
                  args (serpentine_indices grid_cols grid_rows) c) as Hcase.
    rewrite He in Hcase. destruct Hcase as [-> Hcase]. split; [done|]. by exists c.
Qed.

(** ** The order of the passes and of the brush changes *)

Lemma pass_marks_app a b : pass_marks (a ++ b) = pass_marks a ++ pass_marks b.
Proof. apply omap_app. Qed.

Section Marks.
Variable hypot : Q -> Q -> Q.
Variable every_n_dots : nat.
Variable after_travel_mm : Q.

Lemma color_pass_marks color_points stations args serp c ls :
  color_pass hypot every_n_dots after_travel_mm color_points stations args serp c = Ok ls ->
  pass_marks ls
  = if decide (points_of color_points c <> [])
    then [ColorHeader c (length (points_of color_points c)); Pickup c; Return c]
    else [].
Proof.
  intros Hpass. unfold points_of.
  apply color_pass_inv in Hpass as [[Hc ->]|(st & pts & Hs & Hc & Hne & ->)];
    rewrite Hc; cbn [default from_option id].
  - by rewrite decide_False by (by intros H).
  - rewrite decide_True by done.
    change (pass_marks (Comment (ColorHeader c (length pts)) :: ?l))
      with (ColorHeader c (length pts) :: pass_marks l).
    rewrite !pass_marks_app.
    assert (Hloop : pass_marks
              (lines (fold_left (dab_step hypot every_n_dots after_travel_mm args pts
                                          (dip_lines c st)) serp dab_init)) = []).
    { apply (dab_loop_closed hypot every_n_dots after_travel_mm
               (fun ls => pass_marks ls = [])); try done.
      intros a b Ha Hb. by rewrite pass_marks_app, Ha, Hb. }
    by rewrite Hloop.
Qed.

Lemma gen_gcode_pass_marks color_points color_order grid_cols grid_rows stations args lines :
  gen_gcode hypot every_n_dots after_travel_mm color_points color_order
            grid_cols grid_rows stations args = Ok lines ->
  pass_marks lines
  = flat_map (fun c => [ColorHeader c (length (points_of color_points c));
                        Pickup c; Return c])
             (used_colors color_points color_order).
Proof.
  intros Hgen. apply gen_gcode_inv in Hgen as (passes & Hpasses & ->).
  rewrite !pass_marks_app.
  change (pass_marks (preamble grid_cols grid_rows args)) with (@nil remark).
  change (pass_marks postamble) with (@nil remark).
  rewrite app_nil_r. simpl. unfold used_colors.
  induction Hpasses as [|c ls order ps Hp _ IH]; [done|].
  simpl. rewrite pass_marks_app, IH, (color_pass_marks _ _ _ _ _ _ Hp).
  rewrite filter_cons. by destruct (decide (points_of color_points c <> [])).
Qed.
End Marks.

(** X12: the passes come in the colour order, one for each colour that has
    points: its header gives the number of points of the colour, its brush
    is picked up once and returned once, and it is returned before the
    next brush is picked up. *)
Theorem gen_gcode_one_brush_at_a_time (hypot : Q -> Q -> Q) (every_n_dots : nat)
    (after_travel_mm : Q) (color_points : gmap color (list (nat * nat)))
    (color_order : list color) (grid_cols grid_rows : nat)
    (stations : gmap color Station.t) (args : Args) (lines : list line) :
  gen_gcode hypot every_n_dots after_travel_mm color_points color_order
            grid_cols grid_rows stations args = Ok lines ->
  pass_marks lines
  = flat_map (fun c => [ColorHeader c (length (points_of color_points c));
                        Pickup c; Return c])
             (filter (fun c => points_of color_points c <> []) color_order).
Proof. apply gen_gcode_pass_marks. Qed.

Lemma gen_gcode_one_brush_at_a_time_witness :
  exists lines,
    gen_gcode hypot_fix 120 180 sample_points [blue; black] 1 1
      (make_stations rgb6) (sample_args rgb6 3 3 3) = Ok lines /\
    pass_marks lines = [ColorHeader black 1; Pickup black; Return black].
Proof.
  eexists. split; [vm_compute; reflexivity|].
  refine (eq_trans (gen_gcode_one_brush_at_a_time hypot_fix 120 180 sample_points
                      [blue; black] 1 1 (make_stations rgb6) (sample_args rgb6 3 3 3)
                      _ _) _).
  - vm_compute. reflexivity.
  - vm_compute. reflexivity.
Defined.

(** ** The end of the program *)

Section Closing.
Variable hypot : Q -> Q -> Q.
Variable every_n_dots : nat.
Variable after_travel_mm : Q.

Lemma color_pass_station_lines color_points stations args serp c ls :
  color_pass hypot every_n_dots after_travel_mm color_points stations args serp c = Ok ls ->
  Forall (fun l => station_line l = true) ls.
Proof.
  intros Hpass.
  apply color_pass_inv in Hpass as [[_ ->]|(st & pts & _ & _ & _ & ->)]; [constructor|].
  constructor; [done|]. rewrite !Forall_app. repeat split; try by repeat constructor.
  apply (dab_loop_closed hypot every_n_dots after_travel_mm
           (Forall (fun l => station_line l = true))).
  - constructor.
  - intros a b Ha Hb. by apply Forall_app.
  - by repeat constructor.
  - intros x y. by repeat constructor.
Qed.

Lemma gen_gcode_station_lines color_points color_order grid_cols grid_rows stations args
    lines :
  gen_gcode hypot every_n_dots after_travel_mm color_points color_order
            grid_cols grid_rows stations args = Ok lines ->
  exists body,
    lines = preamble grid_cols grid_rows args ++ body ++ postamble /\
    Forall (fun l => station_line l = true) body.
Proof.
  intros Hgen. apply gen_gcode_inv in Hgen as (passes & Hpasses & ->).
  exists (concat passes). split; [done|]. apply Forall_concat.
  induction Hpasses as [|c ls order ps Hp _ IH]; [constructor|].
  constructor; [|done]. by eapply color_pass_station_lines.
Qed.
End Closing.

Lemma end_xy_app_postamble ls : end_xy (ls ++ postamble) = Some (0, 0)%Q.
Proof.
  unfold end_xy. rewrite omap_app. simpl. by rewrite last_snoc.
Qed.

(** X13: the program stops once, parked: its last three lines rise to the
    travel height, go to X0 Y0 (the origin of the machine, whatever the
    origin of the painting) and stop; the stop word and the set-up words
    occur nowhere else than in the closing and opening lines. *)
Theorem gen_gcode_stops_parked_at_machine_origin (hypot : Q -> Q -> Q) (every_n_dots : nat)
    (after_travel_mm : Q) (color_points : gmap color (list (nat * nat)))
    (color_order : list color) (grid_cols grid_rows : nat)
    (stations : gmap color Station.t) (args : Args) (lines : list line) :
  gen_gcode hypot every_n_dots after_travel_mm color_points color_order
            grid_cols grid_rows stations args = Ok lines ->
  exists body,
    lines
    = [Comment Title; Comment (GridInfo grid_cols grid_rows (dot_pitch_mm args));
       G21; G90; G94; G0 None None (Some Z_TRAVEL) None] ++
      body ++
      [G0 None None (Some Z_TRAVEL) None; G0 (Some 0%Q) (Some 0%Q) None None; M2] /\
    Forall (fun l => l <> M2 /\ l <> G21 /\ l <> G90 /\ l <> G94 /\ l <> Comment Title) body /\
    end_z None lines = Some Z_TRAVEL /\
    end_xy lines = Some (0, 0)%Q.
Proof.
  intros Hgen.
  destruct (gen_gcode_station_lines _ _ _ _ _ _ _ _ _ _ Hgen) as (body & -> & Hbody).
  exists body. split; [done|]. split; [|split].
  - eapply Forall_impl; [exact Hbody|]. intros l Hl.
    repeat split; intros ->; discriminate Hl.
  - rewrite app_assoc, end_z_app. reflexivity.
  - rewrite app_assoc. apply end_xy_app_postamble.
Qed.

Lemma gen_gcode_stops_parked_at_machine_origin_witness :
  exists lines,
    gen_gcode hypot_fix 120 180 sample_points [black; blue] 1 1
      (make_stations rgb6) (sample_args rgb6 3 3 3) = Ok lines /\
    end_z None lines = Some Z_TRAVEL /\ end_xy lines = Some (0, 0)%Q.
Proof.
  eexists. split; [vm_compute; reflexivity|].
  destruct (gen_gcode_stops_parked_at_machine_origin hypot_fix 120 180 sample_points
              [black; blue] 1 1 (make_stations rgb6) (sample_args rgb6 3 3 3) _ eq_refl)
    as (body & _ & _ & Hz & Hxy).
  split; [exact Hz|exact Hxy].
Defined.

(** ** The motion envelope of a run *)

(** A block of lines inside the envelope. *)
Lemma envelope_paint_dot x y : Forall (fun l => in_envelope l = true) (paint_dot x y DAB_DWELL_S).
Proof. by repeat constructor. Qed.

Lemma make_stations_values p c st :
  make_stations p !! c = Some st ->
  Station.z_pick st = Z_PICK /\ Station.z_safe st = Z_SAFE /\
  Station.dip_z st = DIP_OFFSET_Z /\ Station.blot_z st = BLOT_OFFSET_Z /\
  Station.dip_dwell_s st = 1%Q /\ Station.blot_dwell_s st = 0.5%Q.
Proof.
  destruct p, c; vm_compute; intros H; try discriminate H;
    injection H as <-; repeat split.
Qed.

Lemma color_pass_envelope hypot every_n_dots after_travel_mm color_points p args serp c ls :
  color_pass hypot every_n_dots after_travel_mm color_points (make_stations p) args serp c
  = Ok ls ->
  Forall (fun l => in_envelope l = true) ls.
Proof.
  intros Hpass.
  apply color_pass_inv in Hpass as [[_ ->]|(st & pts & Hs & _ & _ & ->)]; [constructor|].
  destruct (make_stations_values _ _ _ Hs) as (H1 & H2 & H3 & H4 & H5 & H6).
  assert (Hdip : Forall (fun l => in_envelope l = true) (dip_lines c st)).
  { unfold dip_lines. rewrite H2, H3, H4, H5, H6. by repeat constructor. }
  constructor; [done|]. rewrite !Forall_app. repeat split; try done.
  - unfold pickup_lines. rewrite H1, H2. by repeat constructor.
  - apply (dab_loop_closed hypot every_n_dots after_travel_mm
             (Forall (fun l => in_envelope l = true)));
      [constructor|intros a b Ha Hb; by apply Forall_app|done
      |intros x y; apply envelope_paint_dot].
  - unfold clean_lines. rewrite H2, H4. by repeat constructor.
  - unfold return_lines. rewrite H1, H2. by repeat constructor.
Qed.

(** X14: every line of a run stays inside the envelope: the tool moves in Z
    only by feed moves at the Z feed, never below the pick height nor above
    the safe height; rapid moves are in X and Y alone, but for the rise to
    the travel height that opens and closes the program; no dwell is
    negative. *)
Theorem main_stays_in_the_envelope (hypot : Q -> Q -> Q) (args : Args)
    (resize : nat -> nat -> nat -> nat -> rgb) (lines : list line) :
  main hypot args resize = Ok lines ->
  Forall (fun l => in_envelope l = true) lines.
Proof.
  intros Hmain.
  destruct (main_inv _ _ _ _ Hmain) as (cols & rows & cp & _ & _ & _ & Hgen).
  apply gen_gcode_inv in Hgen as (passes & Hpasses & ->).
  rewrite !Forall_app. split; [by repeat constructor|]. split; [|by repeat constructor].
  apply Forall_concat. clear Hmain.
  induction Hpasses as [|c ls order ps Hp _ IH]; [constructor|].
  constructor; [|done]. by eapply color_pass_envelope.
Qed.

Lemma main_stays_in_the_envelope_witness :
  exists lines,
    main hypot_fix (sample_args rgb6 6 6 3) diagonal_image = Ok lines /\
    Forall (fun l => in_envelope l = true) lines.
Proof.
  eexists. split; [vm_compute; reflexivity|].
  apply (main_stays_in_the_envelope hypot_fix (sample_args rgb6 6 6 3) diagonal_image).
  vm_compute. reflexivity.
Defined.

(** ** The layout of the stations *)

(** X15: [make_stations] gives a station to each colour of the palette and to
    no other colour; the station of the colour of index [i] is at X 100 i,
    Y 400, its dip place is the station itself and its blot place is 60 mm
    further in Y; so picking up, dipping or returning a brush raises a key
    error exactly for a colour outside the palette. *)
Theorem make_stations_lays_out_the_palette (p : palette_name) (c : color) :
  match make_stations p !! c with
  | Some st =>
      (c ∈ PALETTES p) /\ station_eq st (station_at (index_of c (PALETTES p)) c) /\
      exists ls, pickup_brush (make_stations p) c = Ok ls
  | None =>
      (c ∉ PALETTES p) /\
      pickup_brush (make_stations p) c = Err KeyError /\
      dip_brush (make_stations p) c = Err KeyError /\
      return_brush (make_stations p) c = Err KeyError
  end.
Proof.
  unfold pickup_brush, dip_brush, return_brush, dict_get.
  destruct (make_stations p !! c) as [st|] eqn:E; simpl.
  - split; [|split; [|by eexists]].
    + destruct (make_stations_lookup _ _ _ E) as [_ Hin]. by apply list_elem_of_In.
    + destruct p, c; vm_compute in E; try discriminate E; injection E as <-;
        by vm_compute.
  - split; [|done]. intros Hin. apply list_elem_of_In, make_stations_keys in Hin.
    rewrite E in Hin. by destruct Hin.
Qed.

(** ** The grid inside the margins *)

Lemma py_round_near q : (inject_Z (py_round q) - (1 # 2) <= q <= inject_Z (py_round q) + (1 # 2))%Q.
Proof.
  unfold py_round. pose proof (Qfloor_le q) as Hlo. pose proof (Qlt_floor q) as Hhi.
  set (f := Qfloor q) in *.
  rewrite inject_Z_plus in Hhi. change (inject_Z 1) with 1%Q in Hhi.
  assert (Hf1 : (inject_Z (f + 1) == inject_Z f + 1)%Q).
  { rewrite inject_Z_plus. reflexivity. }
  destruct (q - inject_Z f ?= 1 # 2)%Q eqn:E.
  - apply Qeq_alt in E. destruct (Z.even f); rewrite ?Hf1; lra.
  - apply Qlt_alt in E. lra.
  - apply Qgt_alt in E. rewrite Hf1. lra.
Qed.

Lemma grid_size_inv usable pitch n :
  grid_size usable pitch = Ok n ->
  ~ (pitch == 0)%Q /\ n = Z.to_nat (Z.max 1 (py_round (usable / pitch))).
Proof.
  unfold grid_size, py_div. destruct (Qeq_bool pitch 0) eqn:E; simpl; [done|].
  intros [= <-]. split; [|done]. intros Hp. apply Qeq_bool_iff in Hp. congruence.
Qed.

(** The offset of the cell of index [k] from the first cell lies on the
    usable length. *)
Lemma grid_offset_fits usable pitch n k :
  (0 <= usable)%Q -> grid_size usable pitch = Ok n -> k < n ->
  (0 <= inject_Z (Z.of_nat k) * pitch <= usable)%Q.
Proof.
  intros Hu Hn Hk. apply grid_size_inv in Hn as [Hp ->].
  pose proof (py_round_near (usable / pitch)) as [Hr _].
  set (r := py_round (usable / pitch)) in *.
  destruct (decide (r <= 1)%Z) as [Hr1|Hr1].
  - assert (k = 0) as -> by lia. change (inject_Z (Z.of_nat 0)) with 0%Q. lra.
  - assert (Hkr : (Z.of_nat k + 1 <= r)%Z) by lia.
    assert (Hr2 : (2 <= r)%Z) by lia.
    rewrite Zle_Qle in Hkr, Hr2. rewrite inject_Z_plus in Hkr.
    change (inject_Z 1) with 1%Q in Hkr. change (inject_Z 2) with 2%Q in Hr2.
    assert (Hk0 : (0 <= inject_Z (Z.of_nat k))%Q).
    { change 0%Q with (inject_Z 0). rewrite <- Zle_Qle. lia. }
    assert (Hq : (3 # 2 <= usable / pitch)%Q) by lra.
    assert (Hpos : (0 < pitch)%Q).
    { destruct (Qlt_le_dec 0 pitch) as [|Hneg]; [done|].
      assert (Hlt : (pitch < 0)%Q).
      { apply Qle_lteq in Hneg as [|Heq]; [done|]. by destruct Hp. }
      assert (usable / pitch <= 0)%Q; [|lra].
      assert (E : (usable / pitch == - (usable / - pitch))%Q) by (field; lra).
      rewrite E. assert (0 <= usable / - pitch)%Q; [|lra].
      apply Qle_shift_div_l; lra. }
    assert (Eu : (usable == usable / pitch * pitch)%Q) by (field; lra).
    split; [apply Qmult_le_0_compat; lra|].
    apply Qle_trans with (usable / pitch * pitch)%Q; [|lra].
    apply Qmult_le_compat_r; lra.
Qed.

(** X16: every cell of the grid of a run is painted inside the margins: its
    position is not before the origin plus the margin, and not further
    than the usable width or height from there. *)
Theorem grid_cells_lie_inside_the_margins (args : Args) (cols rows px py : nat) :
  let usable_w := Qmax 0 (width_mm args - 2 * margin_mm args) in
  let usable_h := Qmax 0 (height_mm args - 2 * margin_mm args) in
  grid_size usable_w (dot_pitch_mm args) = Ok cols ->
  grid_size usable_h (dot_pitch_mm args) = Ok rows ->
  px < cols -> py < rows ->
  let x0 := (origin_x args + margin_mm args)%Q in
  let y0 := (origin_y args + margin_mm args)%Q in
  (x0 <= fst (xy_of_pixel args px py) <= x0 + usable_w)%Q /\
  (y0 <= snd (xy_of_pixel args px py) <= y0 + usable_h)%Q.
Proof.
  intros usable_w usable_h Hc Hr Hx Hy x0 y0.
  pose proof (grid_offset_fits usable_w _ _ _ (Q.le_max_l _ _) Hc Hx) as Hox.
  pose proof (grid_offset_fits usable_h _ _ _ (Q.le_max_l _ _) Hr Hy) as Hoy.
  unfold xy_of_pixel. cbn [fst snd]. fold x0 y0. lra.
Qed.

Lemma grid_cells_lie_inside_the_margins_witness :
  (origin_x (sample_args rgb6 30 30 3) + margin_mm (sample_args rgb6 30 30 3)
   <= fst (xy_of_pixel (sample_args rgb6 30 30 3) 9 0)
   <= origin_x (sample_args rgb6 30 30 3) + margin_mm (sample_args rgb6 30 30 3)
      + Qmax 0 (width_mm (sample_args rgb6 30 30 3)
                - 2 * margin_mm (sample_args rgb6 30 30 3)))%Q.
Proof.
  exact (proj1 (grid_cells_lie_inside_the_margins (sample_args rgb6 30 30 3) 10 10 9 0
                  eq_refl eq_refl ltac:(lia) ltac:(lia))).
Defined.

(** ** Lists without repetition *)

Lemma NoDup_flat_map_disjoint {A B} (F : A -> list B) (l : list A) :
  NoDup l -> (forall a, NoDup (F a)) ->
  (forall a a' b, a <> a' -> b ∈ F a -> b ∈ F a' -> False) ->
  NoDup (flat_map F l).
Proof.
  intros Hl HF Hdis. induction Hl as [|a l Ha _ IH]; simpl; [constructor|].
  apply NoDup_app. split; [apply HF|]. split; [|done].
  intros b Hb Hb'. apply list_elem_of_In, in_flat_map in Hb' as (a' & Ha' & Hb').
  apply list_elem_of_In in Ha', Hb'. apply (Hdis a a' b); [|done..].
  intros ->. done.
Qed.

(** * Part V: the two test programs *)

(** ** Streams of the test programs *)

Section MotionBlocks.
Context {R : Type}.

Lemma motion_safe_stream_app ok z (l1 l2 : list (Gcode.line R)) :
  Motion.safe_stream ok z (l1 ++ l2)
  = Motion.safe_stream ok z l1 && Motion.safe_stream ok (Motion.end_z z l1) l2.
Proof.
  revert z. induction l1 as [|l l1 IH]; intros z; simpl; [done|].
  rewrite IH. by rewrite andb_assoc.
Qed.

Lemma motion_end_z_app z (l1 l2 : list (Gcode.line R)) :
  Motion.end_z z (l1 ++ l2) = Motion.end_z (Motion.end_z z l1) l2.
Proof. apply fold_left_app. Qed.

Lemma motion_safe_block_nil ok : Motion.safe_block ok (@nil (Gcode.line R)).
Proof. split; [by intros z Hz|constructor]. Qed.

Lemma motion_safe_block_app ok (l1 l2 : list (Gcode.line R)) :
  Motion.safe_block ok l1 -> Motion.safe_block ok l2 -> Motion.safe_block ok (l1 ++ l2).
Proof.
  intros [H1 P1] [H2 P2]. split; [|by apply Forall_app].
  intros z Hz. destruct (H1 z Hz) as [S1 C1]. destruct (H2 _ C1) as [S2 C2].
  rewrite motion_safe_stream_app, motion_end_z_app, S1, S2. done.
Qed.

Lemma motion_safe_block_concat ok (bs : list (list (Gcode.line R))) :
  Forall (Motion.safe_block ok) bs -> Motion.safe_block ok (concat bs).
Proof.
  induction 1; simpl; [apply motion_safe_block_nil|by apply motion_safe_block_app].
Qed.

Lemma motion_safe_block_flat_map {A} ok (f : A -> list (Gcode.line R)) (l : list A) :
  (forall a, a ∈ l -> Motion.safe_block ok (f a)) -> Motion.safe_block ok (flat_map f l).
Proof.
  induction l as [|a l IH]; intros Hf; simpl; [apply motion_safe_block_nil|].
  apply motion_safe_block_app; [apply Hf; by left|]. apply IH. intros; apply Hf; by right.
Qed.

Lemma motion_dot_block_nil prepaint : Motion.dot_block prepaint (@nil (Gcode.line R)) [].
Proof. exists []. split; [constructor|done]. Qed.

Lemma motion_dot_block_app prepaint (l1 l2 : list (Gcode.line R)) d1 d2 :
  Motion.dot_block prepaint l1 d1 -> Motion.dot_block prepaint l2 d2 ->
  Motion.dot_block prepaint (l1 ++ l2) (d1 ++ d2).
Proof.
  intros (e1 & He1 & H1) (e2 & He2 & H2). exists (e1 ++ e2).
  split; [by apply Forall2_app|]. intros rest. by rewrite <- !app_assoc, H1, H2.
Qed.

Lemma motion_dot_block_concat prepaint (bs : list (list (Gcode.line R))) ds :
  Forall2 (Motion.dot_block prepaint) bs ds ->
  Motion.dot_block prepaint (concat bs) (concat ds).
Proof.
  induction 1; simpl; [apply motion_dot_block_nil|by apply motion_dot_block_app].
Qed.

Lemma motion_dot_block_flat_map {A} prepaint (f : A -> list (Gcode.line R))
    (g : A -> list Motion.dot) (l : list A) :
  (forall a, a ∈ l -> Motion.dot_block prepaint (f a) (g a)) ->
  Motion.dot_block prepaint (flat_map f l) (flat_map g l).
Proof.
  induction l as [|a l IH]; intros Hf; simpl; [apply motion_dot_block_nil|].
  apply motion_dot_block_app; [apply Hf; by left|]. apply IH. intros; apply Hf; by right.
Qed.

(** A block without dots: no X/Y move of the block is followed by a descent
    to the pre-paint height, and the block does not end on an X/Y move. *)
Lemma motion_dot_block_exact prepaint (ls : list (Gcode.line R)) ds :
  (forall rest, Motion.dots prepaint (ls ++ rest) = ds ++ Motion.dots prepaint rest) ->
  Motion.dot_block prepaint ls ds.
Proof.
  intros H. exists ds. split; [|done].
  apply Forall_Forall2_diag, Forall_forall. intros d _. by repeat split.
Qed.
End MotionBlocks.

(** A loop that collects the lines of its iterations, each of which may
    raise. *)
Lemma mapM_result_blocks {A B} (P : A -> B -> Prop) (f : A -> result B) l :
  (forall a, a ∈ l -> exists b, f a = Ok b /\ P a b) ->
  exists bs, mapM f l = Ok bs /\ Forall2 P l bs.
Proof.
  induction l as [|a l IH]; intros Hf; simpl.
  - exists []. split; [done|constructor].
  - destruct (Hf a) as (b & -> & Hb); [by left|]. simpl.
    destruct IH as (bs & -> & Hbs); [intros; apply Hf; by right|].
    simpl. exists (b :: bs). split; [done|by constructor].
Qed.

Lemma flat_map_enumerate {A B} (g : nat -> list B) (l : list A) :
  flat_map (fun p => g (fst p)) (enumerate l) = flat_map g (seq 0 (length l)).
Proof.
  unfold enumerate. generalize 0. induction l as [|a l IH]; intros s; [done|].
  simpl. by rewrite IH.
Qed.

Lemma elem_of_enumerate {A} (l : list A) p : p ∈ enumerate l -> snd p ∈ l.
Proof.
  unfold enumerate. destruct p as [i a]. intros Hp.
  apply list_elem_of_In, in_combine_r in Hp. by apply list_elem_of_In.
Qed.

(** ** The calibration swatch *)

Lemma swatch_stations p c :
  c ∈ Swatch.PALETTES p ->
  exists st, Swatch.make_stations p !! c = Some st /\
             Station.z_safe st = Swatch.Z_SAFE.
Proof.
  intros Hc. destruct p; simpl in Hc;
    repeat (apply elem_of_cons in Hc as [->|Hc];
            [eexists; split; [vm_compute; reflexivity|reflexivity]|]);
    by apply elem_of_nil in Hc.
Qed.

Lemma flat_map_singleton {A B} (f : A -> B) (l : list A) :
  flat_map (fun a => [f a]) l = map f l.
Proof. induction l as [|a l IH]; [done|]. simpl. by rewrite IH. Qed.

Section SwatchBlocks.
Variable ok : Q -> bool.
Hypothesis ok_travel : ok Swatch.Z_TRAVEL = true.
Hypothesis ok_safe : ok Swatch.Z_SAFE = true.

Ltac swatch_safe_lines :=
  split;
  [ intros z Hz; cbn; rewrite ?Hz, ?ok_safe, ?ok_travel; split; reflexivity
  | repeat constructor ].

Lemma swatch_dot_safe args ci c j : Motion.safe_block ok (Swatch.swatch_dot args ci c j).
Proof. swatch_safe_lines. Qed.

Lemma swatch_dot_dots args ci c j :
  Motion.dot_block Swatch.Z_PREPAINT (Swatch.swatch_dot args ci c j)
    [swatch_dot_at args ci j].
Proof.
  eexists [_]. split; [|intros rest; reflexivity].
  constructor; [|constructor]. repeat split; cbn; try reflexivity.
  rewrite Nat2Z.inj_add, inject_Z_plus.
  unfold Swatch.DAB_DWELL_BASE, Swatch.DAB_DWELL_STEP, Swatch.TIME_SCALE.
  change (inject_Z (Z.of_nat 1)) with 1%Q. ring.
Qed.

Lemma swatch_color_block args p ci c :
  c ∈ Swatch.PALETTES p ->
  exists ls,
    Swatch.swatch_color args (Swatch.make_stations p) (ci, c) = Ok ls /\
    Motion.safe_block ok ls /\
    Motion.dot_block Swatch.Z_PREPAINT ls (map (swatch_dot_at args ci) (seq 0 5)).
Proof.
  intros Hc. destruct (swatch_stations p c Hc) as (st & Hst & Hsafe).
  unfold Swatch.swatch_color, Swatch.pickup_brush, Swatch.dip_brush,
    Swatch.return_brush, dict_get.
  rewrite Hst. cbn [mbind result_bind]. eexists. split; [reflexivity|].
  rewrite Hsafe. split.
  - apply motion_safe_block_app; [swatch_safe_lines|].
    apply motion_safe_block_app; [swatch_safe_lines|].
    apply motion_safe_block_app; [|swatch_safe_lines].
    apply motion_safe_block_flat_map. intros j _. apply swatch_dot_safe.
  - rewrite <- (app_nil_l (map _ _)).
    apply motion_dot_block_app; [by apply motion_dot_block_exact|].
    rewrite <- (app_nil_l (map _ _)).
    apply motion_dot_block_app; [by apply motion_dot_block_exact|].
    rewrite <- (app_nil_r (map _ _)).
    apply motion_dot_block_app; [|by apply motion_dot_block_exact].
    rewrite <- flat_map_singleton.
    apply motion_dot_block_flat_map. intros j _. apply swatch_dot_dots.
Qed.

Lemma swatch_main_blocks args :
  exists body,
    Swatch.main args
    = Ok ([Gcode.Comment (Swatch.Title (Swatch.palette args)); Gcode.Setup;
           Gcode.G0 None None (Some Swatch.Z_TRAVEL) None] ++
          body ++
          [Gcode.G0 None None (Some Swatch.Z_TRAVEL) None;
           Gcode.G0 (Some 0%Q) (Some 0%Q) None None; Gcode.M2]) /\
    Motion.safe_block ok body /\
    Motion.dot_block Swatch.Z_PREPAINT body (swatch_dots args).
Proof.
  unfold Swatch.main.
  destruct (mapM_result_blocks
              (fun (it : nat * color) ls =>
                 Motion.safe_block ok ls /\
                 Motion.dot_block Swatch.Z_PREPAINT ls
                   (map (swatch_dot_at args (fst it)) (seq 0 5)))
              (Swatch.swatch_color args (Swatch.make_stations (Swatch.palette args)))
              (enumerate (Swatch.PALETTES (Swatch.palette args))))
    as (bs & -> & Hbs).
  { intros [ci c] Hit. apply elem_of_enumerate in Hit.
    by apply swatch_color_block. }
  cbn [mbind result_bind]. exists (concat bs). split; [done|]. split.
  - apply motion_safe_block_concat.
    clear -Hbs. induction Hbs as [|it ls l bs [Hs _] _ IH]; constructor; done.
  - unfold swatch_dots. rewrite <- (flat_map_enumerate
      (fun ci => map (swatch_dot_at args ci) (seq 0 5))).
    clear -Hbs. induction Hbs as [|it ls l bs [_ Hd] _ IH]; cbn [concat flat_map].
    + apply motion_dot_block_nil.
    + by apply motion_dot_block_app.
Qed.
End SwatchBlocks.

Lemma motion_dots_framed {R} prepaint (pre body post : list (Gcode.line R)) ds :
  (forall rest, Motion.dots prepaint (pre ++ rest) = Motion.dots prepaint rest) ->
  Motion.dots prepaint post = [] ->
  Motion.dot_block prepaint body ds ->
  Forall2 Motion.dot_eq (Motion.dots prepaint (pre ++ body ++ post)) ds.
Proof.
  intros Hpre Hpost (ds' & Heq & Hbody). by rewrite Hpre, Hbody, Hpost, app_nil_r.
Qed.

Lemma motion_safe_framed {R} ok (r : R) (zt : Q) (body : list (Gcode.line R)) :
  ok zt = true -> Motion.safe_block ok body ->
  Motion.safe_stream ok None
    ([Gcode.Comment r; Gcode.Setup; Gcode.G0 None None (Some zt) None] ++
     body ++
     [Gcode.G0 None None (Some zt) None; Gcode.G0 (Some 0%Q) (Some 0%Q) None None;
      Gcode.M2]) = true /\
  Forall (fun l => Motion.is_xy_move l = true -> Motion.z_word l = None)
    ([Gcode.Comment r; Gcode.Setup; Gcode.G0 None None (Some zt) None] ++
     body ++
     [Gcode.G0 None None (Some zt) None; Gcode.G0 (Some 0%Q) (Some 0%Q) None None;
      Gcode.M2]).
Proof.
  intros Hok [Hsafe Hpure]. split.
  - rewrite motion_safe_stream_app.
    change (Motion.safe_stream ok None
              [Gcode.Comment r; Gcode.Setup; Gcode.G0 None None (Some zt) None])
      with true.
    change (Motion.end_z None
              [Gcode.Comment r; Gcode.Setup; Gcode.G0 None None (Some zt) None])
      with (Some zt).
    destruct (Hsafe (Some zt) Hok) as [Hs _].
    rewrite motion_safe_stream_app, Hs.
    cbn [andb Motion.safe_stream Motion.is_xy_move Motion.track_z Motion.z_word
         present orb clear_at].
    by rewrite Hok.
  - rewrite !Forall_app. split; [by repeat constructor|]. split; [|by repeat constructor].
    eapply Forall_impl; [exact Hpure|]. intros l Hl Hxy. unfold Motion.pure_move in Hl.
    rewrite Hxy in Hl. by destruct (Motion.z_word l).
Qed.

(** X18: the swatch program raises nothing, and its stream keeps the safe
    height: at every X/Y move the tracked height is the safe height or the
    travel height, and no line moves in X or Y and in Z at once. *)
Theorem swatch_main_keeps_the_safe_height (args : Swatch.Args) :
  exists lines,
    Swatch.main args = Ok lines /\
    Motion.safe_stream (Motion.at_one_of Swatch.Z_SAFE Swatch.Z_TRAVEL) None lines = true /\
    Forall (fun l => Motion.is_xy_move l = true -> Motion.z_word l = None) lines.
Proof.
  destruct (swatch_main_blocks (Motion.at_one_of Swatch.Z_SAFE Swatch.Z_TRAVEL)
              eq_refl eq_refl args) as (body & -> & Hsafe & _).
  eexists. split; [reflexivity|]. by apply motion_safe_framed.
Qed.

(** X19: the swatch has a column for each colour of the palette and five dots
    in each: dot [j] of the colour of index [ci] is at X origin + ci pitch,
    Y origin + j pitch, at the paint depth, with a dwell of 50 (j + 1) ms;
    the stream holds these dots, colour by colour, and no other. *)
Theorem swatch_main_paints_five_dots_per_color (args : Swatch.Args) :
  exists lines,
    Swatch.main args = Ok lines /\
    Forall2 Motion.dot_eq (Motion.dots Swatch.Z_PREPAINT lines) (swatch_dots args) /\
    length (Motion.dots Swatch.Z_PREPAINT lines)
    = 5 * length (Swatch.PALETTES (Swatch.palette args)).
Proof.
  destruct (swatch_main_blocks (Motion.at_one_of Swatch.Z_SAFE Swatch.Z_TRAVEL)
              eq_refl eq_refl args) as (body & -> & _ & Hdots).
  eexists. split; [reflexivity|].
  assert (Hall : Forall2 Motion.dot_eq
            (Motion.dots Swatch.Z_PREPAINT
               ([Gcode.Comment (Swatch.Title (Swatch.palette args)); Gcode.Setup;
                 Gcode.G0 None None (Some Swatch.Z_TRAVEL) None] ++
                body ++
                [Gcode.G0 None None (Some Swatch.Z_TRAVEL) None;
                 Gcode.G0 (Some 0%Q) (Some 0%Q) None None; Gcode.M2]))
            (swatch_dots args)).
  { by apply motion_dots_framed. }
  split; [done|]. rewrite (Forall2_length _ _ _ Hall). unfold swatch_dots.
  rewrite (flat_map_constant_length (c := 5)) by (intros; by rewrite length_map).
  rewrite length_seq. lia.
Qed.

(** ** The mixing grid *)

(** X21: [value_to_z] gives no depth to a value that is not positive, without
    looking at the colour; for a positive value it raises a key error when
    the colour has no range, and else gives the depth between the two ends
    of the range: the ends at the values 0 and 1, and a depth within the
    range for a value up to 1. *)
Theorem mixing_value_to_z_cases (color : color) (value : Q) (z_ranges : Mixing.z_table) :
  match Mixing.value_to_z color value z_ranges with
  | Ok None => (value <= 0)%Q
  | Ok (Some z) =>
      (0 < value)%Q /\
      exists zmin zmax,
        z_ranges !! color = Some (zmin, zmax) /\
        (z == zmin + (zmax - zmin) * value)%Q /\
        ((value == 1)%Q -> (z == zmax)%Q) /\
        ((value <= 1)%Q -> (zmax <= zmin)%Q -> (zmax <= z <= zmin)%Q)
  | Err e => e = KeyError /\ (0 < value)%Q /\ z_ranges !! color = None
  end.
Proof.
  unfold Mixing.value_to_z, dict_get. destruct (Qle_bool value 0) eqn:E.
  - by apply Qle_bool_iff.
  - assert (Hv : (0 < value)%Q).
    { apply Qnot_le_lt. intros Hle. apply Qle_bool_iff in Hle. congruence. }
    unfold Mixing.z_table in *.
    destruct (z_ranges !! color) as [[zmin zmax]|]; simpl; [|done].
    split; [done|]. exists zmin, zmax. split; [done|]. unfold Mixing.lerp.
    split; [reflexivity|]. split.
    + intros ->. ring.
    + intros Hv1 Hz. split; nra.
Qed.

Lemma mixing_stations p c :
  c ∈ Mixing.PALETTES p ->
  exists st, Mixing.make_stations p !! c = Some st /\
             Station.z_safe st = Mixing.Z_SAFE /\
             Station.z_pick st = Mixing.Z_PICK.
Proof.
  intros Hc. destruct p; simpl in Hc;
    repeat (apply elem_of_cons in Hc as [->|Hc];
            [eexists; split; [vm_compute; reflexivity|split; reflexivity]|]);
    by apply elem_of_nil in Hc.
Qed.

Lemma mixing_sweep i n : Mixing.sweep i n = Ok (sweep_value i n).
Proof.
  unfold Mixing.sweep, sweep_value. destruct (Z.ltb_spec 1 n) as [Hn|Hn]; [|done].
  apply py_div_ok. intros H0. change 0%Q with (inject_Z 0) in H0.
  pose proof (proj1 (inject_Z_injective _ _) H0). lia.
Qed.

Section MixingBlocks.
Variable ok : Q -> bool.
Hypothesis ok_travel : ok Mixing.Z_TRAVEL = true.
Hypothesis ok_safe : ok Mixing.Z_SAFE = true.

Ltac mixing_safe_lines :=
  split;
  [ intros zc Hzc; cbn; rewrite ?Hzc, ?ok_safe, ?ok_travel; split; reflexivity
  | repeat constructor ].

(** The dot of one colour: nothing for a value that is not positive, and
    else a brush change around one dot at the depth of the value. *)
Lemma mixing_mix_dot stations values z_ranges c st v x y x' y' :
  stations !! c = Some st -> Station.z_safe st = Mixing.Z_SAFE ->
  values !! c = Some v -> z_ranges !! c = Some (-0.5, -2)%Q ->
  (x == x')%Q -> (y == y')%Q ->
  exists ls,
    Mixing.mix_dot stations values z_ranges c x y = Ok ls /\
    Motion.safe_block ok ls /\
    Motion.dot_block Mixing.Z_PREPAINT ls
      (if Qle_bool v 0 then [] else [mix_dot_at x' y' v]).
Proof.
  intros Hst Hsafe Hv Hz Hx Hy. unfold Mixing.z_table in *.
  unfold Mixing.mix_dot, Mixing.value_to_z, dict_get. rewrite Hst, Hv.
  cbn [mbind result_bind]. destruct (Qle_bool v 0).
  - cbn [mbind result_bind]. eexists. split; [reflexivity|].
    split; [apply motion_safe_block_nil|apply motion_dot_block_nil].
  - rewrite Hz. cbn [mbind result_bind]. eexists. split; [reflexivity|].
    unfold Mixing.pickup_brush, Mixing.dip_brush, Mixing.return_brush.
    rewrite Hsafe. split.
    + apply motion_safe_block_app; [mixing_safe_lines|].
      apply motion_safe_block_app; [mixing_safe_lines|].
      apply motion_safe_block_app; [mixing_safe_lines|].
      apply motion_safe_block_app; mixing_safe_lines.
    + eexists [_]. split; [|intros rest; reflexivity].
      constructor; [|constructor]. unfold mix_dot_at, mix_depth, Mixing.lerp.
      split; [|split; [|split]];
        cbn [Motion.dot_x Motion.dot_y Motion.dot_z Motion.dot_dwell];
        [done|done|field|reflexivity].
Qed.

Ltac mix_dot_step c v x' y' ls E S D :=
  match goal with
  | |- context [Mixing.mix_dot (Mixing.make_stations ?p) ?vals ?zr c ?x ?y] =>
      let st := fresh "st" in
      let Hst := fresh "Hst" in
      let Hsafe := fresh "Hsafe" in
      destruct (mixing_stations p c) as (st & Hst & Hsafe & _);
      [ apply (bool_decide_unpack _); by vm_compute | ];
      destruct (mixing_mix_dot (Mixing.make_stations p) vals zr c st v x y x' y')
        as (ls & E & S & D);
      [ exact Hst
      | exact Hsafe
      | repeat (rewrite lookup_insert_ne by done); apply lookup_insert_eq
      | vm_compute; reflexivity
      | unfold Mixing.VERTEX_RADIUS; field
      | unfold Mixing.VERTEX_RADIUS; field
      | rewrite E; cbn [mbind result_bind mret result_ret]; clear st Hst Hsafe E ]
  end.

Lemma mixing_cluster_block args row col :
  exists ls,
    Mixing.cluster args (Mixing.make_stations (Mixing.palette args))
      (Mixing.PALETTES (Mixing.palette args))
      (match Mixing.palette args with
       | rgb6 => Mixing.Z_RANGES_RGB
       | cmyk => Mixing.Z_RANGES_CMYK
       end) row col = Ok ls /\
    Motion.safe_block ok ls /\
    Motion.dot_block Mixing.Z_PREPAINT ls (mixing_cluster_dots args row col).
Proof.
  unfold Mixing.cluster, mixing_cluster_dots. rewrite !mixing_sweep.
  cbn [mbind result_bind].
  set (t_x := sweep_value col (Mixing.grid_cols args)).
  set (t_y := sweep_value row (Mixing.grid_rows args)).
  set (base_x := (Mixing.origin_x args + inject_Z (Z.of_nat col) * Mixing.dot_pitch_mm args)%Q).
  set (base_y := (Mixing.origin_y args + inject_Z (Z.of_nat row) * Mixing.dot_pitch_mm args)%Q).
  assert (Hremark : forall r : Mixing.remark, Motion.safe_block ok [Gcode.Comment r])
    by (intros r; mixing_safe_lines).
  assert (Hmark : forall r : Mixing.remark,
            Motion.dot_block Mixing.Z_PREPAINT [Gcode.Comment r] [])
    by (intros r; by apply motion_dot_block_exact).
  destruct (Mixing.palette args);
    unfold Mixing.TRIANGLE_OFFSETS, Mixing.CENTER_OFFSET;
    cbn [Mixing.PALETTES Mixing.COLOR_ORDER_RGB6 Mixing.COLOR_ORDER_CMYK
         take zip zip_with mapM fst snd getitem lookup list_lookup].
  - mix_dot_step red t_x base_x (base_y - 8)%Q l1 E1 S1 D1.
    mix_dot_step yellow t_y (base_x - 6.928)%Q (base_y + 4)%Q l2 E2 S2 D2.
    mix_dot_step blue 0.5%Q (base_x + 6.928)%Q (base_y + 4)%Q l3 E3 S3 D3.
    mix_dot_step white 1%Q base_x base_y l4 E4 S4 D4.
    eexists. split; [reflexivity|]. cbn [concat]. rewrite app_nil_r. split.
    + apply (motion_safe_block_app ok [_]); [apply Hremark|].
      rewrite <- !app_assoc. by repeat apply motion_safe_block_app.
    + apply (motion_dot_block_app _ [_] _ []); [apply Hmark|].
      rewrite <- !app_assoc. by repeat apply motion_dot_block_app.
  - mix_dot_step cyan t_x base_x (base_y - 8)%Q l1 E1 S1 D1.
    mix_dot_step magenta t_y (base_x - 6.928)%Q (base_y + 4)%Q l2 E2 S2 D2.
    mix_dot_step yellow 0.5%Q (base_x + 6.928)%Q (base_y + 4)%Q l3 E3 S3 D3.
    mix_dot_step black 0%Q base_x base_y l4 E4 S4 D4.
    eexists. split; [reflexivity|]. cbn [concat]. rewrite app_nil_r. split.
    + apply (motion_safe_block_app ok [_]); [apply Hremark|].
      rewrite <- !app_assoc. by repeat apply motion_safe_block_app.
    + apply (motion_dot_block_app _ [_] _ []); [apply Hmark|].
      rewrite <- !app_assoc. by repeat apply motion_dot_block_app.
Qed.

Lemma mixing_main_blocks args :
  exists body,
    Mixing.main args
    = Ok ([Gcode.Comment (Mixing.Title (Mixing.palette args)); Gcode.Setup;
           Gcode.G0 None None (Some Mixing.Z_TRAVEL) None] ++
          body ++
          [Gcode.G0 None None (Some Mixing.Z_TRAVEL) None;
           Gcode.G0 (Some 0%Q) (Some 0%Q) None None; Gcode.M2]) /\
    Motion.safe_block ok body /\
    Motion.dot_block Mixing.Z_PREPAINT body (mixing_dots args).
Proof.
  unfold Mixing.main. fold (mixing_cells args).
  destruct (mapM_result_blocks
              (fun (cell : nat * nat) ls =>
                 Motion.safe_block ok ls /\
                 Motion.dot_block Mixing.Z_PREPAINT ls
                   (mixing_cluster_dots args (fst cell) (snd cell)))
              (fun '(row, col) =>
                 Mixing.cluster args (Mixing.make_stations (Mixing.palette args))
                   (Mixing.PALETTES (Mixing.palette args))
                   (match Mixing.palette args with
                    | rgb6 => Mixing.Z_RANGES_RGB
                    | cmyk => Mixing.Z_RANGES_CMYK
                    end) row col)
              (mixing_cells args))
    as (bs & -> & Hbs).
  { intros [row col] _. apply mixing_cluster_block. }
  cbn [mbind result_bind]. exists (concat bs). split; [done|]. split.
  - apply motion_safe_block_concat.
    clear -Hbs. induction Hbs as [|it ls l bs [Hs _] _ IH]; constructor; done.
  - unfold mixing_dots.
    clear -Hbs. induction Hbs as [|it ls l bs [_ Hd] _ IH]; cbn [concat flat_map].
    + apply motion_dot_block_nil.
    + by apply motion_dot_block_app.
Qed.
End MixingBlocks.

(** X22: the mixing grid program raises nothing, whatever the numbers of rows
    and columns (one, zero and negative numbers included), and its stream
    keeps the safe height: at every X/Y move the tracked height is the
    safe height or the travel height, and no line moves in X or Y and in Z
    at once. *)
Theorem mixing_main_keeps_the_safe_height (args : Mixing.Args) :
  exists lines,
    Mixing.main args = Ok lines /\
    Motion.safe_stream (Motion.at_one_of Mixing.Z_SAFE Mixing.Z_TRAVEL) None lines = true /\
    Forall (fun l => Motion.is_xy_move l = true -> Motion.z_word l = None) lines.
Proof.
  destruct (mixing_main_blocks (Motion.at_one_of Mixing.Z_SAFE Mixing.Z_TRAVEL)
              eq_refl eq_refl args) as (body & -> & Hsafe & _).
  eexists. split; [reflexivity|]. by apply motion_safe_framed.
Qed.

(** X23: the stream of the mixing grid holds the dots of the clusters, row by
    row, and no other dot: in a cluster the first vertex, 8 mm before the
    centre in Y, has the value swept along the columns; the second, 6.928
    mm to the left and 4 mm further, the value swept along the rows; the
    third, 6.928 mm to the right and 4 mm further, the value 0.5; the
    centre has the value 1 in rgb6 and no dot in cmyk.  A vertex whose
    value is 0 has no dot; a dot is at the depth -0.5 - 1.5 value and
    dwells 100 ms. *)
Theorem mixing_main_paints_the_clusters (args : Mixing.Args) :
  exists lines,
    Mixing.main args = Ok lines /\
    Forall2 Motion.dot_eq (Motion.dots Mixing.Z_PREPAINT lines) (mixing_dots args).
Proof.
  destruct (mixing_main_blocks (Motion.at_one_of Mixing.Z_SAFE Mixing.Z_TRAVEL)
              eq_refl eq_refl args) as (body & -> & _ & Hdots).
  eexists. split; [reflexivity|]. by apply motion_dots_framed.
Qed.

Lemma mixing_cells_elem args row col :
  (row, col) ∈ mixing_cells args ->
  row < Z.to_nat (Mixing.grid_rows args) /\ col < Z.to_nat (Mixing.grid_cols args).
Proof.
  unfold mixing_cells, Mixing.range. intros Hin.
  apply list_elem_of_bind in Hin as (r & Hin & Hr).
  apply list_elem_of_bind in Hin as (c & Hin & Hc).
  apply list_elem_of_singleton in Hin as [= -> ->].
  apply list_elem_of_In, in_seq in Hr, Hc. lia.
Qed.

Lemma sweep_value_range i n :
  i < Z.to_nat n -> (0 <= sweep_value i n <= 1)%Q.
Proof.
  intros Hi. unfold sweep_value. destruct (Z.ltb_spec 1 n) as [Hn|Hn]; [|lra].
  assert (Hd : (0 < inject_Z (n - 1))%Q).
  { change 0%Q with (inject_Z 0). rewrite <- Zlt_Qlt. lia. }
  assert (Hlo : (0 <= inject_Z (Z.of_nat i))%Q).
  { change 0%Q with (inject_Z 0). rewrite <- Zle_Qle. lia. }
  assert (Hhi : (inject_Z (Z.of_nat i) <= inject_Z (n - 1))%Q).
  { rewrite <- Zle_Qle. lia. }
  split.
  - apply Qle_shift_div_l; [done|]. lra.
  - apply Qle_shift_div_r; [done|]. lra.
Qed.

Lemma mix_depth_range v :
  (0 < v <= 1)%Q -> (-2 <= mix_depth v < - (1 # 2))%Q.
Proof. unfold mix_depth. intros [H0 H1]. split; lra. Qed.

(** X24: every dot of the mixing grid is at a depth from -2 mm to just under
    -0.5 mm, and dwells 100 ms: the brush always touches, and never goes
    deeper than the end of the range. *)
Theorem mixing_depths_stay_in_range (args : Mixing.Args)
    (lines : list (Gcode.line Mixing.remark)) :
  Mixing.main args = Ok lines ->
  Forall (fun d => (-2 <= Motion.dot_z d < - (1 # 2))%Q /\ (Motion.dot_dwell d == 100)%Q)
         (Motion.dots Mixing.Z_PREPAINT lines).
Proof.
  intros Hmain.
  destruct (mixing_main_blocks (Motion.at_one_of Mixing.Z_SAFE Mixing.Z_TRAVEL)
              eq_refl eq_refl args) as (body & Hrun & _ & Hdots).
  assert (Hlines :
    lines = [Gcode.Comment (Mixing.Title (Mixing.palette args)); Gcode.Setup;
             Gcode.G0 None None (Some Mixing.Z_TRAVEL) None] ++
            body ++
            [Gcode.G0 None None (Some Mixing.Z_TRAVEL) None;
             Gcode.G0 (Some 0%Q) (Some 0%Q) None None; Gcode.M2]) by congruence.
  rewrite Hlines. clear Hlines Hrun Hmain.
  eapply Forall2_Forall_l; [by apply motion_dots_framed|].
  assert (Hdot : forall x y v, (0 < v <= 1)%Q ->
            forall d, Motion.dot_eq d (mix_dot_at x y v) ->
              (-2 <= Motion.dot_z d < - (1 # 2))%Q /\ (Motion.dot_dwell d == 100)%Q).
  { intros x y v Hv d (_ & _ & Hz & Hw). cbn in Hz, Hw.
    pose proof (mix_depth_range v Hv). split; [lra|done]. }
  unfold mixing_dots. apply Forall_forall. intros d Hd.
  apply list_elem_of_In, in_flat_map in Hd as ([row col] & Hcell & Hd).
  apply list_elem_of_In, mixing_cells_elem in Hcell as [Hrow Hcol].
  pose proof (sweep_value_range _ _ Hcol) as Hx.
  pose proof (sweep_value_range _ _ Hrow) as Hy.
  unfold mixing_cluster_dots in Hd. cbn [fst snd] in Hd.
  apply in_app_or in Hd as [Hd|Hd].
  { destruct (Qle_bool (sweep_value col _) 0) eqn:E; [done|].
    destruct Hd as [<-|[]]. apply Hdot. split; [|lra].
    apply Qnot_le_lt. intros Hle. apply Qle_bool_iff in Hle. congruence. }
  apply in_app_or in Hd as [Hd|Hd].
  { destruct (Qle_bool (sweep_value row _) 0) eqn:E; [done|].
    destruct Hd as [<-|[]]. apply Hdot. split; [|lra].
    apply Qnot_le_lt. intros Hle. apply Qle_bool_iff in Hle. congruence. }
  apply in_app_or in Hd as [Hd|Hd].
  { destruct Hd as [<-|[]]. apply Hdot. split; by vm_compute. }
  destruct (Mixing.palette args); [|done].
  destruct Hd as [<-|[]]. apply Hdot. split; by vm_compute.
Qed.

Lemma mixing_depths_stay_in_range_witness :
  exists lines,
    Mixing.main sample_mixing = Ok lines /\
    Forall (fun d => (-2 <= Motion.dot_z d < - (1 # 2))%Q /\ (Motion.dot_dwell d == 100)%Q)
           (Motion.dots Mixing.Z_PREPAINT lines).
Proof.
  destruct (mixing_main_blocks (Motion.at_one_of Mixing.Z_SAFE Mixing.Z_TRAVEL)
              eq_refl eq_refl sample_mixing) as (body & Hrun & _).
  eexists. split; [exact Hrun|].
  apply (mixing_depths_stay_in_range sample_mixing _ Hrun).
Defined.

(** ** The number of dots of the mixing grid *)

Lemma length_flat_map_sum {A B} (g : A -> list B) (l : list A) :
  length (flat_map g l) = sum_list_with (fun a => length (g a)) l.
Proof.
  induction l as [|a l IH]; [done|]. simpl. by rewrite length_app, IH.
Qed.

Lemma sum_list_with_ext_elem {A} (f g : A -> nat) (l : list A) :
  (forall a, a ∈ l -> f a = g a) -> sum_list_with f l = sum_list_with g l.
Proof.
  induction l as [|a l IH]; intros Hfg; [done|]. simpl.
  rewrite (Hfg a) by (by left). f_equal. apply IH. intros; apply Hfg; by right.
Qed.

Lemma sum_list_with_bind {A B} (f : B -> nat) (h : A -> list B) (l : list A) :
  sum_list_with f (l ≫= h) = sum_list_with (fun a => sum_list_with f (h a)) l.
Proof.
  induction l as [|a l IH]; [done|].
  rewrite bind_cons, sum_list_with_app, IH. done.
Qed.

(** Over the indices below [n]: one for each index but the first. *)
Lemma sum_but_first (k n : nat) :
  sum_list_with (fun i => (if i =? 0 then 0 else 1) + k) (seq 0 n) = (n - 1) + n * k.
Proof.
  induction n as [|n IH]; [done|].
  rewrite seq_S, sum_list_with_app, IH. simpl. destruct n; simpl; lia.
Qed.

Lemma sweep_value_zero i n :
  i < Z.to_nat n -> Qle_bool (sweep_value i n) 0 = (i =? 0).
Proof.
  intros Hi. unfold sweep_value. destruct (Z.ltb_spec 1 n) as [Hn|Hn].
  - assert (Hd : (0 < inject_Z (n - 1))%Q).
    { change 0%Q with (inject_Z 0). rewrite <- Zlt_Qlt. lia. }
    destruct (Nat.eqb_spec i 0) as [->|Hne].
    + apply Qle_bool_iff. change (inject_Z (Z.of_nat 0)) with 0%Q.
      unfold Qdiv. rewrite Qmult_0_l. lra.
    + destruct (Qle_bool _ 0) eqn:E; [|done]. apply Qle_bool_iff in E.
      assert (Hpos : (0 < inject_Z (Z.of_nat i))%Q).
      { change 0%Q with (inject_Z 0). rewrite <- Zlt_Qlt. lia. }
      assert (0 < inject_Z (Z.of_nat i) / inject_Z (n - 1))%Q; [|lra].
      apply Qlt_shift_div_l; [done|]. lra.
  - assert (i = 0) as -> by lia. done.
Qed.

Lemma mixing_cluster_count args row col :
  (row, col) ∈ mixing_cells args ->
  length (mixing_cluster_dots args row col)
  = (if col =? 0 then 0 else 1) +
    ((if row =? 0 then 0 else 1) +
     match Mixing.palette args with rgb6 => 2 | cmyk => 1 end).
Proof.
  intros Hcell. apply mixing_cells_elem in Hcell as [Hrow Hcol].
  unfold mixing_cluster_dots.
  rewrite (sweep_value_zero _ _ Hrow), (sweep_value_zero _ _ Hcol).
  rewrite !length_app.
  destruct (col =? 0), (row =? 0), (Mixing.palette args); reflexivity.
Qed.

(** X25: the number of dots of a grid of [r] rows and [c] columns: the first
    vertex is missing in the first column and the second in the first
    row; the third is in every cluster, and so is the centre in rgb6. *)
Theorem mixing_number_of_dots (args : Mixing.Args) :
  let r := Z.to_nat (Mixing.grid_rows args) in
  let c := Z.to_nat (Mixing.grid_cols args) in
  exists lines,
    Mixing.main args = Ok lines /\
    length (Motion.dots Mixing.Z_PREPAINT lines)
    = r * (c - 1) + (r - 1) * c +
      match Mixing.palette args with rgb6 => 2 | cmyk => 1 end * (r * c).
Proof.
  intros r c.
  destruct (mixing_main_blocks (Motion.at_one_of Mixing.Z_SAFE Mixing.Z_TRAVEL)
              eq_refl eq_refl args) as (body & -> & _ & Hdots).
  eexists. split; [reflexivity|].
  assert (Hall : Forall2 Motion.dot_eq
            (Motion.dots Mixing.Z_PREPAINT
               ([Gcode.Comment (Mixing.Title (Mixing.palette args)); Gcode.Setup;
                 Gcode.G0 None None (Some Mixing.Z_TRAVEL) None] ++
                body ++
                [Gcode.G0 None None (Some Mixing.Z_TRAVEL) None;
                 Gcode.G0 (Some 0%Q) (Some 0%Q) None None; Gcode.M2]))
            (mixing_dots args)).
  { by apply motion_dots_framed. }
  rewrite (Forall2_length _ _ _ Hall). unfold mixing_dots.
  rewrite length_flat_map_sum.
  rewrite (sum_list_with_ext_elem _
             (fun cell => (if snd cell =? 0 then 0 else 1) +
                          ((if fst cell =? 0 then 0 else 1) +
                           match Mixing.palette args with rgb6 => 2 | cmyk => 1 end)))
    by (intros [row col] Hcell; by apply mixing_cluster_count).
  unfold mixing_cells, Mixing.range. fold r c.
  rewrite sum_list_with_bind.
  rewrite (sum_list_with_ext_elem _
             (fun row => (if row =? 0 then 0 else 1) * c +
                         ((c - 1) + c * match Mixing.palette args with
                                        | rgb6 => 2 | cmyk => 1 end))).
  - set (k := match Mixing.palette args with rgb6 => 2 | cmyk => 1 end).
    clearbody k. clear. induction r as [|r IH]; [simpl; lia|].
    rewrite seq_S, sum_list_with_app, IH. simpl. destruct r; simpl; lia.
  - intros row _. rewrite sum_list_with_bind. cbn [fst snd sum_list_with].
    rewrite (sum_list_with_ext_elem _
               (fun col => (if col =? 0 then 0 else 1) +
                           ((if row =? 0 then 0 else 1) +
                            match Mixing.palette args with rgb6 => 2 | cmyk => 1 end)))
      by (intros; lia).
    rewrite sum_but_first. destruct (row =? 0); lia.
Qed.

(** * Part IV: properties of the program in binary64 *)

Import PrimFloat.
#[local] Set Warnings "-inexact-float".

(** ** Stations and passes *)

Lemma b64_make_stations_keys p c :
  In c (PALETTES p) -> is_Some (Binary64.make_stations p !! c).
Proof.
  destruct p; simpl; intros H;
    repeat (destruct H as [<-|H]; [by vm_compute; eexists|]); destruct H.
Qed.

Section B64Passes.
Variable hypot : float -> float -> float.
Variable every_n_dots : nat.
Variable after_travel_mm : float.

Lemma b64_color_pass_inv color_points stations args serp c ls :
  Binary64.color_pass hypot every_n_dots after_travel_mm color_points stations args serp c
  = Ok ls ->
  (color_points !! c = Some [] /\ ls = []) \/
  exists st pts,
    stations !! c = Some st /\ color_points !! c = Some pts /\ pts <> [] /\
    ls = Binary64.Comment (Binary64.ColorHeader c (length pts)) ::
         Binary64.pickup_lines c st ++ Binary64.dip_lines c st ++
         Binary64.lines
           (fold_left (Binary64.dab_step hypot every_n_dots after_travel_mm args pts
                         (Binary64.dip_lines c st)) serp Binary64.dab_init) ++
         Binary64.clean_lines st ++ Binary64.return_lines c st.
Proof.
  unfold Binary64.color_pass, Binary64.pickup_brush, Binary64.dip_brush,
    Binary64.return_brush, dict_get.
  destruct (color_points !! c) as [pts|]; simpl; [|done].
  destruct pts as [|p pts]; [intros [= <-]; by left|].
  destruct (stations !! c) as [st|]; simpl; [|done].
  intros [= <-]. right. exists st, (p :: pts). done.
Qed.

Lemma b64_color_pass_ok color_points stations args serp c :
  is_Some (color_points !! c) -> is_Some (stations !! c) ->
  exists ls, Binary64.color_pass hypot every_n_dots after_travel_mm color_points stations
               args serp c = Ok ls.
Proof.
  intros [pts Hp] [st Hs].
  unfold Binary64.color_pass, Binary64.pickup_brush, Binary64.dip_brush,
    Binary64.return_brush, dict_get.
  rewrite Hp; simpl. destruct pts; [by eexists|]. rewrite Hs; simpl. by eexists.
Qed.

Lemma b64_gen_gcode_inv color_points color_order grid_cols grid_rows stations args lines :
  Binary64.gen_gcode hypot every_n_dots after_travel_mm color_points color_order
    grid_cols grid_rows stations args = Ok lines ->
  exists passes,
    Forall2 (fun c ls =>
               Binary64.color_pass hypot every_n_dots after_travel_mm color_points stations
                 args (serpentine_indices grid_cols grid_rows) c = Ok ls)
            color_order passes /\
    lines = Binary64.preamble grid_cols grid_rows args ++ concat passes ++
            Binary64.postamble.
Proof.
  unfold Binary64.gen_gcode.
  destruct (mapM _ color_order) as [passes|e] eqn:E; simpl; [|done].
  intros [= <-]. exists passes. split; [|done]. by apply mapM_result_inv.
Qed.

Lemma b64_gen_gcode_ok color_points color_order grid_cols grid_rows stations args :
  (forall c, In c color_order ->
     is_Some (color_points !! c) /\ is_Some (stations !! c)) ->
  exists lines,
    Binary64.gen_gcode hypot every_n_dots after_travel_mm color_points color_order
      grid_cols grid_rows stations args = Ok lines.
Proof.
  intros Hkeys. unfold Binary64.gen_gcode.
  destruct (mapM_result_ok
              (Binary64.color_pass hypot every_n_dots after_travel_mm color_points
                 stations args (serpentine_indices grid_cols grid_rows)) color_order)
    as [passes ->].
  - intros c Hc. destruct (Hkeys c Hc). by apply b64_color_pass_ok.
  - simpl. by eexists.
Qed.
End B64Passes.

(** ** The re-dip schedule *)

Section B64Redip.
Variable hypot : float -> float -> float.
Variable every_n_dots : nat.
Variable after_travel_mm : float.

Lemma b64_dab_loop_positions args pts dip serp s :
  fold_left (Binary64.dab_step hypot every_n_dots after_travel_mm args pts dip) serp s
  = fold_left (Binary64.dab_at hypot every_n_dots after_travel_mm dip)
              (Binary64.dab_positions args pts serp) s.
Proof.
  unfold Binary64.dab_positions. revert s.
  induction serp as [|p serp IH]; intros s; [done|].
  simpl. rewrite filter_cons. unfold Binary64.dab_step at 2.
  destruct (decide (p ∈ pts)) as [Hin|Hin].
  - rewrite bool_decide_eq_true_2 by done. simpl. apply IH.
  - rewrite bool_decide_eq_false_2 by done. apply IH.
Qed.


Lemma b64_redip_schedule_length ps n :
  length (Binary64.redip_schedule hypot every_n_dots after_travel_mm ps n) = n.
Proof.
  induction n as [|k IH]; simpl; [done|]. rewrite length_app, IH. simpl. lia.
Qed.



(** The running sum over one more leg is the sum so far plus that leg. *)
Lemma b64_fsum_legs_snoc ps a n :
  Binary64.fsum (map (Binary64.leg hypot ps) (seq a (S n)))
  = (Binary64.fsum (map (Binary64.leg hypot ps) (seq a n))
     + Binary64.leg hypot ps (a + n))%float.
Proof.
  unfold Binary64.fsum. by rewrite seq_S, map_app, fold_left_app.
Qed.

Lemma b64_dab_state_after_init dip ps :
  Binary64.dab_state_after hypot dip ps [] 0 Binary64.dab_init.
Proof. unfold Binary64.dab_state_after, Binary64.dab_init. simpl. repeat split. Qed.

Lemma b64_dab_state_after_step dip ps k s pos :
  ps !! k = Some pos ->
  Binary64.dab_state_after hypot dip ps
    (Binary64.redip_schedule hypot every_n_dots after_travel_mm ps k) k s ->
  Binary64.dab_state_after hypot dip ps
    (Binary64.redip_schedule hypot every_n_dots after_travel_mm ps (S k)) (S k)
    (Binary64.dab_at hypot every_n_dots after_travel_mm dip s pos).
Proof.
  intros Hpos (Hlines & Hdots & Htravel & Hlast).
  simpl Binary64.redip_schedule.
  set (fl := Binary64.redip_schedule hypot every_n_dots after_travel_mm ps k) in *.
  assert (Hfl : length fl = k) by apply b64_redip_schedule_length.
  pose proof (last_redip_le fl k) as HL.
  set (L := last_redip fl k) in *.
  destruct pos as [x_mm y_mm]. unfold Binary64.dab_at.
  set (travel := match Binary64.last s with
                 | Some l => (Binary64.travel_since s
                              + hypot (x_mm - fst l) (y_mm - snd l))%float
                 | None => Binary64.travel_since s
                 end).
  assert (Ht : travel = Binary64.travel_since_redip hypot ps fl k).
  { unfold travel, Binary64.travel_since_redip. fold L. destruct k as [|j].
    - rewrite Hlast, Htravel. done.
    - rewrite Hlast.
      assert (L < S j) by (apply last_redip_lt; lia).
      destruct (ps !! j) as [a|] eqn:Ha.
      + replace (S j - L) with (S (j - L)) by lia.
        rewrite b64_fsum_legs_snoc. replace (S L + (j - L)) with (S j) by lia.
        rewrite Htravel. replace (S j - 1 - L) with (j - L) by lia.
        simpl Binary64.leg. by rewrite Ha, Hpos.
      + apply lookup_ge_None in Ha. apply lookup_lt_Some in Hpos. lia. }
  set (flag := Binary64.redip_due hypot every_n_dots after_travel_mm ps fl k).
  assert (Hflag : (every_n_dots <=? Binary64.dots_since s) ||
                  ((0 <? after_travel_mm)%float && (after_travel_mm <=? travel)%float)
                  = flag).
  { unfold flag, Binary64.redip_due. by rewrite Hdots, Ht. }
  rewrite Hflag.
  assert (HL' : last_redip (fl ++ [flag]) (S k) = if flag then k else L).
  { simpl. rewrite app_nth2 by lia. rewrite Hfl, Nat.sub_diag. simpl.
    by rewrite last_redip_prefix by lia. }
  unfold Binary64.dab_state_after. simpl Binary64.lines. simpl Binary64.dots_since.
  simpl Binary64.travel_since. simpl Binary64.last. unfold dabs_since_redip. rewrite HL'.
  split; [|split; [|split]].
  - rewrite (take_S_r _ _ _ Hpos).
    rewrite zip_with_app by (rewrite length_take_le;
                             [lia|apply lookup_lt_Some in Hpos; lia]).
    rewrite concat_app. simpl. rewrite app_nil_r. unfold Binary64.dab_lines at 2. simpl.
    rewrite <- Hlines. destruct flag; by rewrite <- ?app_assoc.
  - rewrite Hdots. unfold dabs_since_redip. fold L. destruct flag; lia.
  - destruct flag.
    + by replace (S k - 1 - k) with 0 by lia.
    + rewrite Ht. unfold Binary64.travel_since_redip. fold L.
      by replace (S k - 1 - L) with (k - L) by lia.
  - done.
Qed.

Lemma b64_dab_state_after_prefix dip ps k :
  k <= length ps ->
  Binary64.dab_state_after hypot dip ps
    (Binary64.redip_schedule hypot every_n_dots after_travel_mm ps k) k
    (fold_left (Binary64.dab_at hypot every_n_dots after_travel_mm dip) (take k ps)
               Binary64.dab_init).
Proof.
  induction k as [|k IH]; intros Hk.
  - apply b64_dab_state_after_init.
  - destruct (lookup_lt_is_Some_2 ps k) as [pos Hpos]; [lia|].
    rewrite (take_S_r _ _ _ Hpos), fold_left_app. simpl.
    apply b64_dab_state_after_step; [done|]. apply IH. lia.
Qed.

(** The lines of the dab loop are the dabs in order, each preceded by the
    dip block exactly when the schedule says so. *)
Lemma b64_dab_loop_schedule args pts dip serp :
  let ps := Binary64.dab_positions args pts serp in
  Binary64.lines
    (fold_left (Binary64.dab_step hypot every_n_dots after_travel_mm args pts dip)
               serp Binary64.dab_init)
  = concat (zip_with (Binary64.dab_lines dip)
              (Binary64.redip_schedule hypot every_n_dots after_travel_mm ps (length ps))
              ps).
Proof.
  intros ps. rewrite b64_dab_loop_positions. fold ps.
  destruct (b64_dab_state_after_prefix dip ps (length ps) ltac:(lia)) as (Hl & _).
  by rewrite firstn_all in Hl.
Qed.

(** A pass that returns is the scheduled pass of its colour. *)
Lemma b64_color_pass_scheduled color_points stations args serp c ls :
  Binary64.color_pass hypot every_n_dots after_travel_mm color_points stations args serp c
  = Ok ls ->
  ls = Binary64.pass_of hypot every_n_dots after_travel_mm color_points stations args
         serp c.
Proof.
  intros Hpass. unfold Binary64.pass_of.
  apply b64_color_pass_inv in Hpass as [[-> ->]|(st & pts & -> & -> & Hpts & ->)];
    [done|].
  destruct pts as [|p pts]; [done|].
  unfold Binary64.scheduled_pass. by rewrite b64_dab_loop_schedule.
Qed.

Lemma b64_gen_gcode_scheduled color_points color_order grid_cols grid_rows stations args
    lines :
  Binary64.gen_gcode hypot every_n_dots after_travel_mm color_points color_order
    grid_cols grid_rows stations args = Ok lines ->
  lines = Binary64.preamble grid_cols grid_rows args ++
          flat_map (Binary64.pass_of hypot every_n_dots after_travel_mm color_points
                      stations args (serpentine_indices grid_cols grid_rows))
                   color_order ++
          Binary64.postamble.
Proof.
  intros Hgen. apply b64_gen_gcode_inv in Hgen as (passes & Hpasses & ->).
  f_equal. f_equal. induction Hpasses as [|c ls cs lss Hc _ IH]; [done|].
  simpl. by rewrite IH, (b64_color_pass_scheduled _ _ _ _ _ _ Hc).
Qed.

End B64Redip.



(** A row of 105 dabs 3.6 mm apart under the thresholds of the source (120
    dabs, 180 mm): the re-dips come from the travel alone.  Fifty legs sum
    to just under 180 in binary64, so the re-dips are before the dabs of
    index 51 and 101. *)
Example redip_by_travel :
  let ps := Binary64.dab_positions Binary64.long_row_args (serpentine_indices 105 1)
              (serpentine_indices 105 1) in
  let flags := Binary64.redip_schedule Binary64.hypot_axis RE_DIP_EVERY_N_DOTS
                 Binary64.RE_DIP_AFTER_TRAVEL_MM ps (length ps) in
  filter (fun i => nth i flags false = true) (seq 0 105) = [51; 101].
Proof. by vm_compute. Qed.

(** ** The dithering pass refines the reference *)

Lemma b64_shaped_add_at w h a y x v :
  shaped w h a -> shaped w h (Binary64.add_at a y x v).
Proof. apply shaped_alter. intros row. apply length_alter. Qed.

Lemma b64_cell_add_at_same w h a y x v :
  shaped w h a -> y < h -> x < w ->
  cell 0%float (Binary64.add_at a y x v) y x = (cell 0%float a y x + v)%float.
Proof.
  intros Ha Hy Hx. destruct (shaped_lookup w h a y Ha Hy) as (row & Hrow & Hlen).
  destruct (lookup_lt_is_Some_2 row x) as [c Hc]; [lia|].
  unfold cell, Binary64.add_at. rewrite list_lookup_alter_eq, Hrow. simpl.
  by rewrite list_lookup_alter_eq, Hc.
Qed.

Lemma b64_cell_add_at_other a y x v y' x' :
  y' <> y \/ x' <> x ->
  cell 0%float (Binary64.add_at a y x v) y' x' = cell 0%float a y' x'.
Proof.
  intros Hne. unfold cell, Binary64.add_at.
  destruct (decide (y' = y)) as [->|Hy].
  - rewrite list_lookup_alter_eq. destruct (a !! y) as [row|]; simpl; [|done].
    rewrite list_lookup_alter_ne; [done|]. intros ->. by destruct Hne.
  - by rewrite list_lookup_alter_ne.
Qed.

Lemma b64_copy_plane_ok img w h :
  Binary64.covers img w h -> exists arr, Binary64.copy_plane img w h = Ok arr.
Proof.
  intros Hcov. unfold Binary64.copy_plane. apply mapM_result_ok. intros y Hy.
  apply in_seq in Hy. destruct (Hcov y ltac:(lia)) as (row & Hrow & Hlen).
  apply mapM_result_ok. intros x Hx. apply in_seq in Hx.
  unfold getitem. rewrite Hrow. simpl.
  destruct (lookup_lt_is_Some_2 row x) as [c ->]; [lia|]. by eexists.
Qed.

Lemma b64_copy_plane_spec img w h arr :
  Binary64.copy_plane img w h = Ok arr ->
  shaped w h arr /\
  forall x y, x < w -> y < h -> cell 0%float arr y x = cell 0%float img y x.
Proof.
  intros Hcopy. unfold Binary64.copy_plane in Hcopy.
  pose proof (mapM_result_inv _ _ _ Hcopy) as Hrows.
  assert (Hlen : length arr = h).
  { apply mapM_result_length in Hcopy. by rewrite length_seq in Hcopy. }
  split; [split; [done|]|].
  - apply Forall_lookup. intros y row Hrow.
    destruct (Forall2_lookup_r _ _ _ _ _ Hrows Hrow) as (y' & _ & Hr).
    apply mapM_result_length in Hr. by rewrite length_seq in Hr.
  - intros x y Hx Hy.
    destruct (Forall2_lookup_l _ _ _ y y Hrows) as (row & Hrow & Hr);
      [by apply lookup_seq_lt|].
    pose proof (mapM_result_inv _ _ _ Hr) as Hcells.
    destruct (Forall2_lookup_l _ _ _ x x Hcells) as (c & Hc & Hget);
      [by apply lookup_seq_lt|].
    unfold cell at 1. rewrite Hrow. simpl. rewrite Hc. simpl.
    unfold getitem in Hget. unfold cell.
    destruct (img !! y) as [irow|]; simpl in *; [|done].
    destruct (irow !! x) as [ic|]; simpl in *; [|done]. by injection Hget.
Qed.

Section B64Refinement.
Variables w h : nat.

Lemma b64_agrees_deposit a v nx ny q :
  shaped w h a -> Binary64.agrees w h a v -> nx < w -> ny < h ->
  Binary64.agrees w h (Binary64.add_at a ny nx q)
    (Binary64.deposit v (Z.of_nat nx, Z.of_nat ny) q).
Proof.
  intros Ha Hav Hnx Hny x y Hx Hy. unfold Binary64.deposit.
  case_decide as Heq.
  - injection Heq as Hx' Hy'. apply Nat2Z.inj in Hx', Hy'. subst.
    rewrite (b64_cell_add_at_same w h) by done.
    by rewrite (Hav nx ny Hnx Hny).
  - rewrite b64_cell_add_at_other; [by apply Hav|].
    destruct (decide (y = ny)) as [->|]; [|by left].
    right. intros ->. done.
Qed.

Lemma b64_agrees_guarded a v (g : bool) nx ny q tgt :
  shaped w h a -> Binary64.agrees w h a v ->
  g = in_grid w h tgt ->
  (g = true -> tgt = (Z.of_nat nx, Z.of_nat ny) /\ nx < w /\ ny < h) ->
  shaped w h (if g then Binary64.add_at a ny nx q else a) /\
  Binary64.agrees w h (if g then Binary64.add_at a ny nx q else a)
    (if in_grid w h tgt then Binary64.deposit v tgt q else v).
Proof.
  intros Ha Hav Hg Htgt. rewrite <- Hg. destruct g; [|done].
  destruct (Htgt eq_refl) as (-> & Hnx & Hny).
  split; [by apply b64_shaped_add_at|by apply b64_agrees_deposit].
Qed.

Lemma b64_fs_cell_sim st s x y :
  x < w -> y < h -> Binary64.fs_sim w h st s ->
  Binary64.fs_sim w h (Binary64.fs_cell w h y st x)
    (Binary64.ref_cell w h s (Z.of_nat x, Z.of_nat y)).
Proof.
  intros Hx Hy. destruct st as [arr out]. intros (Harr & Hout & Hcells). simpl in *.
  assert (Hav : Binary64.agrees w h arr (Binary64.values s))
    by (intros ? ? ? ?; by apply Hcells).
  set (c := (Z.of_nat x, Z.of_nat y)).
  assert (Hold : cell 0%float arr y x = Binary64.values s c) by (by apply Hav).
  unfold Binary64.fs_cell. rewrite Hold.
  change (if (0.5 <=? Binary64.values s c)%float then 1%Z else 0%Z)
    with (Binary64.threshold (Binary64.values s c)).
  set (b := Binary64.threshold (Binary64.values s c)).
  set (err := (Binary64.values s c - Binary64.float_of_int b)%float).
  unfold Binary64.ref_cell. fold c b err. unfold Binary64.fs_sim. simpl fst. simpl snd.
  unfold Binary64.diffuse, Binary64.kernel. simpl fold_left.
  change (err * 7 / 16)%float with (Binary64.share err 7).
  change (err * 3 / 16)%float with (Binary64.share err 3).
  change (err * 5 / 16)%float with (Binary64.share err 5).
  change (err * 1 / 16)%float with (Binary64.share err 1).
  destruct (b64_agrees_guarded arr (Binary64.values s) (x + 1 <? w) (x + 1) y
              (Binary64.share err 7) (shift c (1, 0)%Z)) as [Hs1 Ha1]; try done.
  { unfold c, shift. simpl. replace (Z.of_nat x + 1)%Z with (Z.of_nat (x + 1)) by lia.
    replace (Z.of_nat y + 0)%Z with (Z.of_nat y) by lia. rewrite in_grid_nat.
    rewrite (proj2 (Nat.ltb_lt y h) Hy). by rewrite andb_true_r. }
  { intros Hg. apply Nat.ltb_lt in Hg. unfold c, shift. simpl.
    repeat split; try done. f_equal; lia. }
  set (a1 := if x + 1 <? w then Binary64.add_at arr y (x + 1) (Binary64.share err 7)
             else arr) in *.
  set (v1 := if in_grid w h (shift c (1, 0)%Z)
             then Binary64.deposit (Binary64.values s) (shift c (1, 0)%Z)
                    (Binary64.share err 7)
             else Binary64.values s) in *.
  destruct (b64_agrees_guarded a1 v1 ((y + 1 <? h) && (0 <? x)) (x - 1) (y + 1)
              (Binary64.share err 3) (shift c (-1, 1)%Z)) as [Hs2 Ha2]; try done.
  { unfold c, shift, in_grid. simpl.
    destruct (Nat.ltb_spec (y + 1) h), (Nat.ltb_spec 0 x);
      repeat match goal with
             | |- context [(?a <=? ?b)%Z] => destruct (Z.leb_spec a b)
             | |- context [(?a <? ?b)%Z] => destruct (Z.ltb_spec a b)
             end; simpl; try reflexivity; lia. }
  { intros Hg. apply andb_true_iff in Hg as [H1 H2].
    apply Nat.ltb_lt in H1, H2. unfold c, shift. simpl.
    repeat split; try lia. f_equal; lia. }
  set (a2 := if (y + 1 <? h) && (0 <? x)
             then Binary64.add_at a1 (y + 1) (x - 1) (Binary64.share err 3)
             else a1) in *.
  set (v2 := if in_grid w h (shift c (-1, 1)%Z)
             then Binary64.deposit v1 (shift c (-1, 1)%Z) (Binary64.share err 3)
             else v1) in *.
  destruct (b64_agrees_guarded a2 v2 (y + 1 <? h) x (y + 1)
              (Binary64.share err 5) (shift c (0, 1)%Z)) as [Hs3 Ha3]; try done.
  { unfold c, shift. simpl. replace (Z.of_nat x + 0)%Z with (Z.of_nat x) by lia.
    replace (Z.of_nat y + 1)%Z with (Z.of_nat (y + 1)) by lia. rewrite in_grid_nat.
    by rewrite (proj2 (Nat.ltb_lt x w) Hx). }
  { intros Hg. apply Nat.ltb_lt in Hg. unfold c, shift. simpl.
    repeat split; try done. f_equal; lia. }
  set (a3 := if y + 1 <? h then Binary64.add_at a2 (y + 1) x (Binary64.share err 5)
             else a2) in *.
  set (v3 := if in_grid w h (shift c (0, 1)%Z)
             then Binary64.deposit v2 (shift c (0, 1)%Z) (Binary64.share err 5)
             else v2) in *.
  destruct (b64_agrees_guarded a3 v3 ((y + 1 <? h) && (x + 1 <? w)) (x + 1) (y + 1)
              (Binary64.share err 1) (shift c (1, 1)%Z)) as [Hs4 Ha4]; try done.
  { unfold c, shift. simpl. replace (Z.of_nat x + 1)%Z with (Z.of_nat (x + 1)) by lia.
    replace (Z.of_nat y + 1)%Z with (Z.of_nat (y + 1)) by lia. rewrite in_grid_nat.
    apply andb_comm. }
  { intros Hg. apply andb_true_iff in Hg as [H1 H2].
    apply Nat.ltb_lt in H1, H2. unfold c, shift. simpl.
    repeat split; try done. f_equal; lia. }
  split; [done|]. split; [by apply shaped_set_at|].
  intros x' y' Hx' Hy'. split; [by apply Ha4|].
  cbn [Binary64.output]. case_decide as Heq.
  - injection Heq as Hx'' Hy''. apply Nat2Z.inj in Hx'', Hy''. subst.
    by rewrite (cell_set_at_same w h).
  - rewrite cell_set_at_other; [by apply Hcells|].
    destruct (decide (y' = y)) as [->|]; [|by left].
    right. intros ->. done.
Qed.

Lemma b64_fs_cells_sim st s y xs :
  y < h -> Forall (fun x => x < w) xs -> Binary64.fs_sim w h st s ->
  Binary64.fs_sim w h (fold_left (Binary64.fs_cell w h y) xs st)
    (fold_left (Binary64.ref_cell w h) (map (fun x => (Z.of_nat x, Z.of_nat y)) xs) s).
Proof.
  intros Hy Hxs. revert st s. induction Hxs as [|x xs Hx _ IH]; intros st s Hsim; [done|].
  simpl. apply IH. by apply b64_fs_cell_sim.
Qed.

Lemma b64_fs_row_sim st s y :
  y < h -> Binary64.fs_sim w h st s ->
  Binary64.fs_sim w h (Binary64.fs_row w h st y)
    (fold_left (Binary64.ref_cell w h) (ref_row w y) s).
Proof.
  intros Hy. apply b64_fs_cells_sim; [done|].
  apply Forall_forall. intros x Hx. apply list_elem_of_In, in_seq in Hx. lia.
Qed.

Lemma b64_fs_rows_sim st s ys :
  Forall (fun y => y < h) ys -> Binary64.fs_sim w h st s ->
  Binary64.fs_sim w h (fold_left (Binary64.fs_row w h) ys st)
    (fold_left (Binary64.ref_cell w h) (flat_map (ref_row w) ys) s).
Proof.
  intros Hys. revert st s. induction Hys as [|y ys Hy _ IH]; intros st s Hsim; [done|].
  simpl. rewrite fold_left_app. apply IH. by apply b64_fs_row_sim.
Qed.
End B64Refinement.

(** On a plane that covers the grid the pass returns a plane of the shape
    of the grid that holds the outputs of the reference. *)
Lemma b64_floyd_steinberg_reference img w h :
  Binary64.covers img w h ->
  exists out,
    Binary64.floyd_steinberg_dither_channel img w h = Ok out /\
    shaped w h out /\
    forall x y, x < w -> y < h ->
      cell 0%Z out y x
      = Binary64.error_diffusion w h (Binary64.field_of img) (Z.of_nat x, Z.of_nat y).
Proof.
  intros Hcov. unfold Binary64.floyd_steinberg_dither_channel.
  destruct (b64_copy_plane_ok img w h Hcov) as [arr Harr]. rewrite Harr. simpl.
  destruct (b64_copy_plane_spec img w h arr Harr) as [Hshape Hcopy].
  eexists. split; [done|].
  assert (Hinit : Binary64.fs_sim w h (arr, replicate h (replicate w 0%Z))
                    (Binary64.ref_init (Binary64.field_of img))).
  { split; [done|]. split; [apply shaped_replicate|].
    intros x y Hx Hy. simpl. split.
    - unfold Binary64.field_of. simpl. rewrite !Nat2Z.id. by rewrite Hcopy.
    - apply cell_replicate. }
  pose proof (b64_fs_rows_sim w h _ _ (seq 0 h)
                ltac:(apply Forall_forall; intros y Hy;
                      apply list_elem_of_In, in_seq in Hy; lia) Hinit)
    as (_ & Hout & Hcells).
  split; [done|]. intros x y Hx Hy. by apply Hcells.
Qed.

Lemma b64_threshold_binary q : Binary64.threshold q = 0%Z \/ Binary64.threshold q = 1%Z.
Proof. unfold Binary64.threshold. destruct (0.5 <=? q)%float; auto. Qed.

Lemma b64_ref_output_binary w h cells s :
  (forall c, Binary64.output s c = 0%Z \/ Binary64.output s c = 1%Z) ->
  forall c, Binary64.output (fold_left (Binary64.ref_cell w h) cells s) c = 0%Z \/
            Binary64.output (fold_left (Binary64.ref_cell w h) cells s) c = 1%Z.
Proof.
  revert s. induction cells as [|c0 cells IH]; intros s Hs; [done|].
  simpl. apply IH. intros c. simpl. case_decide; [apply b64_threshold_binary|apply Hs].
Qed.

(** C4: on a plane of binary64 values that covers the [w] x [h] grid the
    pass returns a plane of [h] rows of [w] cells which holds, cell by
    cell, the output of the reference: cells taken in row-major order, the
    current value thresholded at 0.5 (1 exactly when it is at least 0.5),
    the error (value minus output) shared out to the right neighbour with
    weight 7/16 and to the next-row left, same-column and right neighbours
    with weights 3/16, 5/16 and 1/16, neighbours outside the grid skipped;
    every output is 0 or 1.  The arithmetic of the reference is binary64,
    each share [err * k / 16] and each sum rounded as the program rounds
    them. *)
Theorem floyd_steinberg_is_error_diffusion (img : list (list float)) (w h : nat) :
  Binary64.covers img w h ->
  exists out,
    Binary64.floyd_steinberg_dither_channel img w h = Ok out /\
    shaped w h out /\
    forall x y, x < w -> y < h ->
      cell 0%Z out y x
      = Binary64.error_diffusion w h (Binary64.field_of img) (Z.of_nat x, Z.of_nat y) /\
      (cell 0%Z out y x = 0%Z \/ cell 0%Z out y x = 1%Z).
Proof.
  intros Hcov.
  destruct (b64_floyd_steinberg_reference img w h Hcov) as (out & Hout & Hs & Hc).
  exists out. split; [done|]. split; [done|]. intros x y Hx Hy.
  rewrite (Hc x y Hx Hy). split; [done|].
  apply b64_ref_output_binary. intros c. by left.
Qed.

Lemma floyd_steinberg_is_error_diffusion_witness :
  exists out,
    Binary64.floyd_steinberg_dither_channel [[0.16; 0.43]; [0.75; 0.75]]%float 2 2
    = Ok out /\
    shaped 2 2 out /\
    forall x y, x < 2 -> y < 2 ->
      cell 0%Z out y x
      = Binary64.error_diffusion 2 2
          (Binary64.field_of [[0.16; 0.43]; [0.75; 0.75]]%float)
          (Z.of_nat x, Z.of_nat y) /\
      (cell 0%Z out y x = 0%Z \/ cell 0%Z out y x = 1%Z).
Proof.
  apply (floyd_steinberg_is_error_diffusion [[0.16; 0.43]; [0.75; 0.75]]%float 2 2).
  intros y Hy. destruct y as [|[|y]]; [| |lia]; eexists; (split; [reflexivity|simpl; lia]).
Defined.

(** The sum 0.43 + 0.16 * 7 / 16 rounds to 0.5, so the second cell is on. *)
Example floyd_steinberg_rounds_to_the_threshold :
  Binary64.floyd_steinberg_dither_channel [[0.16; 0.43]]%float 2 1 = Ok [[0; 1]]%Z /\
  map (Binary64.error_diffusion 2 1 (Binary64.field_of [[0.16; 0.43]]%float))
      (ref_cells 2 1) = [0; 1]%Z.
Proof. by vm_compute. Qed.

(** ** Totality of the stages of [main] *)

(** A property of the 256 channel values holds of each channel in range. *)
Lemma channel_cases (P : Z -> Prop) :
  Forall P (map Z.of_nat (seq 0 256)) -> forall v, (0 <= v <= 255)%Z -> P v.
Proof.
  intros HP v Hv. apply (proj1 (Forall_forall _ _) HP).
  apply list_elem_of_In, in_map_iff. exists (Z.to_nat v). split; [lia|].
  apply in_seq. lia.
Qed.

Ltac channel_table :=
  let l := eval vm_compute in (map Z.of_nat (seq 0 256)) in
  change (map Z.of_nat (seq 0 256)) with l;
  repeat (constructor; [vm_compute; auto|]); constructor.

(** When the greatest channel is not zero, the divisor [1 - K] is not zero. *)
Lemma b64_divisor_table v :
  (0 <= v <= 255)%Z ->
  (1 <=? Binary64.black_of v)%float = true \/ (1 - Binary64.black_of v =? 0)%float = false.
Proof.
  revert v. apply channel_cases. channel_table.
Qed.

(** The ink of the greatest channel is exactly zero. *)
Lemma b64_own_ink_table v :
  (0 <= v <= 255)%Z ->
  (1 <=? Binary64.black_of v)%float = true \/
  ((1 - Binary64.channel v - Binary64.black_of v) / (1 - Binary64.black_of v))%float = 0%float.
Proof.
  revert v. apply channel_cases. channel_table.
Qed.

Lemma b64_py_max3_cases a b c :
  Binary64.py_max3 a b c = a \/ Binary64.py_max3 a b c = b \/ Binary64.py_max3 a b c = c.
Proof.
  unfold Binary64.py_max3, Binary64.py_max.
  destruct (a <? b)%float; [destruct (b <? c)%float|destruct (a <? c)%float]; auto.
Qed.

Lemma b64_rgb_to_cmyk_total p : in_range p -> exists k, Binary64.rgb_to_cmyk p = Ok k.
Proof.
  destruct p as [[r g] b]. intros (Hr & Hg & Hb). unfold Binary64.rgb_to_cmyk.
  fold (Binary64.channel r) (Binary64.channel g) (Binary64.channel b).
  assert (exists v, (0 <= v <= 255)%Z /\
            Binary64.py_max3 (Binary64.channel r) (Binary64.channel g) (Binary64.channel b) = Binary64.channel v)
    as (v & Hv & ->).
  { destruct (b64_py_max3_cases (Binary64.channel r) (Binary64.channel g) (Binary64.channel b)) as [->|[->| ->]];
      eauto. }
  fold (Binary64.black_of v).
  destruct (b64_divisor_table v Hv) as [->| Hd]; [by eexists|].
  destruct (1 <=? Binary64.black_of v)%float; [by eexists|].
  unfold Binary64.py_div. rewrite Hd. simpl. by eexists.
Qed.

Lemma b64_floyd_steinberg_dither_channel_ok img w h :
  Binary64.covers img w h ->
  exists out, Binary64.floyd_steinberg_dither_channel img w h = Ok out.
Proof.
  intros Hc. unfold Binary64.floyd_steinberg_dither_channel.
  destruct (b64_copy_plane_ok img w h Hc) as [arr ->]. simpl. by eexists.
Qed.

Lemma b64_inks_cover getpixel grid_cols grid_rows inks (f : Binary64.cmyk_t -> float) :
  mapM (fun y => mapM (fun x => Binary64.rgb_to_cmyk (getpixel x y)) (seq 0 grid_cols))
       (seq 0 grid_rows) = Ok inks ->
  Binary64.covers (map (map f) inks) grid_cols grid_rows.
Proof.
  intros Hinks y Hy. pose proof (mapM_result_inv _ _ _ Hinks) as Hall.
  destruct (Forall2_lookup_l _ _ _ y y Hall) as (row & Hrow & Hr).
  { by apply lookup_seq_lt. }
  exists (map f row). rewrite list_lookup_fmap, Hrow. split; [done|].
  apply mapM_result_length in Hr. rewrite length_map, Hr, length_seq. lia.
Qed.

Lemma b64_cmyk_points_ok getpixel grid_cols grid_rows :
  (forall x y, in_range (getpixel x y)) ->
  exists cp, Binary64.cmyk_points getpixel grid_cols grid_rows = Ok cp /\
             forall c, In c COLOR_ORDER_CMYK -> is_Some (cp !! c).
Proof.
  intros Hpix. unfold Binary64.cmyk_points.
  destruct (mapM_result_ok
              (fun y => mapM (fun x => Binary64.rgb_to_cmyk (getpixel x y))
                             (seq 0 grid_cols))
              (seq 0 grid_rows)) as [inks Hinks].
  { intros y _. apply mapM_result_ok. intros x _. by apply b64_rgb_to_cmyk_total. }
  rewrite Hinks. simpl.
  pose proof (fun f => b64_inks_cover getpixel grid_cols grid_rows inks f Hinks) as Hcov.
  destruct (b64_floyd_steinberg_dither_channel_ok _ _ _ (Hcov (fun k => k.1.1.1)))
    as [Cd ->].
  destruct (b64_floyd_steinberg_dither_channel_ok _ _ _ (Hcov (fun k => k.1.1.2)))
    as [Md ->].
  destruct (b64_floyd_steinberg_dither_channel_ok _ _ _ (Hcov (fun k => k.1.2)))
    as [Yd ->].
  destruct (b64_floyd_steinberg_dither_channel_ok _ _ _ (Hcov (fun k => k.2)))
    as [Kd ->].
  simpl. eexists. split; [done|]. intros c Hc. simpl in Hc.
  destruct Hc as [<-|[<-|[<-|[<-|[]]]]].
  - rewrite lookup_insert_ne, lookup_insert_eq by done. by eexists.
  - rewrite !lookup_insert_ne, lookup_insert_eq by done. by eexists.
  - rewrite !lookup_insert_ne, lookup_insert_eq by done. by eexists.
  - rewrite lookup_insert_eq. by eexists.
Qed.

(** ** Configuration errors *)

(** The grid size raises on a zero pitch and on a quotient that cannot be
    converted to an integer, and is at least 1 otherwise. *)
Lemma b64_grid_size_cases usable pitch :
  if (pitch =? 0)%float then Binary64.grid_size usable pitch = Err ZeroDivisionError
  else if is_nan (usable / pitch) then Binary64.grid_size usable pitch = Err ValueError
  else if is_infinity (usable / pitch)
       then Binary64.grid_size usable pitch = Err OverflowError
       else exists n, Binary64.grid_size usable pitch = Ok n /\ 1 <= n.
Proof.
  unfold Binary64.grid_size, Binary64.py_div, Binary64.py_round.
  destruct (pitch =? 0)%float; [done|]. simpl.
  destruct (is_nan (usable / pitch)); [done|].
  destruct (is_infinity (usable / pitch)); [done|].
  destruct (FloatOps.Prim2SF (usable / pitch)); simpl; eexists; (split; [done|lia]).
Qed.

Lemma b64_main_runs hypot args resize grid_cols grid_rows :
  (forall c r x y, in_range (resize c r x y)) ->
  Binary64.grid_size
    (Binary64.py_max 0 (Binary64.width_mm args - 2 * Binary64.margin_mm args))
    (Binary64.dot_pitch_mm args) = Ok grid_cols ->
  Binary64.grid_size
    (Binary64.py_max 0 (Binary64.height_mm args - 2 * Binary64.margin_mm args))
    (Binary64.dot_pitch_mm args) = Ok grid_rows ->
  exists passes,
    Binary64.main hypot args resize
    = Ok (Binary64.preamble grid_cols grid_rows args ++ passes ++ Binary64.postamble).
Proof.
  intros Hpix Hc Hr. unfold Binary64.main. rewrite Hc, Hr. simpl.
  assert (Hgen : forall cp,
            (forall c, In c (PALETTES (Binary64.palette args)) -> is_Some (cp !! c)) ->
            exists passes,
              Binary64.gen_gcode hypot RE_DIP_EVERY_N_DOTS Binary64.RE_DIP_AFTER_TRAVEL_MM
                cp (PALETTES (Binary64.palette args)) grid_cols grid_rows
                (Binary64.make_stations (Binary64.palette args)) args
              = Ok (Binary64.preamble grid_cols grid_rows args ++ passes ++
                    Binary64.postamble)).
  { intros cp Hcp.
    destruct (b64_gen_gcode_ok hypot RE_DIP_EVERY_N_DOTS Binary64.RE_DIP_AFTER_TRAVEL_MM
                cp (PALETTES (Binary64.palette args)) grid_cols grid_rows
                (Binary64.make_stations (Binary64.palette args)) args) as [lines Hl].
    { intros c Hc'. split; [auto|by apply b64_make_stations_keys]. }
    rewrite Hl. apply b64_gen_gcode_inv in Hl as (passes & _ & ->). by eexists. }
  destruct (Binary64.palette args); simpl in Hgen.
  - destruct (rgb6_points_ok (resize grid_cols grid_rows) grid_cols grid_rows)
      as (cp & -> & Hcp); [done|]. simpl.
    destruct (Hgen cp Hcp) as [passes ->]. by exists passes.
  - destruct (b64_cmyk_points_ok (resize grid_cols grid_rows) grid_cols grid_rows)
      as (cp & -> & Hcp); [done|]. simpl.
    destruct (Hgen cp Hcp) as [passes ->]. by exists passes.
Qed.

(** C5, as stated, fails: with a pitch of -3 the run produces a stream, and
    so it does with a width of 0, where the requested number of columns is 0. *)
Lemma main_bad_configuration_counterexample :
  (Binary64.dot_pitch_mm (Binary64.sample_args rgb6 30 30 (-3)) <=? 0)%float = true /\
  (exists lines,
     Binary64.main Binary64.hypot_axis (Binary64.sample_args rgb6 30 30 (-3))
       (Binary64.plain_image (0, 0, 0)%Z) = Ok lines /\
     lines <> []) /\
  Binary64.py_round (Binary64.py_max 0 (0 - 2 * 0) / 3) = Ok 0%Z /\
  (exists lines,
     Binary64.main Binary64.hypot_axis (Binary64.sample_args rgb6 0 30 3)
       (Binary64.plain_image (0, 0, 0)%Z) = Ok lines /\
     lines <> []).
Proof.
  split; [by vm_compute|]. split; [|split; [by vm_compute|]].
  - destruct (Binary64.main Binary64.hypot_axis (Binary64.sample_args rgb6 30 30 (-3))
                (Binary64.plain_image (0, 0, 0)%Z)) as [lines|e] eqn:E.
    + exists lines. split; [done|]. intros ->. vm_compute in E. discriminate E.
    + vm_compute in E. discriminate E.
  - destruct (Binary64.main Binary64.hypot_axis (Binary64.sample_args rgb6 0 30 3)
                (Binary64.plain_image (0, 0, 0)%Z)) as [lines|e] eqn:E.
    + exists lines. split; [done|]. intros ->. vm_compute in E. discriminate E.
    + vm_compute in E. discriminate E.
Qed.

(** C5, amended: given the image as the library resizes it, with its
    channels in [0,255], the run aborts before any instruction is generated
    exactly when a grid size cannot be computed, the columns first: a pitch
    of zero raises a division error; a quotient usable/pitch that is not a
    number raises a value error and one that is infinite an overflow error,
    when it is rounded to an integer.  In every other case, negative
    pitches and requested resolutions of zero included, both grid
    dimensions are at least 1 and the run produces its stream. *)
Theorem main_aborts_exactly_when_a_grid_size_fails (hypot : float -> float -> float)
    (args : Binary64.Args) (resize : nat -> nat -> nat -> nat -> rgb) :
  (forall c r x y, in_range (resize c r x y)) ->
  let pitch := Binary64.dot_pitch_mm args in
  let usable_w :=
    Binary64.py_max 0 (Binary64.width_mm args - 2 * Binary64.margin_mm args) in
  let usable_h :=
    Binary64.py_max 0 (Binary64.height_mm args - 2 * Binary64.margin_mm args) in
  if (pitch =? 0)%float then Binary64.main hypot args resize = Err ZeroDivisionError
  else if is_nan (usable_w / pitch) then Binary64.main hypot args resize = Err ValueError
  else if is_infinity (usable_w / pitch)
  then Binary64.main hypot args resize = Err OverflowError
  else if is_nan (usable_h / pitch) then Binary64.main hypot args resize = Err ValueError
  else if is_infinity (usable_h / pitch)
  then Binary64.main hypot args resize = Err OverflowError
  else exists grid_cols grid_rows passes,
         1 <= grid_cols /\ 1 <= grid_rows /\
         Binary64.main hypot args resize
         = Ok (Binary64.preamble grid_cols grid_rows args ++ passes ++
               Binary64.postamble).
Proof.
  intros Hpix pitch usable_w usable_h.
  pose proof (b64_grid_size_cases usable_w pitch) as Hw.
  pose proof (b64_grid_size_cases usable_h pitch) as Hh.
  destruct (pitch =? 0)%float.
  { unfold Binary64.main. fold pitch usable_w. by rewrite Hw. }
  destruct (is_nan (usable_w / pitch)).
  { unfold Binary64.main. fold pitch usable_w. by rewrite Hw. }
  destruct (is_infinity (usable_w / pitch)).
  { unfold Binary64.main. fold pitch usable_w. by rewrite Hw. }
  destruct Hw as (grid_cols & Hw & Hc).
  destruct (is_nan (usable_h / pitch)).
  { unfold Binary64.main. fold pitch usable_w usable_h. by rewrite Hw, Hh. }
  destruct (is_infinity (usable_h / pitch)).
  { unfold Binary64.main. fold pitch usable_w usable_h. by rewrite Hw, Hh. }
  destruct Hh as (grid_rows & Hh & Hr).
  destruct (b64_main_runs hypot args resize grid_cols grid_rows Hpix Hw Hh) as [passes Hm].
  by exists grid_cols, grid_rows, passes.
Qed.

Lemma main_aborts_exactly_when_a_grid_size_fails_witness :
  exists grid_cols grid_rows passes,
    1 <= grid_cols /\ 1 <= grid_rows /\
    Binary64.main Binary64.hypot_axis (Binary64.sample_args rgb6 30 30 (-3))
      (Binary64.plain_image (0, 0, 0)%Z)
    = Ok (Binary64.preamble grid_cols grid_rows (Binary64.sample_args rgb6 30 30 (-3)) ++
          passes ++ Binary64.postamble).
Proof.
  apply (main_aborts_exactly_when_a_grid_size_fails Binary64.hypot_axis
           (Binary64.sample_args rgb6 30 30 (-3)) (Binary64.plain_image (0, 0, 0)%Z)).
  intros c r x y. unfold Binary64.plain_image. simpl. lia.
Defined.

(** A quotient too large for a float, or a column count that rounds below
    the exact one: 1e308 / 1e-308 and 30 / -1e-320 are infinite, and
    0.35 / 0.1 is 3.4999999999999996. *)
Example main_overflows_on_a_tiny_pitch :
  Binary64.main Binary64.hypot_axis (Binary64.sample_args rgb6 1e308 30 1e-308)
    (Binary64.plain_image (0, 0, 0)%Z) = Err OverflowError /\
  Binary64.main Binary64.hypot_axis (Binary64.sample_args rgb6 30 30 (-1e-320))
    (Binary64.plain_image (0, 0, 0)%Z) = Err OverflowError /\
  Binary64.grid_size 0.35 0.1 = Ok 3.
Proof. by vm_compute. Qed.

(** ** The inks of a pixel *)

(** The inks of a pixel whose greatest channel is [v]: a channel equal to
    the greatest gets no ink. *)
Lemma b64_inks_of_the_greatest v (R G B : float) :
  (0 <= v <= 255)%Z ->
  exists C M Y K,
    (if (1 <=? 1 - Binary64.channel v)%float
     then Ok (0, 0, 0, 1)%float
     else
       C ← Binary64.py_div (1 - R - (1 - Binary64.channel v))
                           (1 - (1 - Binary64.channel v));
       M ← Binary64.py_div (1 - G - (1 - Binary64.channel v))
                           (1 - (1 - Binary64.channel v));
       Y ← Binary64.py_div (1 - B - (1 - Binary64.channel v))
                           (1 - (1 - Binary64.channel v));
       Ok (C, M, Y, 1 - Binary64.channel v)%float)
    = Ok (C, M, Y, K) /\
    (R = Binary64.channel v -> C = 0%float) /\
    (G = Binary64.channel v -> M = 0%float) /\
    (B = Binary64.channel v -> Y = 0%float).
Proof.
  intros Hv. fold (Binary64.black_of v).
  destruct (b64_own_ink_table v Hv) as [->|Hown].
  { exists 0%float, 0%float, 0%float, 1%float. done. }
  destruct (b64_divisor_table v Hv) as [->|Hd].
  { exists 0%float, 0%float, 0%float, 1%float. done. }
  destruct (1 <=? Binary64.black_of v)%float.
  { exists 0%float, 0%float, 0%float, 1%float. done. }
  unfold Binary64.py_div. rewrite Hd. simpl. eexists _, _, _, _. split; [done|].
  repeat split; intros ->; exact Hown.
Qed.

(** X2: on channels in [0,255] the conversion leaves out at least one of the
    three coloured inks, the one of the greatest channel, whose fraction is
    exactly zero in binary64; a grey pixel takes black only. *)
Theorem rgb_to_cmyk_leaves_one_ink_out (r g b : Z) :
  (0 <= r <= 255)%Z -> (0 <= g <= 255)%Z -> (0 <= b <= 255)%Z ->
  exists C M Y K,
    Binary64.rgb_to_cmyk (r, g, b) = Ok (C, M, Y, K) /\
    (C = 0%float \/ M = 0%float \/ Y = 0%float) /\
    (r = g -> g = b -> C = 0%float /\ M = 0%float /\ Y = 0%float).
Proof.
  intros Hr Hg Hb. unfold Binary64.rgb_to_cmyk.
  fold (Binary64.channel r) (Binary64.channel g) (Binary64.channel b).
  destruct (b64_py_max3_cases (Binary64.channel r) (Binary64.channel g)
              (Binary64.channel b)) as [Hm|[Hm|Hm]]; rewrite Hm.
  - destruct (b64_inks_of_the_greatest r (Binary64.channel r) (Binary64.channel g)
                (Binary64.channel b) Hr) as (C & M & Y & K & Heq & HC & HM & HY).
    exists C, M, Y, K. split; [exact Heq|]. split; [left; by apply HC|].
    intros -> ->. repeat split; auto.
  - destruct (b64_inks_of_the_greatest g (Binary64.channel r) (Binary64.channel g)
                (Binary64.channel b) Hg) as (C & M & Y & K & Heq & HC & HM & HY).
    exists C, M, Y, K. split; [exact Heq|]. split; [right; left; by apply HM|].
    intros -> ->. repeat split; auto.
  - destruct (b64_inks_of_the_greatest b (Binary64.channel r) (Binary64.channel g)
                (Binary64.channel b) Hb) as (C & M & Y & K & Heq & HC & HM & HY).
    exists C, M, Y, K. split; [exact Heq|]. split; [right; right; by apply HY|].
    intros -> ->. repeat split; auto.
Qed.

Lemma rgb_to_cmyk_leaves_one_ink_out_witness :
  exists C M Y K,
    Binary64.rgb_to_cmyk (200, 30, 30)%Z = Ok (C, M, Y, K) /\
    (C = 0%float \/ M = 0%float \/ Y = 0%float).
Proof.
  destruct (rgb_to_cmyk_leaves_one_ink_out 200 30 30) as (C & M & Y & K & H1 & H2 & _);
    [lia..|].
  by exists C, M, Y, K.
Defined.

(** The pixel (5,10,10): its cyan fraction is just below one half, where
    the exact quotient is one half. *)
Example rgb_to_cmyk_rounds_below_half :
  Binary64.rgb_to_cmyk (5, 10, 10)%Z
  = Ok (0.49999999999999856, 0, 0, 0.96078431372549022)%float.
Proof. reflexivity. Qed.

(** ** The dithering of the ink planes in the cmyk branch *)

(** The reference can be run on any plane of values that agrees with the
    rows on the grid. *)
Lemma b64_floyd_steinberg_reference_field img w h (v : Binary64.field) :
  Binary64.covers img w h -> Binary64.agrees w h img v ->
  exists out,
    Binary64.floyd_steinberg_dither_channel img w h = Ok out /\
    shaped w h out /\
    forall x y, x < w -> y < h ->
      cell 0%Z out y x = Binary64.error_diffusion w h v (Z.of_nat x, Z.of_nat y).
Proof.
  intros Hcov Hv. unfold Binary64.floyd_steinberg_dither_channel.
  destruct (b64_copy_plane_ok img w h Hcov) as [arr Harr]. rewrite Harr. simpl.
  destruct (b64_copy_plane_spec img w h arr Harr) as [Hshape Hcopy].
  eexists. split; [done|].
  assert (Hinit : Binary64.fs_sim w h (arr, replicate h (replicate w 0%Z))
                    (Binary64.ref_init v)).
  { split; [done|]. split; [apply shaped_replicate|].
    intros x y Hx Hy. simpl. split; [|apply cell_replicate].
    rewrite Hcopy by done. by apply Hv. }
  assert (Hys : Forall (fun y => y < h) (seq 0 h)).
  { apply Forall_forall. intros y Hy. apply list_elem_of_In, in_seq in Hy. lia. }
  destruct (b64_fs_rows_sim w h _ _ (seq 0 h) Hys Hinit) as (_ & Hout & Hcells).
  split; [done|]. intros x y Hx Hy. by apply Hcells.
Qed.

(** The plane of one ink, as built by [main], holds the fractions of the
    ink on the grid. *)
Lemma b64_ink_rows getpixel grid_cols grid_rows inks (k : Binary64.cmyk_t -> float) :
  mapM (fun y => mapM (fun x => Binary64.rgb_to_cmyk (getpixel x y)) (seq 0 grid_cols))
       (seq 0 grid_rows) = Ok inks ->
  Binary64.agrees grid_cols grid_rows (map (map k) inks) (Binary64.ink_plane getpixel k).
Proof.
  intros Hinks. pose proof (mapM_result_inv _ _ _ Hinks) as Hall.
  intros x y Hx Hy.
  destruct (Forall2_lookup_l _ _ _ y y Hall) as (row & Hrow & Hr);
    [by apply lookup_seq_lt|].
  pose proof (mapM_result_inv _ _ _ Hr) as Hcells.
  destruct (Forall2_lookup_l _ _ _ x x Hcells) as (v & Hv & Hget);
    [by apply lookup_seq_lt|].
  unfold cell, Binary64.ink_plane. simpl. rewrite !Nat2Z.id, Hget.
  rewrite list_lookup_fmap, Hrow. simpl. by rewrite list_lookup_fmap, Hv.
Qed.

Lemma b64_ones_of_dithered getpixel grid_cols grid_rows inks
    (k : Binary64.cmyk_t -> float) :
  mapM (fun y => mapM (fun x => Binary64.rgb_to_cmyk (getpixel x y)) (seq 0 grid_cols))
       (seq 0 grid_rows) = Ok inks ->
  exists d,
    Binary64.floyd_steinberg_dither_channel (map (map k) inks) grid_cols grid_rows
    = Ok d /\
    ones_of d grid_cols grid_rows
    = filter (fun p => Binary64.dithered getpixel grid_cols grid_rows k p = true)
             (row_major grid_cols grid_rows).
Proof.
  intros Hinks.
  pose proof (b64_inks_cover _ _ _ _ k Hinks) as Hcov.
  pose proof (b64_ink_rows _ _ _ _ k Hinks) as Hag.
  destruct (b64_floyd_steinberg_reference_field _ _ _ _ Hcov Hag)
    as (d & Hd & _ & Hcells).
  exists d. split; [done|]. unfold ones_of. apply filter_ext_elem.
  intros p Hp. apply elem_of_row_major in Hp as [Hx Hy].
  unfold Binary64.dithered. rewrite Hcells by done. symmetry. apply Z.eqb_eq.
Qed.

Lemma b64_cmyk_points_inv getpixel grid_cols grid_rows cp :
  Binary64.cmyk_points getpixel grid_cols grid_rows = Ok cp ->
  forall c,
    cp !! c =
    if bool_decide (c ∈ COLOR_ORDER_CMYK)
    then Some (filter (fun p => Binary64.painted cmyk getpixel grid_cols grid_rows c p
                                = true)
                      (row_major grid_cols grid_rows))
    else None.
Proof.
  unfold Binary64.cmyk_points.
  destruct (mapM (fun y => mapM (fun x => Binary64.rgb_to_cmyk (getpixel x y))
                                (seq 0 grid_cols)) (seq 0 grid_rows))
    as [inks|e] eqn:Hinks; simpl; [|done].
  destruct (b64_ones_of_dithered _ _ _ _ (fun k => k.1.1.1) Hinks) as (Cd & -> & HC).
  destruct (b64_ones_of_dithered _ _ _ _ (fun k => k.1.1.2) Hinks) as (Md & -> & HM).
  destruct (b64_ones_of_dithered _ _ _ _ (fun k => k.1.2) Hinks) as (Yd & -> & HY).
  destruct (b64_ones_of_dithered _ _ _ _ (fun k => k.2) Hinks) as (Kd & -> & HK).
  simpl. intros [= <-]. rewrite HC, HM, HY, HK.
  intros c. destruct c;
    repeat (rewrite lookup_insert_ne by done); rewrite ?lookup_insert_eq; done.
Qed.

(** X4: in the cmyk branch, on an image with its channels in [0,255], the
    conversion and the four dithering passes raise nothing, and each ink
    gets exactly the cells where the reference error diffusion of its plane
    of binary64 fractions gives 1, in the order of the rows and columns; no
    other colour has a key. *)
Theorem cmyk_points_dithers_each_ink (getpixel : nat -> nat -> rgb)
    (grid_cols grid_rows : nat) :
  (forall x y, in_range (getpixel x y)) ->
  let on (k : Binary64.cmyk_t -> float) :=
    filter (fun p => Binary64.dithered getpixel grid_cols grid_rows k p = true)
           (row_major grid_cols grid_rows) in
  exists cp,
    Binary64.cmyk_points getpixel grid_cols grid_rows = Ok cp /\
    cp !! cyan = Some (on (fun k => k.1.1.1)) /\
    cp !! magenta = Some (on (fun k => k.1.1.2)) /\
    cp !! yellow = Some (on (fun k => k.1.2)) /\
    cp !! black = Some (on (fun k => k.2)) /\
    (forall c, c ∉ COLOR_ORDER_CMYK -> cp !! c = None).
Proof.
  intros Hpix on.
  destruct (b64_cmyk_points_ok getpixel grid_cols grid_rows Hpix) as (cp & Hcp & _).
  pose proof (b64_cmyk_points_inv _ _ _ _ Hcp) as Hall.
  exists cp. split; [done|].
  repeat (split; [by rewrite Hall|]).
  intros c Hc. rewrite Hall. by rewrite bool_decide_eq_false_2.
Qed.

Lemma cmyk_points_dithers_each_ink_witness :
  exists cp,
    Binary64.cmyk_points (Binary64.plain_image (5, 10, 10)%Z 1 1) 1 1 = Ok cp /\
    cp !! cyan
    = Some (filter (fun p => Binary64.dithered (Binary64.plain_image (5, 10, 10)%Z 1 1)
                               1 1 (fun k => k.1.1.1) p = true)
                   (row_major 1 1)).
Proof.
  destruct (cmyk_points_dithers_each_ink (Binary64.plain_image (5, 10, 10)%Z 1 1) 1 1)
    as (cp & Hcp & HC & _).
  - intros x y. unfold Binary64.plain_image. simpl. lia.
  - by exists cp.
Defined.

(** One pixel (5,10,10): black is on, cyan is not. *)
Example cmyk_points_of_a_dark_pixel :
  (cp ← Binary64.cmyk_points (Binary64.plain_image (5, 10, 10)%Z 1 1) 1 1;
   Ok (cp !! cyan, cp !! magenta, cp !! yellow, cp !! black))
  = Ok (Some [], Some [], Some [], Some [(0, 0)]).
Proof. by vm_compute. Qed.

(** ** The dabs of the stream *)

Lemma b64_make_stations_lookup p c st :
  Binary64.make_stations p !! c = Some st ->
  Binary64.Station.z_safe st = Binary64.Z_SAFE.
Proof.
  destruct p, c; vm_compute; intros H; try discriminate H;
    injection H as <-; reflexivity.
Qed.

Lemma b64_dab_block_nil : Binary64.dab_block [] [].
Proof. by intros rest. Qed.

Lemma b64_dab_block_app a b da db :
  Binary64.dab_block a da -> Binary64.dab_block b db ->
  Binary64.dab_block (a ++ b) (da ++ db).
Proof.
  intros Ha Hb rest. by rewrite <- !app_assoc, Ha, Hb.
Qed.

Lemma b64_dab_block_pickup c st :
  Binary64.Station.z_safe st = Binary64.Z_SAFE ->
  Binary64.dab_block (Binary64.pickup_lines c st) [].
Proof. intros Hst rest. unfold Binary64.pickup_lines. by rewrite Hst. Qed.

Lemma b64_dab_block_return c st :
  Binary64.Station.z_safe st = Binary64.Z_SAFE ->
  Binary64.dab_block (Binary64.return_lines c st) [].
Proof. intros Hst rest. unfold Binary64.return_lines. by rewrite Hst. Qed.

Lemma b64_dab_block_dip c st :
  Binary64.Station.z_safe st = Binary64.Z_SAFE ->
  Binary64.dab_block (Binary64.dip_lines c st) [].
Proof. intros Hst rest. unfold Binary64.dip_lines. by rewrite Hst. Qed.

Lemma b64_dab_block_clean st :
  Binary64.Station.z_safe st = Binary64.Z_SAFE ->
  Binary64.dab_block (Binary64.clean_lines st) [].
Proof. intros Hst rest. unfold Binary64.clean_lines. by rewrite Hst. Qed.

Lemma b64_dab_block_paint_dot x y t :
  Binary64.dab_block (Binary64.paint_dot x y t) [(x, y)].
Proof. by intros rest. Qed.

Lemma b64_dab_block_schedule dip flags ps :
  Binary64.dab_block dip [] -> length flags = length ps ->
  Binary64.dab_block (concat (zip_with (Binary64.dab_lines dip) flags ps)) ps.
Proof.
  intros Hdip. revert ps. induction flags as [|flag flags IH]; intros [|[x y] ps] Hlen;
    try discriminate Hlen; [apply b64_dab_block_nil|].
  simpl. apply (b64_dab_block_app _ _ [(x, y)] ps); [|apply IH; by injection Hlen].
  unfold Binary64.dab_lines.
  apply (b64_dab_block_app _ _ [] [(x, y)]); [|apply b64_dab_block_paint_dot].
  destruct flag; [done|apply b64_dab_block_nil].
Qed.

Section B64Dabs.
Variable hypot : float -> float -> float.
Variable every_n_dots : nat.
Variable after_travel_mm : float.

Lemma b64_pass_of_dabs color_points stations args serp c :
  (forall c st, stations !! c = Some st ->
     Binary64.Station.z_safe st = Binary64.Z_SAFE) ->
  Binary64.dab_block
    (Binary64.pass_of hypot every_n_dots after_travel_mm color_points stations args
       serp c)
    (match stations !! c with
     | Some _ => Binary64.dab_positions args (points_of color_points c) serp
     | None => []
     end).
Proof.
  intros Hst. unfold Binary64.pass_of, points_of.
  destruct (color_points !! c) as [[|p pts]|] eqn:Hc; cbn [default from_option id].
  - unfold Binary64.dab_positions. rewrite filter_elem_of_nil.
    destruct (stations !! c); apply b64_dab_block_nil.
  - destruct (stations !! c) as [st|] eqn:Hs; [|apply b64_dab_block_nil].
    specialize (Hst _ _ Hs). intros rest. unfold Binary64.scheduled_pass.
    change (Binary64.dab_moves
              ((Binary64.Comment (Binary64.ColorHeader c (length (p :: pts))) :: ?l)
               ++ rest))
      with (Binary64.dab_moves (l ++ rest)).
    rewrite <- !app_assoc.
    rewrite (b64_dab_block_pickup c st Hst), (b64_dab_block_dip c st Hst).
    rewrite (b64_dab_block_schedule (Binary64.dip_lines c st) _
               (Binary64.dab_positions args (p :: pts) serp));
      [|by apply b64_dab_block_dip|apply b64_redip_schedule_length].
    by rewrite (b64_dab_block_clean st Hst), (b64_dab_block_return c st Hst).
  - unfold Binary64.dab_positions. rewrite filter_elem_of_nil.
    destruct (stations !! c); apply b64_dab_block_nil.
Qed.

Lemma b64_gen_gcode_dab_moves color_points color_order grid_cols grid_rows stations args
    lines :
  (forall c st, stations !! c = Some st ->
     Binary64.Station.z_safe st = Binary64.Z_SAFE) ->
  (forall c, c ∈ color_order -> is_Some (stations !! c)) ->
  Binary64.gen_gcode hypot every_n_dots after_travel_mm color_points color_order
    grid_cols grid_rows stations args = Ok lines ->
  Binary64.dab_moves lines
  = flat_map (fun c => Binary64.dab_positions args (points_of color_points c)
                         (serpentine_indices grid_cols grid_rows))
             color_order.
Proof.
  intros Hst Hkeys Hgen. rewrite (b64_gen_gcode_scheduled _ _ _ _ _ _ _ _ _ _ Hgen).
  clear Hgen.
  set (serp := serpentine_indices grid_cols grid_rows).
  assert (Hblock : Binary64.dab_block
            (flat_map (Binary64.pass_of hypot every_n_dots after_travel_mm color_points
                         stations args serp) color_order)
            (flat_map (fun c => Binary64.dab_positions args (points_of color_points c)
                                  serp) color_order)).
  { induction color_order as [|c order IH]; simpl; [apply b64_dab_block_nil|].
    apply b64_dab_block_app.
    - pose proof (b64_pass_of_dabs color_points stations args serp c Hst) as Hb.
      destruct (Hkeys c ltac:(by left)) as [st Hs]. by rewrite Hs in Hb.
    - apply IH. intros c' Hc'. apply Hkeys. by right. }
  change (Binary64.dab_moves (Binary64.preamble grid_cols grid_rows args ++ ?l))
    with (Binary64.dab_moves l).
  rewrite Hblock. simpl. by rewrite app_nil_r.
Qed.
End B64Dabs.

(** ** The dabs of a run *)

Lemma b64_main_inv hypot args resize lines :
  Binary64.main hypot args resize = Ok lines ->
  exists cols rows cp,
    Binary64.grid_size
      (Binary64.py_max 0 (Binary64.width_mm args - 2 * Binary64.margin_mm args))
      (Binary64.dot_pitch_mm args) = Ok cols /\
    Binary64.grid_size
      (Binary64.py_max 0 (Binary64.height_mm args - 2 * Binary64.margin_mm args))
      (Binary64.dot_pitch_mm args) = Ok rows /\
    match Binary64.palette args with
    | rgb6 => rgb6_points (resize cols rows) cols rows
    | cmyk => Binary64.cmyk_points (resize cols rows) cols rows
    end = Ok cp /\
    Binary64.gen_gcode hypot RE_DIP_EVERY_N_DOTS Binary64.RE_DIP_AFTER_TRAVEL_MM cp
      (PALETTES (Binary64.palette args)) cols rows
      (Binary64.make_stations (Binary64.palette args)) args = Ok lines.
Proof.
  unfold Binary64.main.
  destruct (Binary64.grid_size (Binary64.py_max 0 (Binary64.width_mm args - _)) _)
    as [cols|]; simpl; [|done].
  destruct (Binary64.grid_size _ _) as [rows|]; simpl; [|done].
  intros Hrun. exists cols, rows.
  destruct (Binary64.palette args).
  - destruct (rgb6_points _ _ _) as [cp|]; simpl in Hrun; [|done]. by exists cp.
  - destruct (Binary64.cmyk_points _ _ _) as [cp|]; simpl in Hrun; [|done]. by exists cp.
Qed.

(** The points of a colour of the palette are the cells it paints. *)
Lemma b64_points_painted pal getpixel cols rows cp c :
  match pal with
  | rgb6 => rgb6_points getpixel cols rows
  | cmyk => Binary64.cmyk_points getpixel cols rows
  end = Ok cp ->
  c ∈ PALETTES pal ->
  points_of cp c
  = filter (fun p => Binary64.painted pal getpixel cols rows c p = true)
           (row_major cols rows).
Proof.
  intros Hcp Hin. unfold points_of. destruct pal.
  - rewrite (proj1 (rgb6_points_filter _ _ _ _ Hcp) c).
    rewrite bool_decide_eq_true_2.
    + simpl. apply list_filter_iff. intros p. unfold Binary64.painted.
      symmetry. apply bool_decide_eq_true.
    + clear -Hin. simpl in Hin.
      repeat (apply elem_of_cons in Hin as [->|Hin];
                [apply (bool_decide_unpack _); by vm_compute|]).
      by apply elem_of_nil in Hin.
  - rewrite (b64_cmyk_points_inv _ _ _ _ Hcp c).
    by rewrite bool_decide_eq_true_2.
Qed.

Lemma b64_dab_positions_filter args (P : nat * nat -> Prop)
    `{!forall p, Decision (P p)} w h :
  Binary64.dab_positions args (filter P (row_major w h)) (serpentine_indices w h)
  = map (fun p => Binary64.xy_of_pixel args (fst p) (snd p))
        (filter P (serpentine_indices w h)).
Proof.
  unfold Binary64.dab_positions. f_equal. apply filter_ext_elem.
  intros [i j] Hp. rewrite list_elem_of_filter.
  apply serpentine_indices_elem in Hp. apply row_major_elem in Hp. tauto.
Qed.

Lemma b64_main_dab_moves hypot args resize lines :
  Binary64.main hypot args resize = Ok lines ->
  exists cols rows,
    Binary64.grid_size
      (Binary64.py_max 0 (Binary64.width_mm args - 2 * Binary64.margin_mm args))
      (Binary64.dot_pitch_mm args) = Ok cols /\
    Binary64.grid_size
      (Binary64.py_max 0 (Binary64.height_mm args - 2 * Binary64.margin_mm args))
      (Binary64.dot_pitch_mm args) = Ok rows /\
    Binary64.dab_moves lines = Binary64.dabs_of_image args (resize cols rows) cols rows.
Proof.
  intros Hmain.
  destruct (b64_main_inv _ _ _ _ Hmain) as (cols & rows & cp & Hc & Hr & Hcp & Hgen).
  exists cols, rows. split; [done|]. split; [done|].
  apply b64_gen_gcode_dab_moves in Hgen.
  - rewrite Hgen. unfold Binary64.dabs_of_image, Binary64.cells_of_color.
    apply flat_map_ext_elem. intros c Hin.
    rewrite (b64_points_painted _ _ _ _ _ _ Hcp Hin). apply b64_dab_positions_filter.
  - intros c st H. by apply b64_make_stations_lookup in H.
  - intros c Hc'. apply b64_make_stations_keys. by apply list_elem_of_In.
Qed.

(** X6: the dabs of a run are those of the resized image: colour by colour in
    the paint order of the palette, and within a colour along the
    serpentine traversal, a dab at the position of every cell that the
    colour gets; in rgb6 a cell gets the colour when it is not background
    and the colour is the nearest reference colour, in cmyk when the
    reference dithering of the ink, in binary64, gives 1.  The grid is the
    one the run computes. *)
Theorem main_dabs_follow_the_image (hypot : float -> float -> float)
    (args : Binary64.Args) (resize : nat -> nat -> nat -> nat -> rgb)
    (lines : list Binary64.line) :
  Binary64.main hypot args resize = Ok lines ->
  exists cols rows,
    Binary64.grid_size
      (Binary64.py_max 0 (Binary64.width_mm args - 2 * Binary64.margin_mm args))
      (Binary64.dot_pitch_mm args) = Ok cols /\
    Binary64.grid_size
      (Binary64.py_max 0 (Binary64.height_mm args - 2 * Binary64.margin_mm args))
      (Binary64.dot_pitch_mm args) = Ok rows /\
    Binary64.dab_moves lines = Binary64.dabs_of_image args (resize cols rows) cols rows.
Proof. apply b64_main_dab_moves. Qed.

Lemma main_dabs_follow_the_image_witness :
  exists lines,
    Binary64.main Binary64.hypot_axis (Binary64.sample_args cmyk 3 3 3)
      (Binary64.plain_image (5, 10, 10)%Z) = Ok lines /\
    Binary64.dab_moves lines = [(0, 0)]%float.
Proof.
  destruct (Binary64.main Binary64.hypot_axis (Binary64.sample_args cmyk 3 3 3)
              (Binary64.plain_image (5, 10, 10)%Z)) as [lines|e] eqn:E;
    [|vm_compute in E; discriminate E].
  destruct (main_dabs_follow_the_image Binary64.hypot_axis
              (Binary64.sample_args cmyk 3 3 3) (Binary64.plain_image (5, 10, 10)%Z)
              lines E) as (cols & rows & Hc & Hr & Hd).
  vm_compute in Hc. vm_compute in Hr. injection Hc as <-. injection Hr as <-.
  exists lines. split; [done|]. rewrite Hd. vm_compute. reflexivity.
Defined.

(** ** An image that asks for no paint *)

(** No error is diffused from a cell that holds zero. *)
Lemma b64_diffuse_zero w h (v : Binary64.field) c :
  (forall n, v n = 0%float) -> forall n, Binary64.diffuse w h v c 0 n = 0%float.
Proof.
  unfold Binary64.diffuse.
  assert (Hk : Forall (fun ok : point * float => Binary64.share 0 (snd ok) = 0%float)
                      Binary64.kernel) by (repeat constructor).
  revert v. induction Hk as [|[off k] l Hs _ IH]; intros v Hv n; [apply Hv|].
  simpl. apply IH. intros m. destruct (in_grid w h (shift c off)); [|apply Hv].
  unfold Binary64.deposit. simpl in Hs.
  case_decide; rewrite ?Hs, Hv; reflexivity.
Qed.

Lemma b64_error_diffusion_zero w h (v : Binary64.field) c :
  (forall n, v n = 0%float) -> Binary64.error_diffusion w h v c = 0%Z.
Proof.
  intros Hv. unfold Binary64.error_diffusion.
  assert (H : forall cells s,
            (forall n, Binary64.values s n = 0%float) ->
            (forall n, Binary64.output s n = 0%Z) ->
            forall n, Binary64.output (fold_left (Binary64.ref_cell w h) cells s) n
                      = 0%Z).
  { induction cells as [|c0 cells IH]; intros s Hval Hout n; [apply Hout|].
    simpl. apply IH.
    - intros m. unfold Binary64.ref_cell. cbn [Binary64.values].
      rewrite (Hval c0). by apply b64_diffuse_zero.
    - intros m. unfold Binary64.ref_cell. cbn [Binary64.output].
      case_decide; [|apply Hout]. by rewrite (Hval c0). }
  apply H; [exact Hv|done].
Qed.

Lemma b64_color_pass_unused hypot every_n_dots after_travel_mm color_points stations
    args serp c :
  color_points !! c = Some [] ->
  Binary64.pass_of hypot every_n_dots after_travel_mm color_points stations args serp c
  = [].
Proof. intros H. unfold Binary64.pass_of. by rewrite H. Qed.

Lemma b64_blank_points pal getpixel cols rows cp :
  (forall x y, blank pal (getpixel x y)) ->
  match pal with
  | rgb6 => rgb6_points getpixel cols rows
  | cmyk => Binary64.cmyk_points getpixel cols rows
  end = Ok cp ->
  forall c, c ∈ PALETTES pal -> cp !! c = Some [].
Proof.
  intros Hblank Hcp c Hc. destruct pal; simpl in Hblank.
  - destruct (rgb6_points_background getpixel cols rows Hblank) as (cp' & Hcp' & Hall).
    rewrite Hcp in Hcp'. injection Hcp' as <-. by apply Hall.
  - rewrite (b64_cmyk_points_inv _ _ _ _ Hcp c), bool_decide_eq_true_2 by done.
    f_equal. apply filter_none. intros [x y] _.
    assert (Hoff : forall k : Binary64.cmyk_t -> float,
              k (0, 0, 0, 0)%float = 0%float ->
              Binary64.dithered getpixel cols rows k (x, y) = false).
    { intros k Hk. unfold Binary64.dithered. rewrite b64_error_diffusion_zero; [done|].
      intros n. unfold Binary64.ink_plane. by rewrite Hblank. }
    unfold Binary64.painted. simpl in Hc.
    repeat (apply elem_of_cons in Hc as [->|Hc]; [by rewrite Hoff|]).
    by apply elem_of_nil in Hc.
Qed.

(** X10: a run that returns on an image whose pixels are all background
    (rgb6) or white (cmyk) gives the set-up lines followed by the closing
    lines: no brush is picked up and nothing is painted. *)
Theorem blank_image_paints_nothing (hypot : float -> float -> float)
    (args : Binary64.Args) (resize : nat -> nat -> nat -> nat -> rgb)
    (lines : list Binary64.line) :
  Binary64.main hypot args resize = Ok lines ->
  (forall c r x y, blank (Binary64.palette args) (resize c r x y)) ->
  exists grid_cols grid_rows,
    lines = Binary64.preamble grid_cols grid_rows args ++ Binary64.postamble.
Proof.
  intros Hmain Hblank.
  destruct (b64_main_inv _ _ _ _ Hmain) as (cols & rows & cp & _ & _ & Hcp & Hgen).
  exists cols, rows. rewrite (b64_gen_gcode_scheduled _ _ _ _ _ _ _ _ _ _ Hgen).
  f_equal.
  assert (Hnil : forall l, (forall c, c ∈ l -> cp !! c = Some []) ->
            flat_map (Binary64.pass_of hypot RE_DIP_EVERY_N_DOTS
                        Binary64.RE_DIP_AFTER_TRAVEL_MM cp
                        (Binary64.make_stations (Binary64.palette args)) args
                        (serpentine_indices cols rows)) l = []).
  { induction l as [|c l IH]; intros Hl; [done|]. simpl.
    rewrite b64_color_pass_unused by (apply Hl; by left).
    apply IH. intros c' Hc'. apply Hl. by right. }
  rewrite Hnil; [done|].
  by apply (b64_blank_points _ (resize cols rows) cols rows).
Qed.

Lemma blank_image_paints_nothing_witness :
  exists lines grid_cols grid_rows,
    Binary64.main Binary64.hypot_axis (Binary64.sample_args cmyk 6 6 3)
      (Binary64.plain_image (255, 255, 255)%Z) = Ok lines /\
    lines = Binary64.preamble grid_cols grid_rows (Binary64.sample_args cmyk 6 6 3) ++
            Binary64.postamble.
Proof.
  destruct (Binary64.main Binary64.hypot_axis (Binary64.sample_args cmyk 6 6 3)
              (Binary64.plain_image (255, 255, 255)%Z)) as [lines|e] eqn:E;
    [|vm_compute in E; discriminate E].
  destruct (blank_image_paints_nothing Binary64.hypot_axis
              (Binary64.sample_args cmyk 6 6 3) (Binary64.plain_image (255, 255, 255)%Z)
              lines E) as (cols & rows & Hl).
  - by intros c r x y.
  - exists lines, cols, rows. split; [reflexivity|exact Hl].
Defined.

(** ** No cell is painted twice in rgb6 *)

(** X17: in rgb6 no cell of the grid is dabbed twice in a run: the dabs of
    the stream are, in order, the positions of a list of cells of the grid
    without repetition, each of a pixel that is not background. *)
Theorem main_rgb6_never_paints_a_cell_twice (hypot : float -> float -> float)
    (args : Binary64.Args) (resize : nat -> nat -> nat -> nat -> rgb)
    (lines : list Binary64.line) :
  Binary64.palette args = rgb6 ->
  Binary64.main hypot args resize = Ok lines ->
  exists cols rows cells,
    Binary64.dab_moves lines
    = map (fun p => Binary64.xy_of_pixel args (fst p) (snd p)) cells /\
    NoDup cells /\
    forall p, p ∈ cells ->
      fst p < cols /\ snd p < rows /\
      is_background (resize cols rows (fst p) (snd p)) = false.
Proof.
  intros Hpal Hmain.
  destruct (b64_main_dab_moves _ _ _ _ Hmain) as (cols & rows & _ & _ & Hd).
  exists cols, rows,
    (flat_map (Binary64.cells_of_color rgb6 (resize cols rows) cols rows)
              COLOR_ORDER_RGB6).
  split; [|split].
  - rewrite Hd. unfold Binary64.dabs_of_image. rewrite Hpal. simpl PALETTES.
    by rewrite flat_map_fmap.
  - apply NoDup_flat_map_disjoint.
    + apply (bool_decide_unpack _). by vm_compute.
    + intros c. apply NoDup_filter, serpentine_indices_NoDup.
    + intros c c' pt Hne H1 H2.
      apply list_elem_of_filter in H1 as [H1 _], H2 as [H2 _].
      unfold Binary64.painted in H1, H2. apply bool_decide_eq_true in H1, H2.
      congruence.
  - intros [i j] Hp. apply list_elem_of_In, in_flat_map in Hp as (c & _ & Hp).
    apply list_elem_of_In, list_elem_of_filter in Hp as [Hp Hin].
    apply serpentine_indices_elem in Hin as [Hi Hj]. cbn [fst snd].
    split; [done|]. split; [done|].
    unfold Binary64.painted in Hp. apply bool_decide_eq_true in Hp.
    unfold classify_pixel in Hp. cbn [fst snd] in Hp.
    by destruct (is_background (resize cols rows i j)).
Qed.

Lemma main_rgb6_never_paints_a_cell_twice_witness :
  exists lines cols rows cells,
    Binary64.main Binary64.hypot_axis (Binary64.sample_args rgb6 6 6 3) diagonal_image
    = Ok lines /\
    Binary64.dab_moves lines
    = map (fun p => Binary64.xy_of_pixel (Binary64.sample_args rgb6 6 6 3) (fst p) (snd p))
          cells /\
    NoDup cells /\
    forall p, p ∈ cells ->
      fst p < cols /\ snd p < rows /\
      is_background (diagonal_image cols rows (fst p) (snd p)) = false.
Proof.
  destruct (Binary64.main Binary64.hypot_axis (Binary64.sample_args rgb6 6 6 3)
              diagonal_image) as [lines|e] eqn:E;
    [|vm_compute in E; discriminate E].
  destruct (main_rgb6_never_paints_a_cell_twice Binary64.hypot_axis
              (Binary64.sample_args rgb6 6 6 3) diagonal_image lines eq_refl E)
    as (cols & rows & cells & H).
  exists lines, cols, rows, cells. split; [reflexivity|exact H].
Defined.
